(** * BinDiff command-line driver: output names, batch pairs, worker threads

    A shallow embedding of [main_portable.cc]: the output path builder
    [GetTruncatedFilename], the pair enumeration of [BatchDiff], the loop of
    [DifferThread::operator()] and [SignalHandler], with the properties the
    design document states about them. *)

From Stdlib Require Import String Ascii List Arith Lia Bool ZArith.
From Stdlib Require Import Numbers.DecimalString Permutation Sorted.
Import ListNotations.

(** ** Strings as [std::string] *)

Module Str.
Local Open Scope string_scope.
Local Open Scope nat_scope.

(** [s.size()] is [String.length s]; [s.substr(0, n)] keeps the first
    [min n (s.size())] characters; [absl::StrCat] and [operator+] append. *)
Definition substr0 (s : string) (n : nat) : string := substring 0 n s.

Fixpoint replicate (n : nat) (c : ascii) : string :=
  match n with
  | O => EmptyString
  | S k => String c (replicate k c)
  end.

End Str.

(** ** The output path builder *)

Module Filename.
Import Str.
Local Open Scope string_scope.
Local Open Scope nat_scope.

(** [enum { kMaxFilename = 250 }] *)
Definition kMaxFilename : nat := 250.

(** What a call does: return a name, throw [std::runtime_error], or stop at
    the [assert] of the second stage. *)
Inductive Outcome : Type :=
| Returned (name : string)
| RuntimeError (what : string)
| AssertionFailed.

(** The sum of the five sizes, [length] in the source. *)
Definition total_length (path part1 middle part2 extension : string) : nat :=
  String.length path + String.length part1 + String.length middle +
  String.length part2 + String.length extension.

(** "First, shorten the longer of the two strings": the working copies [one]
    and [two] and the overflow left.  Sizes are [size_type], unsigned; every
    subtraction of the function has a minuend at least as large as its
    subtrahend (here by [shorten_longer_no_wrap], in the caller by the tests
    that guard [length - kMaxFilename] and [one.size() - overflow / 2]), so
    the subtraction of [nat] is the subtraction of the source; and the sum
    of the sizes of five strings held in memory does not wrap. *)
Definition shorten_longer (part1 part2 : string) (overflow : nat)
  : string * string * nat :=
  if String.length part2 <? String.length part1 then
    let one :=
      substr0 part1
        (Nat.max (String.length part2)
                 (if overflow <? String.length part1
                  then String.length part1 - overflow else 0)) in
    (one, part2, overflow - (String.length part1 - String.length one))
  else if String.length part1 <? String.length part2 then
    let two :=
      substr0 part2
        (Nat.max (String.length part1)
                 (if overflow <? String.length part2
                  then String.length part2 - overflow else 0)) in
    (part1, two, overflow - (String.length part2 - String.length two))
  else (part1, part2, overflow).

Definition too_long_message (path part1 middle part2 extension : string)
  : string :=
  "Cannot create a valid filename, choose shorter input names/directories: '"
  ++ path ++ part1 ++ middle ++ part2 ++ extension ++ "'".

Definition GetTruncatedFilename (path part1 middle part2 extension : string)
  : Outcome :=
  let length := total_length path part1 middle part2 extension in
  if length <=? kMaxFilename then
    Returned (path ++ part1 ++ middle ++ part2 ++ extension)
  else
    let '(one, two, overflow) :=
      shorten_longer part1 part2 (length - kMaxFilename) in
    if overflow =? 0 then
      Returned (path ++ one ++ middle ++ two ++ extension)
    else if negb (String.length one =? String.length two) then
      AssertionFailed
    else if String.length one <=? overflow / 2 then
      RuntimeError (too_long_message path part1 middle part2 extension)
    else
      Returned (path ++ substr0 part1 (String.length one - overflow / 2)
                ++ middle
                ++ substr0 part2 (String.length two - overflow / 2)
                ++ extension).

(** The failure condition in the words of the design: once the longer
    fragment is cut to the length of the shorter one, overflow remains and
    half of it is at least what is left of a fragment. *)
Definition remaining_overflow (path part1 middle part2 extension : string)
  : nat :=
  let shorter := Nat.min (String.length part1) (String.length part2) in
  let longer := Nat.max (String.length part1) (String.length part2) in
  (total_length path part1 middle part2 extension - kMaxFilename)
  - (longer - shorter).

Definition name_too_long (path part1 middle part2 extension : string) : bool :=
  let shorter := Nat.min (String.length part1) (String.length part2) in
  let r := remaining_overflow path part1 middle part2 extension in
  (0 <? r) && (shorter <=? r / 2).

(** The size of what is never cut. *)
Definition fixed_length (path middle extension : string) : nat :=
  String.length path + String.length middle + String.length extension.

Definition outcome_length (o : Outcome) : option nat :=
  match o with
  | Returned name => Some (String.length name)
  | _ => None
  end.

End Filename.

(** ** The todo list of [BatchDiff] *)

Module BatchDiff.
Local Open Scope string_scope.
Local Open Scope nat_scope.

(** File-system helpers of the BinExport utility library, used by
    [BatchDiff] and [DifferThread] and defined outside this file. *)
Record FileSystem : Type := {
  GetFullPathName : string -> string;
  JoinPath : string -> string -> string;
  ReplaceFileExtension : string -> string -> string;
  GetFileSize : string -> option Z   (* [StatusOr<int64_t>] *)
}.

Definition kBinExportExtension : string := ".BinExport".

(** [using DiffPairList = std::list<std::pair<std::string, std::string>>] *)
Definition DiffPairList : Type := list (string * string).

(** [full_reference_file]: empty when no reference file is given. *)
Definition full_reference (fs : FileSystem) (reference_file : string)
  : string :=
  if (reference_file =? "")%string then ""
  else GetFullPathName fs reference_file.

(** The loop over [idbs]: a non-empty database is queued for export and its
    [.BinExport] name appended to [binexports]; an empty one is skipped. *)
Definition add_exported (fs : FileSystem) (full_path : string)
  (idbs binexports : list string) : list string :=
  fold_left
    (fun acc idb =>
       if (0 <? match GetFileSize fs (JoinPath fs full_path idb) with
                | Some size => size
                | None => 0
                end)%Z
       then (acc ++ [ReplaceFileExtension fs idb kBinExportExtension])%list
       else acc)
    idbs binexports.

(** "Create todo list of file pairs."  The iterators [it] and [jt] are
    positions in [binexports]; a pair of positions is kept when the two
    differ and no reference is given or the reference is the file at [it]. *)
Definition is_primary (fs : FileSystem) (full_path full_reference_file : string)
  (binexports : list string) (it : nat) : bool :=
  (full_reference_file =? "")%string
  || (full_reference_file =? JoinPath fs full_path (nth it binexports ""))%string.

Definition todo_positions (fs : FileSystem)
  (full_path full_reference_file : string) (binexports : list string)
  : list (nat * nat) :=
  flat_map
    (fun it =>
       flat_map
         (fun jt =>
            if it =? jt then []
            else if is_primary fs full_path full_reference_file binexports it
                 then [(it, jt)]
                 else [])
         (seq 0 (List.length binexports)))
    (seq 0 (List.length binexports)).

(** [files.emplace_back( *it, *jt)] *)
Definition todo_list (fs : FileSystem)
  (full_path full_reference_file : string) (binexports : list string)
  : DiffPairList :=
  map (fun p => (nth (fst p) binexports "", nth (snd p) binexports ""))
      (todo_positions fs full_path full_reference_file binexports).

(** The todo list of [BatchDiff(path, reference_file, out_path)], from what
    [CollectIdbsToExport] returned for the directory. *)
Definition BatchDiff_files (fs : FileSystem) (path reference_file : string)
  (idbs binexports : list string) : DiffPairList :=
  let full_path := GetFullPathName fs path in
  todo_list fs full_path (full_reference fs reference_file)
            (add_exported fs full_path idbs binexports).

(** [int num_diffed = files.size();]: a [size_t] stored in an [int]. *)
Definition to_int (z : Z) : Z := ((z + 2 ^ 31) mod 2 ^ 32 - 2 ^ 31)%Z.

Definition num_diffed (files : DiffPairList) : Z :=
  to_int (Z.of_nat (List.length files)).

(** [absl::StrCat] of an [int]. *)
Definition StrCat_int (z : Z) : string := NilEmpty.string_of_int (Z.to_int z).

(** The line printed after the threads are joined; [duration] is the text
    of [HumanReadableDuration(diff_time)]. *)
Definition pairs_diffed_message (files : DiffPairList) (duration : string)
  : string :=
  StrCat_int (num_diffed files) ++ " pairs diffed in " ++ duration.

(** The positions below [n] other than [it]. *)
Definition others (n it : nat) : list nat :=
  filter (fun jt => negb (it =? jt)) (seq 0 n).

(** The loop over [idbs] with all it does: the databases handed to the
    exporter, the names appended to [binexports], the warnings printed. *)
Record ExportPlan : Type := {
  databases : list string;
  exported : list string;
  warnings : list string
}.

Definition has_content (fs : FileSystem) (full_path idb : string) : bool :=
  (0 <? match GetFileSize fs (JoinPath fs full_path idb) with
        | Some size => size
        | None => 0
        end)%Z.

Definition skipping_message (fs : FileSystem) (full_path idb : string)
  : string :=
  "Warning: skipping empty file " ++ JoinPath fs full_path idb.

Definition plan_export (fs : FileSystem) (full_path : string)
  (idbs binexports : list string) : ExportPlan :=
  fold_left
    (fun plan idb =>
       if has_content fs full_path idb
       then {| databases :=
                 (databases plan ++ [JoinPath fs full_path idb])%list;
               exported :=
                 (exported plan
                  ++ [ReplaceFileExtension fs idb kBinExportExtension])%list;
               warnings := warnings plan |}
       else {| databases := databases plan;
               exported := exported plan;
               warnings :=
                 (warnings plan ++ [skipping_message fs full_path idb])%list |})
    idbs
    {| databases := []; exported := binexports; warnings := [] |}.

(** Pairs of positions in the order of the two loops: by [it], then by
    [jt]. *)
Definition before_in_loops (p q : nat * nat) : Prop :=
  fst p < fst q \/ (fst p = fst q /\ snd p < snd q).

End BatchDiff.

(** ** One iteration of [DifferThread::operator()] *)

Module DifferThread.
Import BatchDiff.
Local Open Scope string_scope.

(** What the two [catch] clauses of the loop tell apart: [std::bad_alloc],
    and any other [std::exception] with its [what()].  The loader, the
    engine and the writers throw nothing outside that hierarchy. *)
Inductive Exception : Type :=
| bad_alloc
| std_exception (what : string).

Inductive Side : Type := Primary | Secondary.

Inductive WriterKind : Type := ResultsLogWriter | DatabaseWriter.

(** The loader, the matching engine and the result writers, which the loop
    calls and which are defined outside this file.  A call that can throw
    returns the exception beside the objects it has changed by then. *)
Record Engine : Type := {
  Cache : Type;          (* [Instruction::Cache] *)
  Program : Type;        (* a [CallGraph] with its [FlowGraphs] *)
  FixedPoints : Type;
  Scores : Type;         (* histogram, counts, similarity, confidence *)
  empty_cache : Cache;   (* a cache after [clear()] *)
  no_program : Program;  (* default-constructed graphs *)
  DeleteFlowGraphs : Program -> Program;
  ResetMatches : Program -> Program;
  Read : string -> Program -> Cache -> Program * Cache * option Exception;
  Diff : Program -> Program -> Program * Program * (Exception + FixedPoints);
  GetScores : Program -> Program -> FixedPoints -> Exception + Scores;
  GetFilename : Program -> string;
  Write : list (WriterKind * string) -> Program -> Program -> FixedPoints ->
          option Exception;
  (* the result line, with the elapsed time and the scores *)
  ResultMessage : string -> string -> Scores -> string
}.

(** The members of the thread object and the two output flags. *)
Record Config : Type := {
  fs : FileSystem;
  kPathSeparator : string;
  path_ : string;
  out_path_ : string;
  g_output_binary : bool;
  g_output_log : bool
}.

(** What an iteration does, in order. *)
Inductive Event : Type :=
| PrintMessage (message : string)
| PrintErrorMessage (message : string)
| CacheCleared
| FlowGraphsDeleted (side : Side)
| ReadCalled (side : Side) (filename : string)
| MatchesReset (side : Side)
| DiffCalled
| WriteCalled (writers : list (WriterKind * string)).

(** How a statement ends: normally, by an exception, or at a failed
    [assert]. *)
Inductive Completion (A : Type) : Type :=
| Normal (a : A)
| Throw (e : Exception)
| Abort.
Arguments Normal {A} a.
Arguments Throw {A} e.
Arguments Abort {A}.

Section Loop.
Variable E : Engine.
Variable cfg : Config.

(** The locals of [operator()] that live across iterations. *)
Record State : Type := {
  instruction_cache : Cache E;
  graphs1 : Program E;   (* [call_graph1], [flow_graphs1] *)
  graphs2 : Program E;   (* [call_graph2], [flow_graphs2] *)
  last_file1 : string;
  last_file2 : string
}.

Definition initial : State :=
  {| instruction_cache := empty_cache E;
     graphs1 := no_program E;
     graphs2 := no_program E;
     last_file1 := "";
     last_file2 := "" |}.

(** Statements: state in, state out, what was done, how it ended. *)
Definition Stmt (A : Type) : Type := State -> State * list Event * Completion A.

Definition ret {A : Type} (a : A) : Stmt A := fun s => (s, [], Normal a).

Definition bind {A B : Type} (m : Stmt A) (k : A -> Stmt B) : Stmt B :=
  fun s =>
    match m s with
    | (s1, done1, Normal a) =>
        match k a s1 with
        | (s2, done2, c) => (s2, (done1 ++ done2)%list, c)
        end
    | (s1, done1, Throw e) => (s1, done1, Throw e)
    | (s1, done1, Abort) => (s1, done1, Abort)
    end.

Definition emit (e : Event) : Stmt unit := fun s => (s, [e], Normal tt).
Definition get : Stmt State := fun s => (s, [], Normal s).
Definition modify (f : State -> State) : Stmt unit :=
  fun s => (f s, [], Normal tt).
Definition throw {A : Type} (e : Exception) : Stmt A :=
  fun s => (s, [], Throw e).
Definition rethrow (o : option Exception) : Stmt unit :=
  match o with
  | None => ret tt
  | Some e => throw e
  end.
Definition when (b : bool) (m : Stmt unit) : Stmt unit :=
  if b then m else ret tt.

Notation "x <- m ;; k" := (bind m (fun x => k))
  (at level 61, m at next level, right associativity).
Notation "m ;; k" := (bind m (fun _ => k))
  (at level 61, right associativity).

Definition graphs (side : Side) (s : State) : Program E :=
  match side with
  | Primary => graphs1 s
  | Secondary => graphs2 s
  end.

Definition set_cache (c : Cache E) (s : State) : State :=
  {| instruction_cache := c;
     graphs1 := graphs1 s; graphs2 := graphs2 s;
     last_file1 := last_file1 s; last_file2 := last_file2 s |}.

Definition set_graphs (side : Side) (g : Program E) (s : State) : State :=
  match side with
  | Primary =>
      {| instruction_cache := instruction_cache s;
         graphs1 := g; graphs2 := graphs2 s;
         last_file1 := last_file1 s; last_file2 := last_file2 s |}
  | Secondary =>
      {| instruction_cache := instruction_cache s;
         graphs1 := graphs1 s; graphs2 := g;
         last_file1 := last_file1 s; last_file2 := last_file2 s |}
  end.

Definition set_last_files (file1 file2 : string) (s : State) : State :=
  {| instruction_cache := instruction_cache s;
     graphs1 := graphs1 s; graphs2 := graphs2 s;
     last_file1 := file1; last_file2 := file2 |}.

(** [instruction_cache.clear()] *)
Definition clear_cache : Stmt unit :=
  modify (set_cache (empty_cache E)) ;; emit CacheCleared.

(** The branch that reads a file anew: [PrintMessage], [DeleteFlowGraphs],
    [Read] of the file under [path_] into the graphs and the cache. *)
Definition load (side : Side) (file : string) : Stmt unit :=
  emit (PrintMessage ("Reading " ++ file)) ;;
  modify (fun s => set_graphs side (DeleteFlowGraphs E (graphs side s)) s) ;;
  emit (FlowGraphsDeleted side) ;;
  emit (ReadCalled side (JoinPath (fs cfg) (path_ cfg) file)) ;;
  s <- get ;;
  match Read E (JoinPath (fs cfg) (path_ cfg) file)
             (graphs side s) (instruction_cache s) with
  | (g, c, thrown) =>
      modify (fun s => set_graphs side g (set_cache c s)) ;;
      rethrow thrown
  end.

(** The branch that keeps the loaded graphs: [ResetMatches]. *)
Definition reset (side : Side) : Stmt unit :=
  modify (fun s => set_graphs side (ResetMatches E (graphs side s)) s) ;;
  emit (MatchesReset side).

(** [Diff(&context, ...)] on the two sides. *)
Definition diff : Stmt (FixedPoints E) :=
  emit DiffCalled ;;
  s <- get ;;
  match Diff E (graphs1 s) (graphs2 s) with
  | (g1, g2, result) =>
      modify (fun s => set_graphs Secondary g2 (set_graphs Primary g1 s)) ;;
      match result with
      | inl e => throw e
      | inr fixed_points => ret fixed_points
      end
  end.

(** [GetCountsAndHistogram], [GetSimilarityScore], [GetConfidence]. *)
Definition scores (fixed_points : FixedPoints E) : Stmt (Scores E) :=
  s <- get ;;
  match GetScores E (graphs1 s) (graphs2 s) fixed_points with
  | inl e => throw e
  | inr sc => ret sc
  end.

(** [GetTruncatedFilename(out_path_ + kPathSeparator,
    call_graph1.GetFilename(), "_vs_", call_graph2.GetFilename(), ext)] *)
Definition output_name (extension : string) : Stmt string :=
  s <- get ;;
  match Filename.GetTruncatedFilename
          (out_path_ cfg ++ kPathSeparator cfg)
          (GetFilename E (graphs1 s)) "_vs_"
          (GetFilename E (graphs2 s)) extension with
  | Filename.Returned name => ret name
  | Filename.RuntimeError what => throw (std_exception what)
  | Filename.AssertionFailed => fun s => (s, [], Abort)
  end.

(** The block that fills the [ChainWriter] and writes. *)
Definition write_results (fixed_points : FixedPoints E) : Stmt unit :=
  writer <- (if g_output_log cfg
             then name <- output_name ".results" ;;
                  ret [(ResultsLogWriter, name)]
             else ret []) ;;
  writer <- (if g_output_binary cfg
                || match writer with [] => true | _ => false end
             then name <- output_name ".BinDiff" ;;
                  ret (writer ++ [(DatabaseWriter, name)])%list
             else ret writer) ;;
  emit (WriteCalled writer) ;;
  s <- get ;;
  rethrow (Write E writer (graphs1 s) (graphs2 s) fixed_points).

Definition last_file (side : Side) (s : State) : string :=
  match side with
  | Primary => last_file1 s
  | Secondary => last_file2 s
  end.

(** [if (last_file != file) { ...Read... } else { ResetMatches }] for one
    side. *)
Definition prepare (side : Side) (file : string) : Stmt unit :=
  s <- get ;;
  if negb (last_file side s =? file) then load side file else reset side.

(** "Perform setup and diff": the [try] block after the cache check. *)
Definition setup_and_diff (file1 file2 : string) : Stmt unit :=
  prepare Primary file1 ;;
  prepare Secondary file2 ;;
  emit (PrintMessage ("Diffing " ++ file1 ++ " vs " ++ file2)) ;;
  fixed_points <- diff ;;
  sc <- scores fixed_points ;;
  emit (PrintMessage "Writing results") ;;
  write_results fixed_points ;;
  emit (PrintMessage (ResultMessage E file1 file2 sc)) ;;
  modify (set_last_files file1 file2).

(** The [try] block once both sides are set up, from the line "Diffing"
    to the two remembered names: what [setup_and_diff] does after its two
    calls of [prepare]. *)
Definition diff_and_write (file1 file2 : string) : Stmt unit :=
  emit (PrintMessage ("Diffing " ++ file1 ++ " vs " ++ file2)) ;;
  fixed_points <- diff ;;
  sc <- scores fixed_points ;;
  emit (PrintMessage "Writing results") ;;
  write_results fixed_points ;;
  emit (PrintMessage (ResultMessage E file1 file2 sc)) ;;
  modify (set_last_files file1 file2).

(** The [try] block, from after the pop to its end: "We need to keep the
    cache around if one file stays the same". *)
Definition body (file1 file2 : string) : Stmt unit :=
  s <- get ;;
  when (negb (last_file1 s =? file1) && negb (last_file2 s =? file2))
       clear_cache ;;
  setup_and_diff file1 file2.

Definition out_of_memory_message (file1 file2 : string) : string :=
  "out of memory diffing " ++ file1 ++ " vs " ++ file2.

Definition while_diffing_message (file1 file2 what : string) : string :=
  "while diffing " ++ file1 ++ " vs " ++ file2 ++ ": " ++ what.

(** The [try] block with its two [catch] clauses. *)
Definition iteration (file1 file2 : string) : Stmt unit :=
  fun s =>
    match body file1 file2 s with
    | (s1, done, Normal tt) => (s1, done, Normal tt)
    | (s1, done, Throw bad_alloc) =>
        (set_last_files "" "" s1,
         (done ++ [PrintErrorMessage (out_of_memory_message file1 file2)])%list,
         Normal tt)
    | (s1, done, Throw (std_exception what)) =>
        (set_last_files "" "" s1,
         (done ++ [PrintErrorMessage
                     (while_diffing_message file1 file2 what)])%list,
         Normal tt)
    | (s1, done, Abort) => (s1, done, Abort)
    end.

End Loop.

Arguments ret {E A} a.
Arguments bind {E A B} m k.
Arguments emit {E} e.
Arguments get {E}.
Arguments modify {E} f.
Arguments throw {E A} e.
Arguments rethrow {E} o.
Arguments when {E} b m.

(** *** What a run shows *)


(** Every event of every run of [m] satisfies [P]. *)
Definition emits {E : Engine} (P : Event -> Prop) {A : Type} (m : Stmt E A)
  : Prop :=
  forall s s' done c, m s = (s', done, c) -> Forall P done.

(** No run of [m] stops at an assertion. *)
Definition no_abort {E : Engine} {A : Type} (m : Stmt E A) : Prop :=
  forall s s' done, m s <> (s', done, Abort).



Definition not_reset (e : Event) : Prop :=
  forall side, e <> MatchesReset side.

(** The error line, by the [catch] clause. *)
Definition error_message (e : Exception) (file1 file2 : string) : string :=
  match e with
  | bad_alloc => out_of_memory_message file1 file2
  | std_exception what => while_diffing_message file1 file2 what
  end.

(** The writers a [ChainWriter] is filled with, by the two output flags: the
    log writer if asked for, then the database writer if asked for or if
    the chain is still empty. *)
Definition chain_kinds (cfg : Config) : list WriterKind :=
  ((if g_output_log cfg then [ResultsLogWriter] else [])
   ++ (if g_output_binary cfg || negb (g_output_log cfg)
       then [DatabaseWriter] else []))%list.

Definition extension_of (kind : WriterKind) : string :=
  match kind with
  | ResultsLogWriter => ".results"
  | DatabaseWriter => ".BinDiff"
  end.

(** The name a writer of kind [kind] is created with, for the graphs of
    state [s]. *)
Definition name_for {E : Engine} (cfg : Config) (s : State E)
  (kind : WriterKind) : Filename.Outcome :=
  Filename.GetTruncatedFilename
    (out_path_ cfg ++ kPathSeparator cfg)
    (GetFilename E (graphs1 E s)) "_vs_"
    (GetFilename E (graphs2 E s)) (extension_of kind).

(** What the reading branch does up to the call of [Read]. *)
Definition reading (cfg : Config) (side : Side) (file : string) : list Event :=
  [PrintMessage ("Reading " ++ file); FlowGraphsDeleted side;
   ReadCalled side (JoinPath (fs cfg) (path_ cfg) file)].

End DifferThread.

(** ** The threads of [BatchDiff], the shared queue and the signal handler *)

Module Pool.
Import BatchDiff DifferThread.
Local Open Scope string_scope.
Local Open Scope list_scope.

(** Where a thread is in [operator()]: before the pop at the top of the
    [do] block, in the [try] block with the pair it popped, at the [while]
    condition, or returned. *)
Inductive Location : Type :=
| AtPop
| Holding (file1 file2 : string)
| AtWhile
| Returned.

Inductive Status : Type :=
| Running
| Exited (code : Z)   (* [exit(code)] *)
| Aborted.            (* a failed [assert] *)

Inductive Signal : Type := SIGINT | SIGBREAK | OtherSignal.

(** The history of the process, in the order things happen. *)
Inductive Entry : Type :=
| Popped (thread : nat) (file1 file2 : string)
| Did (thread : nat) (e : Event)
| Completed (thread : nat) (file1 file2 : string)
| Left (thread : nat)
| Handled (e : Event).

Section Threads.
Variable E : Engine.
Variable cfg : Config.

Record Thread : Type := {
  location : Location;
  locals : State E
}.

(** [files] behind [g_queue_mutex], [g_wants_to_quit], the handler's
    static [signal_count], and the threads. *)
Record Process : Type := {
  file_queue : DiffPairList;
  g_wants_to_quit : bool;
  signal_count : Z;
  threads : list Thread;
  log : list Entry;
  status : Status
}.

(** What one move of a thread changes. *)
Record Effect : Type := {
  thread_after : Thread;
  queue_after : DiffPairList;
  entries : list Entry;
  status_after : Status
}.

(** The next move of thread [i].  The pop is one move: it happens under
    [absl::MutexLock lock{&g_queue_mutex}].  The flag is read at the
    [while] condition only. *)
Definition thread_action (i : nat) (t : Thread) (queue : DiffPairList)
  (quit : bool) : option Effect :=
  match location t with
  | AtPop =>
      match queue with
      | [] =>
          Some {| thread_after := {| location := Returned; locals := locals t |};
                  queue_after := queue;
                  entries := [Left i];
                  status_after := Running |}
      | (file1, file2) :: rest =>
          Some {| thread_after := {| location := Holding file1 file2;
                                     locals := locals t |};
                  queue_after := rest;
                  entries := [Popped i file1 file2];
                  status_after := Running |}
      end
  | Holding file1 file2 =>
      match iteration E cfg file1 file2 (locals t) with
      | (s, done, Normal _) =>
          Some {| thread_after := {| location := AtWhile; locals := s |};
                  queue_after := queue;
                  entries := map (Did i) done ++ [Completed i file1 file2];
                  status_after := Running |}
      | (s, done, _) =>   (* stopped at an [assert]: the process aborts *)
          Some {| thread_after := {| location := Holding file1 file2;
                                     locals := s |};
                  queue_after := queue;
                  entries := map (Did i) done;
                  status_after := Aborted |}
      end
  | AtWhile =>
      if quit
      then Some {| thread_after := {| location := Returned; locals := locals t |};
                   queue_after := queue;
                   entries := [Left i];
                   status_after := Running |}
      else Some {| thread_after := {| location := AtPop; locals := locals t |};
                   queue_after := queue;
                   entries := [];
                   status_after := Running |}
  | Returned => None
  end.

Definition shutting_down_message : string :=
  "shutting down after current operations finish".

Definition terminating_message : string :=
  "forcefully terminating process".

(** [SignalHandler]: [SIGINT] and, on Windows, [SIGBREAK] share one case;
    the [switch] has no other. *)
Definition SignalHandler (code : Signal) (p : Process) : Process :=
  match code with
  | SIGINT | SIGBREAK =>
      let count := (signal_count p + 1)%Z in
      if (count <? 3)%Z then
        {| file_queue := file_queue p;
           g_wants_to_quit := true;
           signal_count := count;
           threads := threads p;
           log := log p ++ [Handled (PrintErrorMessage shutting_down_message)];
           status := status p |}
      else
        {| file_queue := file_queue p;
           g_wants_to_quit := g_wants_to_quit p;
           signal_count := count;
           threads := threads p;
           log := log p ++ [Handled (PrintErrorMessage terminating_message)];
           status := Exited 1 |}
  | OtherSignal => p
  end.

Definition apply_effect (p : Process) (before after : list Thread)
  (eff : Effect) : Process :=
  {| file_queue := queue_after eff;
     g_wants_to_quit := g_wants_to_quit p;
     signal_count := signal_count p;
     threads := before ++ thread_after eff :: after;
     log := log p ++ entries eff;
     status := status_after eff |}.

(** A running process moves when one of its threads moves or a signal is
    delivered.  Moves interleave; between its pop and its [while] condition
    a thread touches its own locals only, so its iteration is one move. *)
Inductive step : Process -> Process -> Prop :=
| step_thread (p : Process) (before after : list Thread) (t : Thread)
    (eff : Effect) :
    status p = Running ->
    threads p = before ++ t :: after ->
    thread_action (List.length before) t (file_queue p) (g_wants_to_quit p)
      = Some eff ->
    step p (apply_effect p before after eff)
| step_signal (p : Process) (code : Signal) :
    status p = Running ->
    step p (SignalHandler code p).

Inductive reaches (p : Process) : Process -> Prop :=
| reaches_refl : reaches p p
| reaches_step (q r : Process) : reaches p q -> step q r -> reaches p r.

(** The process when [BatchDiff] has started its threads: the todo list
    as the queue, every thread at the top of its loop with fresh locals.
    A signal may have come before, during the export. *)
Definition start (files : DiffPairList) (num_threads : nat) (quit : bool)
  (count : Z) : Process :=
  {| file_queue := files;
     g_wants_to_quit := quit;
     signal_count := count;
     threads := repeat {| location := AtPop; locals := initial E |}
                       num_threads;
     log := [];
     status := Running |}.

(** The pairs popped, with the thread that popped each, in the order of
    the pops. *)
Fixpoint popped (l : list Entry) : list (nat * (string * string)) :=
  match l with
  | [] => []
  | Popped i file1 file2 :: l' => (i, (file1, file2)) :: popped l'
  | _ :: l' => popped l'
  end.

(** The pairs whose iteration has ended, in the order of completion. *)
Fixpoint completed (l : list Entry) : list (nat * (string * string)) :=
  match l with
  | [] => []
  | Completed i file1 file2 :: l' => (i, (file1, file2)) :: completed l'
  | _ :: l' => completed l'
  end.

(** The pairs in the hands of the threads numbered from [k] on. *)
Fixpoint held_from (k : nat) (ts : list Thread)
  : list (nat * (string * string)) :=
  match ts with
  | [] => []
  | t :: ts' =>
      match location t with
      | Holding file1 file2 => (k, (file1, file2)) :: held_from (S k) ts'
      | _ => held_from (S k) ts'
      end
  end.

Definition by_thread (i : nat) (l : list (nat * (string * string)))
  : list (string * string) :=
  map snd (filter (fun e => (fst e =? i)%nat) l).

Definition all_returned (p : Process) : Prop :=
  Forall (fun t => location t = Returned) (threads p).

(** The pair in the hands of thread [k], if any. *)
Definition held_one (k : nat) (t : Thread) : list (nat * (string * string)) :=
  match location t with
  | Holding file1 file2 => [(k, (file1, file2))]
  | _ => []
  end.

(** The pairs popped by thread [i], in order. *)
Definition pops_by (i : nat) (p : Process) : list (string * string) :=
  by_thread i (popped (log p)).

(** Every pair popped is completed or held. *)
Definition accounted (p : Process) : Prop :=
  Permutation (popped (log p)) (completed (log p) ++ held_from 0 (threads p)).

Definition some_returned (p : Process) : Prop :=
  Exists (fun t => location t = Returned) (threads p).

(** A thread returns only from an empty queue or on the flag. *)
Definition settled (p : Process) : Prop :=
  some_returned p -> file_queue p = [] \/ g_wants_to_quit p = true.

(** The five moves of a thread. *)
Inductive move (i : nat) (t : Thread) (queue : DiffPairList) (quit : bool)
  : Effect -> Prop :=
| move_pop (file1 file2 : string) (rest : DiffPairList) :
    location t = AtPop -> queue = (file1, file2) :: rest ->
    move i t queue quit
      {| thread_after := {| location := Holding file1 file2;
                            locals := locals t |};
         queue_after := rest;
         entries := [Popped i file1 file2];
         status_after := Running |}
| move_break :
    location t = AtPop -> queue = [] ->
    move i t queue quit
      {| thread_after := {| location := Returned; locals := locals t |};
         queue_after := queue;
         entries := [Left i];
         status_after := Running |}
| move_work (file1 file2 : string) (s : State E) (done : list Event) :
    location t = Holding file1 file2 ->
    iteration E cfg file1 file2 (locals t) = (s, done, Normal tt) ->
    move i t queue quit
      {| thread_after := {| location := AtWhile; locals := s |};
         queue_after := queue;
         entries := map (Did i) done ++ [Completed i file1 file2];
         status_after := Running |}
| move_again :
    location t = AtWhile -> quit = false ->
    move i t queue quit
      {| thread_after := {| location := AtPop; locals := locals t |};
         queue_after := queue;
         entries := [];
         status_after := Running |}
| move_leave :
    location t = AtWhile -> quit = true ->
    move i t queue quit
      {| thread_after := {| location := Returned; locals := locals t |};
         queue_after := queue;
         entries := [Left i];
         status_after := Running |}.


(** A bound on the moves the threads can still make: three for each queued
    pair (iteration, [while], next pop) and what each thread has left of
    its present round. *)
Definition moves_left_at (l : Location) : nat :=
  match l with
  | AtPop => 1
  | Holding _ _ => 3
  | AtWhile => 2
  | Returned => 0
  end.

Definition moves_left (queue : DiffPairList) (ts : list Thread) : nat :=
  3 * List.length queue
  + list_sum (map (fun t => moves_left_at (location t)) ts).

(** One run of the process under a given schedule: at each turn thread [i]
    moves, or a signal is delivered. *)
Definition run_thread (i : nat) (p : Process) : option Process :=
  match status p, nth_error (threads p) i with
  | Running, Some t =>
      match thread_action i t (file_queue p) (g_wants_to_quit p) with
      | Some eff =>
          Some (apply_effect p (firstn i (threads p))
                             (skipn (S i) (threads p)) eff)
      | None => None
      end
  | _, _ => None
  end.

Definition deliver (code : Signal) (p : Process) : option Process :=
  match status p with
  | Running => Some (SignalHandler code p)
  | _ => None
  end.

Fixpoint run (schedule : list (nat + Signal)) (p : Process) : option Process :=
  match schedule with
  | [] => Some p
  | turn :: schedule' =>
      match match turn with
            | inl i => run_thread i p
            | inr code => deliver code p
            end with
      | Some q => run schedule' q
      | None => None
      end
  end.

(** The turns of a schedule that are moves of threads. *)
Definition thread_turns (schedule : list (nat + Signal)) : nat :=
  List.length (filter (fun turn => match turn with
                                   | inl _ => true
                                   | inr _ => false
                                   end) schedule).

(** The names a thread remembers are both empty or a pair of [files]. *)
Definition remembers_from (files : DiffPairList) (t : Thread) : Prop :=
  (last_file1 E (locals t) = "" /\ last_file2 E (locals t) = "") \/
  In (last_file1 E (locals t), last_file2 E (locals t)) files.

(** The pair a thread holds is a pair of [files]. *)
Definition holds_from (files : DiffPairList) (t : Thread) : Prop :=
  forall file1 file2, location t = Holding file1 file2 -> In (file1, file2) files.

(** One thread alone: its locals after the iterations on [pairs], one
    after the other, from the locals [s]; and what these iterations do. *)
Fixpoint after_pairs (pairs : DiffPairList) (s : State E) : State E :=
  match pairs with
  | [] => s
  | (file1, file2) :: pairs' =>
      after_pairs pairs' (fst (fst (iteration E cfg file1 file2 s)))
  end.

Fixpoint done_on (pairs : DiffPairList) (s : State E) : list Event :=
  match pairs with
  | [] => []
  | (file1, file2) :: pairs' =>
      snd (fst (iteration E cfg file1 file2 s))
      ++ done_on pairs' (fst (fst (iteration E cfg file1 file2 s)))
  end.

(** What thread [i] did, from the history. *)
Fixpoint did_by (i : nat) (l : list Entry) : list Event :=
  match l with
  | [] => []
  | Did j e :: l' => if (j =? i)%nat then e :: did_by i l' else did_by i l'
  | _ :: l' => did_by i l'
  end.

End Threads.

End Pool.

(** ** The command line: [BinDiffMain] and [main] *)

Module Main.
Import BatchDiff DifferThread.
Local Open Scope list_scope.
Local Open Scope string_scope.

(** [absl::ascii_toupper] and [absl::AsciiStrToUpper]: the letters [a] to
    [z] become [A] to [Z], every other character stays. *)
Definition ascii_toupper (c : ascii) : ascii :=
  let n := nat_of_ascii c in
  if ((97 <=? n) && (n <=? 122))%nat then ascii_of_nat (n - 32) else c.

Fixpoint AsciiStrToUpper (s : string) : string :=
  match s with
  | EmptyString => EmptyString
  | String c s' => String (ascii_toupper c) (AsciiStrToUpper s')
  end.

(** [absl::Status], by the codes this file makes and any other code a
    callee may return. *)
Inductive StatusCode : Type :=
| kInvalidArgument
| kFailedPrecondition
| kUnknown
| kOther.

Inductive Status : Type :=
| OkStatus
| Error (code : StatusCode) (message : string).

(** *** The output formats *)

(** The loop over [FLAGS_output_format]: the two globals as they are when
    the loop ends or returns, and the status. *)
Fixpoint parse_output_format (entries : list string)
  (output_binary output_log : bool) : bool * bool * Status :=
  match entries with
  | [] => (output_binary, output_log, OkStatus)
  | entry :: entries' =>
      let format := AsciiStrToUpper entry in
      if (format =? "BIN") || (format =? "BINARY") then
        parse_output_format entries' true output_log
      else if format =? "LOG" then
        parse_output_format entries' output_binary true
      else
        (output_binary, output_log,
         Error kInvalidArgument ("Invalid output format: " ++ entry))
  end.

Definition is_binary_format (entry : string) : bool :=
  (AsciiStrToUpper entry =? "BIN") || (AsciiStrToUpper entry =? "BINARY").

Definition is_log_format (entry : string) : bool :=
  AsciiStrToUpper entry =? "LOG".

Definition is_format (entry : string) : bool :=
  is_binary_format entry || is_log_format entry.

(** *** The two inputs *)

(** "Prefer named arguments over positional ones": the iterator [pos_it]
    is the list of the positional arguments not taken yet. *)
Definition resolve_inputs (primary secondary : string)
  (positional : list string) : Status + string * string :=
  let '(primary, pos_it) :=
    match positional with
    | first :: rest => if primary =? "" then (first, rest)
                       else (primary, positional)
    | [] => (primary, positional)
    end in
  let '(secondary, pos_it) :=
    match pos_it with
    | first :: rest => if secondary =? "" then (first, rest)
                       else (secondary, pos_it)
    | [] => (secondary, pos_it)
    end in
  match pos_it with
  | _ :: _ => inl (Error kInvalidArgument "Extra arguments on command line")
  | [] =>
      if primary =? ""
      then inl (Error kInvalidArgument "Need primary input (--primary)")
      else inr (primary, secondary)
  end.

(** The number of inputs left to the positional arguments. *)
Definition unnamed_inputs (primary secondary : string) : nat :=
  (if primary =? "" then 1 else 0) + (if secondary =? "" then 1 else 0).

(** *** [BinDiffMain] *)

(** The flags [BinDiffMain] reads, as [absl::ParseCommandLine] leaves
    them; [FLAGS_export] is read by [BatchDiff] only.  [FLAGS_output_dir]
    is [None] when the command line does not give it: the flag then holds
    the current directory, which [BinDiffMain] stores before it parses the
    command line. *)
Record Flags : Type := {
  FLAGS_nologo : bool;
  FLAGS_ui : bool;
  FLAGS_primary : string;
  FLAGS_secondary : string;
  FLAGS_output_dir : option string;
  FLAGS_output_format : list string;
  FLAGS_md_index : bool;
  FLAGS_ls : bool;
  FLAGS_config : string
}.

(** What [BinDiffMain] calls besides the engine: the file system, the
    configuration, the UI launcher, and the three batch functions, whose
    effect on the file system is all that [BinDiffMain] can see of them.
    The lines whose text holds times, counts and scores are given by the
    graphs they are printed for. *)
Record Host (E : Engine) : Type := {
  World : Type;
  GetCurrentDirectory : World -> string;
  IsDirectory : World -> string -> bool;
  FileExists : World -> string -> bool;
  (* [LoadFromFileWithDefaults] of the file, or [InitConfig] for [""] *)
  LoadConfig : string -> World -> World * Status;
  (* neither list of default matching steps is empty *)
  have_matching_steps : World -> bool;
  StartUiWithOptions : list string -> World -> World * Status;
  ListFiles : string -> World -> World * option Exception;
  BatchDumpMdIndices : string -> World -> World * option Exception;
  BatchDiff : string -> string -> string -> World -> World * option Exception;
  path_separator : string;       (* [kPathSeparator] *)
  banner : string;               (* name, version and copyright *)
  bad_alloc_what : string;       (* [what()] of a [std::bad_alloc] *)
  (* "Setup:", "primary:", "secondary:" *)
  setup_report : Program E -> Program E -> list string;
  (* "Matching:", "matched:", the two MD index lines, "Similarity:" *)
  matching_report : Program E -> Program E -> FixedPoints E -> Scores E ->
                    list string;
  writing_report : string        (* "Writing results:" *)
}.

Arguments World {E} h.
Arguments GetCurrentDirectory {E} h w.
Arguments IsDirectory {E} h w path.
Arguments FileExists {E} h w path.
Arguments LoadConfig {E} h file w.
Arguments have_matching_steps {E} h w.
Arguments StartUiWithOptions {E} h arguments w.
Arguments ListFiles {E} h path w.
Arguments BatchDumpMdIndices {E} h path w.
Arguments BatchDiff {E} h path reference_file out_path w.
Arguments path_separator {E} h.
Arguments banner {E} h.
Arguments bad_alloc_what {E} h.
Arguments setup_report {E} h g1 g2.
Arguments matching_report {E} h g1 g2 fixed_points sc.
Arguments writing_report {E} h.

(** What a run does, in order: what a thread of the batch does as well,
    and the calls only [BinDiffMain] makes. *)
Inductive Action : Type :=
| Did (e : Event)
| ConfigLoaded (file : string)
| UiStarted (arguments : list string)
| ListFilesCalled (path : string)
| BatchDumpMdIndicesCalled (path : string)
| BatchDiffCalled (path reference_file out_path : string)
| DumpMdIndicesCalled
| HelpPrinted.

(** How a statement of [BinDiffMain] ends: it goes on, it returns a status,
    it throws, or it stops at a failed [assert]. *)
Inductive Flow (A : Type) : Type :=
| Next (a : A)
| Return (status : Status)
| Raise (e : Exception)
| Trap.
Arguments Next {A} a.
Arguments Return {A} status.
Arguments Raise {A} e.
Arguments Trap {A}.

Definition EXIT_SUCCESS : Z := 0.
Definition EXIT_FAILURE : Z := 1.

Definition invalid_inputs_message : string :=
  "Invalid inputs, --primary and --secondary must point to valid "
  ++ "files/directories.".

Definition output_dir_message (output_dir : string) : string :=
  "Output parameter (--output_dir) must be a writable directory: "
  ++ output_dir.

Section Program.
Variable E : Engine.
Variable H : Host E.

(** The file system and the locals of the [try] block: the instruction
    cache and the graphs of the two sides. *)
Definition Machine : Type := World H * State E.

Definition Run (A : Type) : Type :=
  Machine -> Machine * list Action * Flow A.

Definition ret {A : Type} (a : A) : Run A := fun m => (m, [], Next a).

Definition bind {A B : Type} (r : Run A) (k : A -> Run B) : Run B :=
  fun m =>
    match r m with
    | (m1, done1, Next a) =>
        match k a m1 with
        | (m2, done2, f) => (m2, (done1 ++ done2)%list, f)
        end
    | (m1, done1, Return status) => (m1, done1, Return status)
    | (m1, done1, Raise e) => (m1, done1, Raise e)
    | (m1, done1, Trap) => (m1, done1, Trap)
    end.

Notation "x <- r ;; k" := (bind r (fun x => k))
  (at level 61, r at next level, right associativity).
Notation "r ;; k" := (bind r (fun _ => k))
  (at level 61, right associativity).

Definition emit (a : Action) : Run unit := fun m => (m, [a], Next tt).

Definition print_all (lines : list string) : Run unit :=
  fun m => (m, map (fun line => Did (PrintMessage line)) lines, Next tt).

Definition finish {A : Type} (status : Status) : Run A :=
  fun m => (m, [], Return status).

Definition when (b : bool) (r : Run unit) : Run unit :=
  if b then r else ret tt.

(** A look at the file system. *)
Definition ask {A : Type} (f : World H -> A) : Run A :=
  fun m => (m, [], Next (f (fst m))).

Definition locals : Run (State E) := fun m => (m, [], Next (snd m)).

(** A call that may change the file system and may throw. *)
Definition call (a : Action) (f : World H -> World H * option Exception)
  : Run unit :=
  fun m =>
    match f (fst m) with
    | (w, thrown) =>
        ((w, snd m), [a],
         match thrown with
         | None => Next tt
         | Some e => Raise e
         end)
    end.

(** A call that returns a status. *)
Definition call_status (a : Action) (f : World H -> World H * Status)
  : Run Status :=
  fun m =>
    match f (fst m) with
    | (w, status) => ((w, snd m), [a], Next status)
    end.

(** A statement of the loop of a thread, run on the locals. *)
Definition lift {A : Type} (st : Stmt E A) : Run A :=
  fun m =>
    match st (snd m) with
    | (s, done, c) =>
        ((fst m, s), map Did done,
         match c with
         | Normal a => Next a
         | Throw e => Raise e
         | Abort => Trap
         end)
    end.

(** [Read(file, call_graph, &flow_graphs, &infos, &instruction_cache)] *)
Definition read (side : Side) (file : string) : Run unit :=
  fun m =>
    match Read E file (graphs E side (snd m)) (instruction_cache E (snd m)) with
    | (g, c, thrown) =>
        ((fst m, set_graphs E side g (set_cache E c (snd m))),
         [Did (ReadCalled side file)],
         match thrown with
         | None => Next tt
         | Some e => Raise e
         end)
    end.

(** [GetTruncatedFilename(FLAGS_output_dir + kPathSeparator,
    call_graph1->GetFilename(), "_vs_", call_graph2->GetFilename(), ext)] *)
Definition truncated_name (output_dir extension : string) : Run string :=
  fun m =>
    match Filename.GetTruncatedFilename
            (output_dir ++ path_separator H)
            (GetFilename E (graphs1 E (snd m))) "_vs_"
            (GetFilename E (graphs2 E (snd m))) extension with
    | Filename.Returned name => (m, [], Next name)
    | Filename.RuntimeError what => (m, [], Raise (std_exception what))
    | Filename.AssertionFailed => (m, [], Trap)
    end.

Definition IsEmpty (writer : list (WriterKind * string)) : bool :=
  match writer with
  | [] => true
  | _ :: _ => false
  end.

(** The block under [if (call_graph1.get() && call_graph2.get())]. *)
Definition diff_files (output_dir : string) (output_binary output_log : bool)
  : Run unit :=
  s <- locals ;;
  print_all (setup_report H (graphs1 E s) (graphs2 E s)) ;;
  fixed_points <- lift (diff E) ;;
  sc <- lift (scores E fixed_points) ;;
  s <- locals ;;
  print_all (matching_report H (graphs1 E s) (graphs2 E s) fixed_points sc) ;;
  writer <- (if output_log
             then name <- truncated_name output_dir ".results" ;;
                  ret [(ResultsLogWriter, name)]
             else ret []) ;;
  writer <- (if output_binary || IsEmpty writer
             then name <- truncated_name output_dir ".BinDiff" ;;
                  ret (writer ++ [(DatabaseWriter, name)])%list
             else ret writer) ;;
  when (negb (IsEmpty writer))
       (emit (Did (WriteCalled writer)) ;;
        s <- locals ;;
        match Write E writer (graphs1 E s) (graphs2 E s) fixed_points with
        | Some e => fun m => (m, [], Raise e)
        | None => print_all [writing_report H]
        end).

(** The [if (IsDirectory(primary))] block. *)
Definition batch (flags : Flags) (primary secondary output_dir : string)
  : Run unit :=
  if FLAGS_ls flags then
    call (ListFilesCalled primary) (ListFiles H primary)
  else if FLAGS_md_index flags then
    call (BatchDumpMdIndicesCalled primary) (BatchDumpMdIndices H primary)
  else
    call (BatchDiffCalled primary secondary output_dir)
         (BatchDiff H primary secondary output_dir).

(** The condition of the "Invalid inputs" return. *)
Definition invalid_inputs (done_something : bool) (primary secondary : string)
  (w : World H) : bool :=
  (negb done_something && negb (FileExists H w primary)
   && negb (IsDirectory H w primary))
  || (negb (secondary =? "") && negb (FileExists H w secondary)
      && negb (IsDirectory H w secondary)).

(** The [try] block.  [call_graph1] is set exactly when the primary was
    found to be a file, [call_graph2] when the secondary was. *)
Definition try_block (flags : Flags)
  (current_path output_dir primary secondary : string)
  (output_binary output_log : bool) : Run unit :=
  defaulted <- ask (fun w => (output_dir =? current_path)
                             && IsDirectory H w primary) ;;
  let output_dir := if defaulted then primary else output_dir in
  writable <- ask (fun w => IsDirectory H w output_dir) ;;
  if negb writable then
    finish (Error kFailedPrecondition (output_dir_message output_dir))
  else
    call_graph1 <- ask (fun w => FileExists H w primary) ;;
    when call_graph1 (read Primary primary) ;;
    directory <- ask (fun w => IsDirectory H w primary) ;;
    when directory (batch flags primary secondary output_dir) ;;
    let done_something := directory in
    let dump := FLAGS_md_index flags && call_graph1 in
    when dump (emit DumpMdIndicesCalled) ;;
    let done_something := done_something || dump in
    call_graph2 <- ask (fun w => negb (secondary =? "")
                                 && FileExists H w secondary) ;;
    when call_graph2 (read Secondary secondary) ;;
    invalid <- ask (invalid_inputs done_something primary secondary) ;;
    if invalid then
      finish (Error kFailedPrecondition invalid_inputs_message)
    else
      let both := call_graph1 && call_graph2 in
      when both (diff_files output_dir output_binary output_log) ;;
      let done_something := done_something || both in
      when (negb done_something) (emit HelpPrinted).

(** [error.what()] *)
Definition what_of (e : Exception) : string :=
  match e with
  | bad_alloc => bad_alloc_what H
  | std_exception what => what
  end.

(** The [catch] clauses of the [try] block. *)
Definition catching (r : Run unit) : Run unit :=
  fun m =>
    match r m with
    | (m1, done, Raise e) => (m1, done, Return (Error kUnknown (what_of e)))
    | result => result
    end.

(** [BinDiffMain] after the command line is parsed. *)
Definition BinDiffMain_body (binary_name : string) (flags : Flags)
  (positional : list string) : Run unit :=
  current_path <- ask (GetCurrentDirectory H) ;;
  let output_dir := match FLAGS_output_dir flags with
                    | Some dir => dir
                    | None => current_path
                    end in
  when (negb (FLAGS_nologo flags)) (emit (Did (PrintMessage (banner H)))) ;;
  status <- call_status (ConfigLoaded (FLAGS_config flags))
                        (LoadConfig H (FLAGS_config flags)) ;;
  match status with
  | Error code message => finish (Error code message)
  | OkStatus =>
      if (binary_name =? "bindiff_ui") || FLAGS_ui flags then
        status <- call_status (UiStarted positional)
                              (StartUiWithOptions H positional) ;;
        match status with
        | Error code message => finish (Error code message)
        | OkStatus => finish OkStatus
        end
      else
        configured <- ask (have_matching_steps H) ;;
        if negb configured then
          finish (Error kFailedPrecondition "Config file invalid")
        else
          match parse_output_format (FLAGS_output_format flags) false false
          with
          | (_, _, Error code message) => finish (Error code message)
          | (output_binary, output_log, OkStatus) =>
              match resolve_inputs (FLAGS_primary flags)
                                   (FLAGS_secondary flags) positional with
              | inl status => finish status
              | inr (primary, secondary) =>
                  catching (try_block flags current_path output_dir
                                      primary secondary
                                      output_binary output_log) ;;
                  finish OkStatus
              end
          end
  end.

(** The status [BinDiffMain] returns, [None] at a failed [assert]. *)
Definition BinDiffMain (binary_name : string) (flags : Flags)
  (positional : list string) (m : Machine)
  : Machine * list Action * option Status :=
  match BinDiffMain_body binary_name flags positional m with
  | (m1, done, Return status) => (m1, done, Some status)
  | (m1, done, Next _) => (m1, done, Some OkStatus)
  | (m1, done, Raise e) => (m1, done, Some (Error kUnknown (what_of e)))
  | (m1, done, Trap) => (m1, done, None)
  end.

(** [main]: the exit code. *)
Definition main (binary_name : string) (flags : Flags)
  (positional : list string) (m : Machine)
  : Machine * list Action * option Z :=
  match BinDiffMain binary_name flags positional m with
  | (m1, done, Some OkStatus) => (m1, done, Some EXIT_SUCCESS)
  | (m1, done, Some (Error _ message)) =>
      (m1, (done ++ [Did (PrintErrorMessage ("Error: " ++ message))])%list,
       Some EXIT_FAILURE)
  | (m1, done, None) => (m1, done, None)
  end.

(** The locals when [BinDiffMain] starts. *)
Definition boot (w : World H) : Machine := (w, initial E).

(** What is printed first, by [FLAGS_nologo]. *)
Definition logo (flags : Flags) : list Action :=
  if FLAGS_nologo flags then [] else [Did (PrintMessage (banner H))].

End Program.

Arguments Machine {E} H.
Arguments boot {E} H w.
Arguments logo {E} H flags.
Arguments what_of {E} H e.

(** The calls that set [done_something]. *)
Definition is_job (a : Action) : bool :=
  match a with
  | ListFilesCalled _ | BatchDumpMdIndicesCalled _ | BatchDiffCalled _ _ _
  | DumpMdIndicesCalled | Did DiffCalled => true
  | _ => false
  end.

Definition is_help (a : Action) : bool :=
  match a with
  | HelpPrinted => true
  | _ => false
  end.

(** The command line decides for the UI. *)
Definition ui_mode (binary_name : string) (flags : Flags) : bool :=
  (binary_name =? "bindiff_ui") || FLAGS_ui flags.

End Main.

(** ** The two walks over a directory: [ListFiles], [BatchDumpMdIndices] *)

Module Listing.
Import BatchDiff DifferThread Main.
Local Open Scope list_scope.
Local Open Scope string_scope.

(** What the two functions ask of the file system and of the BinExport2
    parser. *)
Record Folder : Type := {
  files : FileSystem;
  (* the status, and the entries when it is ok *)
  GetDirectoryEntries : string -> Status * list string;
  IsDirectoryPath : string -> bool;                  (* [IsDirectory] *)
  GetFileExtension : string -> string;
  (* [proto.ParseFromIstream]: the executable id and name of a file that
     parses *)
  ParseFromIstream : string -> option (string * string)
}.

(** A regular file whose extension is [extension] in upper case. *)
Definition has_extension (d : Folder) (file_path extension : string) : bool :=
  negb (IsDirectoryPath d file_path)
  && (AsciiStrToUpper (GetFileExtension d file_path) =? extension).

(** The line of [ListFiles] for a file that parses. *)
Definition listing_line (file_path id name : string) : string :=
  file_path ++ ": " ++ id ++ " (" ++ name ++ ")".

(** [ListFiles(path)]: what it prints. *)
Definition ListFiles (d : Folder) (path : string) : list Event :=
  match GetDirectoryEntries d path with
  | (Error _ message, _) =>
      [PrintErrorMessage ("error listing files: " ++ message)]
  | (OkStatus, entries) =>
      flat_map
        (fun entry =>
           let file_path := JoinPath (files d) path entry in
           if IsDirectoryPath d file_path then []
           else if negb (AsciiStrToUpper (GetFileExtension d file_path)
                         =? ".BINEXPORT") then []
           else match ParseFromIstream d file_path with
                | Some (id, name) =>
                    [PrintErrorMessage (listing_line file_path id name)]
                | None => []
                end)
        entries
  end.

(** The loop of [BatchDumpMdIndices]: every file is read into graphs and a
    cache of its own, and an exception of [Read] ends the loop. *)
Fixpoint dump_entries (E : Engine) (d : Folder) (path : string)
  (entries : list string) : list Action * option Exception :=
  match entries with
  | [] => ([], None)
  | entry :: rest =>
      let file_path := JoinPath (files d) path entry in
      if IsDirectoryPath d file_path then dump_entries E d path rest
      else if negb (AsciiStrToUpper (GetFileExtension d file_path)
                    =? ".CALL_GRAPH") then dump_entries E d path rest
      else
        match Read E file_path (no_program E) (empty_cache E) with
        | (_, _, Some e) => ([Did (ReadCalled Primary file_path)], Some e)
        | (_, _, None) =>
            match dump_entries E d path rest with
            | (done, thrown) =>
                (Did (ReadCalled Primary file_path) :: DumpMdIndicesCalled
                 :: done, thrown)
            end
        end
  end.

(** [BatchDumpMdIndices(path)] *)
Definition BatchDumpMdIndices (E : Engine) (d : Folder) (path : string)
  : list Action * option Exception :=
  match GetDirectoryEntries d path with
  | (Error _ message, _) =>
      ([Did (PrintErrorMessage ("error listing files in `" ++ path ++ "`: "
                                ++ message))], None)
  | (OkStatus, entries) => dump_entries E d path entries
  end.

End Listing.

(** ** A small instance, for examples *)

Module Demo.
Import BatchDiff DifferThread.
Local Open Scope list_scope.
Local Open Scope string_scope.

Definition demo_fs : FileSystem :=
  {| GetFullPathName := fun p => p;
     JoinPath := fun a b => a ++ "/" ++ b;
     ReplaceFileExtension := fun f e => f ++ e;
     GetFileSize := fun _ => Some 1%Z |}.

Definition demo_binexports : list string :=
  ["a.BinExport"; "b.BinExport"; "c.BinExport"].

(** A loader that remembers the file it read and fails on names that start
    with [!]; a cache that lists the files read into it. *)
Definition demo_engine : Engine :=
  {| Cache := list string;
     Program := string;
     FixedPoints := unit;
     Scores := unit;
     empty_cache := [];
     no_program := "";
     DeleteFlowGraphs := fun _ => "";
     ResetMatches := fun g => g;
     Read := fun f g c =>
               if prefix "/in/!" f
               then (g, c, Some (std_exception "cannot read"))
               else (f, (f :: c)%list, None);
     Diff := fun g1 g2 => (g1, g2, inr tt);
     GetScores := fun _ _ _ => inr tt;
     GetFilename := fun g => g;
     Write := fun _ _ _ _ => None;
     ResultMessage := fun f1 f2 _ => f1 ++ " vs " ++ f2 |}.

Definition demo_cfg : Config :=
  {| fs := demo_fs;
     kPathSeparator := "/";
     path_ := "/in";
     out_path_ := "/out";
     g_output_binary := true;
     g_output_log := false |}.

(** Three pairs, the second of which cannot be read, and two threads. *)
Definition demo_files : DiffPairList := [("a", "b"); ("!x", "c"); ("a", "c")].

Definition demo_start : Pool.Process demo_engine :=
  Pool.start demo_engine demo_files 2 false 0.

(** Thread 0 takes the first pair, thread 1 the second, which fails, and
    then the third; both return from the empty queue. *)
Definition demo_schedule : list (nat + Pool.Signal) :=
  [inl 0; inl 1; inl 1; inl 0; inl 1; inl 1; inl 0; inl 0; inl 1; inl 1; inl 1].

Definition demo_end : Pool.Process demo_engine :=
  Eval vm_compute in
    match Pool.run demo_engine demo_cfg demo_schedule demo_start with
    | Some q => q
    | None => demo_start
    end.

(** Thread 0 has taken the first pair. *)
Definition demo_first_move : Pool.Process demo_engine :=
  Eval vm_compute in
    match Pool.run_thread demo_engine demo_cfg 0 demo_start with
    | Some q => q
    | None => demo_start
    end.

(** Thread 0 holds the first pair when the first interrupt comes. *)
Definition demo_interrupted : Pool.Process demo_engine :=
  Eval vm_compute in
    match Pool.run demo_engine demo_cfg [inl 0; inr Pool.SIGINT] demo_start with
    | Some q => q
    | None => demo_start
    end.

Definition demo_interrupted_twice : Pool.Process demo_engine :=
  Eval vm_compute in Pool.SignalHandler demo_engine Pool.SIGINT demo_interrupted.

(** One thread started after an interrupt during the export. *)
Definition demo_late_start : Pool.Process demo_engine :=
  Pool.start demo_engine demo_files 1 true 1.

(** The locals after the [try] block on the pair that cannot be read. *)
Definition demo_failed : State demo_engine * list Event * Completion unit :=
  Eval vm_compute in body demo_engine demo_cfg "!x" "c" (initial demo_engine).

(** Locals with two programs loaded. *)
Definition demo_loaded (name1 name2 : string) : State demo_engine :=
  Build_State demo_engine [] name1 name2 "" "".

(** An output directory whose path alone fills the budget of a name. *)
Definition demo_deep_cfg : Config :=
  {| fs := demo_fs;
     kPathSeparator := "/";
     path_ := "/in";
     out_path_ := Str.replicate 250 "o";
     g_output_binary := true;
     g_output_log := false |}.

(** A machine with the directories [/cwd], [/in] and [/out] and three
    files, one of which cannot be read; the batch functions leave the file
    system as it is. *)
Definition demo_host : Main.Host demo_engine :=
  Main.Build_Host demo_engine unit
    (fun _ => "/cwd")
    (fun _ p => (p =? "/cwd") || (p =? "/in") || (p =? "/out"))
    (fun _ p => (p =? "a.BinExport") || (p =? "b.BinExport")
                || (p =? "/in/!x"))
    (fun file w => if file =? "broken.xml"
                   then (w, Main.Error Main.kOther "cannot load")
                   else (w, Main.OkStatus))
    (fun _ => true)
    (fun _ w => (w, Main.OkStatus))
    (fun _ w => (w, None))
    (fun _ w => (w, None))
    (fun _ _ _ w => (w, None))
    "/"
    "BinDiff"
    "std::bad_alloc"
    (fun g1 g2 : string => ["primary: " ++ g1; "secondary: " ++ g2])
    (fun _ _ _ _ => ["matched"])
    "Writing results".

(** The flags of a command line that gives none. *)
Definition demo_flags : Main.Flags :=
  {| Main.FLAGS_nologo := false;
     Main.FLAGS_ui := false;
     Main.FLAGS_primary := "";
     Main.FLAGS_secondary := "";
     Main.FLAGS_output_dir := None;
     Main.FLAGS_output_format := ["bin"];
     Main.FLAGS_md_index := false;
     Main.FLAGS_ls := false;
     Main.FLAGS_config := "" |}.

Definition demo_ui_flags : Main.Flags :=
  {| Main.FLAGS_nologo := true;
     Main.FLAGS_ui := true;
     Main.FLAGS_primary := "";
     Main.FLAGS_secondary := "";
     Main.FLAGS_output_dir := None;
     Main.FLAGS_output_format := ["pdf"];
     Main.FLAGS_md_index := false;
     Main.FLAGS_ls := false;
     Main.FLAGS_config := "" |}.

Definition demo_boot : Main.Machine demo_host := Main.boot demo_host tt.

(** A directory [/in] with a subdirectory, two exported programs and two
    legacy call graphs, the first of which cannot be read; a directory
    [/exported] of exported programs and a directory [/legacy] of call
    graphs. *)
Definition demo_folder : Listing.Folder :=
  {| Listing.files := demo_fs;
     Listing.GetDirectoryEntries :=
       fun path =>
         if path =? "/in"
         then (Main.OkStatus,
               ["sub"; "a.BinExport"; "!x.call_graph"; "b.binexport";
                "y.call_graph"])
         else if path =? "/exported"
         then (Main.OkStatus, ["sub"; "a.BinExport"; "b.binexport"])
         else if path =? "/legacy"
         then (Main.OkStatus, ["sub"; "y.call_graph"])
         else (Main.Error Main.kOther "no such directory", []);
     Listing.IsDirectoryPath :=
       fun p => (p =? "/in/sub") || (p =? "/exported/sub")
                || (p =? "/legacy/sub");
     Listing.GetFileExtension :=
       fun p => if (p =? "/in/sub") || (p =? "/exported/sub")
                   || (p =? "/legacy/sub") then ""
                else if (p =? "/in/a.BinExport")
                        || (p =? "/exported/a.BinExport") then ".BinExport"
                else if (p =? "/in/b.binexport")
                        || (p =? "/exported/b.binexport") then ".binexport"
                else ".call_graph";
     Listing.ParseFromIstream := fun p => Some ("id", p) |}.


(** A run on two files. *)
Definition demo_run
  : Main.Machine demo_host * list Main.Action * option Main.Status :=
  Eval vm_compute in
    Main.BinDiffMain demo_engine demo_host "bindiff" demo_flags
                     ["a.BinExport"; "b.BinExport"] demo_boot.


End Demo.

(** * Properties *)

(** ** Facts on [std::string] operations *)

Module StrFacts.
Import Str.
Local Open Scope string_scope.
Local Open Scope nat_scope.

Lemma length_append (a b : string) :
  String.length (a ++ b) = String.length a + String.length b.
Proof. induction a as [|c a IH]; simpl; [reflexivity | now rewrite IH]. Qed.

Lemma length_substr0 (s : string) (n : nat) :
  String.length (substr0 s n) = Nat.min n (String.length s).
Proof.
  unfold substr0. revert n.
  induction s as [|c s IH]; intros [|n]; simpl; try reflexivity.
  now rewrite IH.
Qed.

Lemma substr0_whole (s : string) (n : nat) :
  String.length s <= n -> substr0 s n = s.
Proof.
  unfold substr0. revert n.
  induction s as [|c s IH]; intros [|n] H; simpl in *; try reflexivity.
  - lia.
  - f_equal. apply IH. lia.
Qed.

Lemma substr0_prefix (s : string) (n : nat) :
  exists rest, s = substr0 s n ++ rest.
Proof.
  unfold substr0. revert n.
  induction s as [|c s IH]; intros [|n]; simpl.
  - now exists "".
  - now exists "".
  - now exists (String c s).
  - destruct (IH n) as [r Hr]. exists r. now rewrite <- Hr.
Qed.

Lemma length_replicate (n : nat) (c : ascii) :
  String.length (replicate n c) = n.
Proof. induction n; simpl; congruence. Qed.

Lemma append_empty_r (s : string) : s ++ "" = s.
Proof. induction s as [| c s IH]; simpl; congruence. Qed.

End StrFacts.

(** ** The output path builder *)

Module FilenameProps.
Import Str StrFacts Filename.
Local Open Scope string_scope.
Local Open Scope nat_scope.

(** What the first stage cuts: [min (longer - shorter) overflow] characters
    of the longer fragment, and nothing of the other one. *)
Lemma shorten_longer_sizes (part1 part2 : string) (overflow : nat) :
  forall one two rest,
    shorten_longer part1 part2 overflow = (one, two, rest) ->
    let longer := Nat.max (String.length part1) (String.length part2) in
    let shorter := Nat.min (String.length part1) (String.length part2) in
    String.length one + String.length two + Nat.min (longer - shorter) overflow
      = String.length part1 + String.length part2
    /\ rest = overflow - (longer - shorter)
    /\ shorter <= String.length one <= String.length part1
    /\ shorter <= String.length two <= String.length part2.
Proof.
  intros one two rest. unfold shorten_longer.
  destruct (String.length part2 <? String.length part1) eqn:H21;
    [apply Nat.ltb_lt in H21 | apply Nat.ltb_ge in H21].
  - intros E. injection E as <- <- <-.
    rewrite length_substr0.
    destruct (overflow <? String.length part1) eqn:Ho;
      [apply Nat.ltb_lt in Ho | apply Nat.ltb_ge in Ho]; cbn zeta; lia.
  - destruct (String.length part1 <? String.length part2) eqn:H12;
      [apply Nat.ltb_lt in H12 | apply Nat.ltb_ge in H12].
    + intros E. injection E as <- <- <-.
      rewrite length_substr0.
      destruct (overflow <? String.length part2) eqn:Ho;
        [apply Nat.ltb_lt in Ho | apply Nat.ltb_ge in Ho]; cbn zeta; lia.
    + intros E. injection E as <- <- <-. cbn zeta. lia.
Qed.

(** No [size_type] subtraction of the first stage wraps around. *)
Lemma shorten_longer_no_wrap (part1 part2 : string) (overflow : nat) :
  forall one two rest,
    shorten_longer part1 part2 overflow = (one, two, rest) ->
    String.length one <= String.length part1 /\
    String.length two <= String.length part2 /\
    (String.length part1 - String.length one)
      + (String.length part2 - String.length two) <= overflow.
Proof.
  intros one two rest E.
  pose proof (shorten_longer_sizes _ _ _ _ _ _ E) as H. cbn zeta in H. lia.
Qed.

(** The fragment that is not the longer one is left as it is, and the other
    working copy is a prefix of its fragment. *)
Lemma shorten_longer_shape (part1 part2 : string) (overflow : nat) :
  forall one two rest,
    shorten_longer part1 part2 overflow = (one, two, rest) ->
    (String.length part1 <= String.length part2 -> one = part1) /\
    (String.length part2 <= String.length part1 -> two = part2) /\
    (exists cut, part1 = one ++ cut) /\ (exists cut, part2 = two ++ cut).
Proof.
  intros one two rest. unfold shorten_longer.
  destruct (String.length part2 <? String.length part1) eqn:H21;
    [apply Nat.ltb_lt in H21 | apply Nat.ltb_ge in H21].
  - intros E. injection E as <- <- <-. repeat split.
    + lia.
    + apply substr0_prefix.
    + exists "". clear. induction part2; simpl; congruence.
  - destruct (String.length part1 <? String.length part2) eqn:H12;
      [apply Nat.ltb_lt in H12 | apply Nat.ltb_ge in H12];
      intros E; injection E as <- <- <-; repeat split;
      try lia; try apply substr0_prefix;
      try (exists ""; clear; match goal with |- ?s = _ => induction s end;
           simpl; congruence).
Qed.

Ltac case_leb :=
  match goal with
  | |- context [?a <=? ?b] =>
      let H := fresh "Hle" in
      destruct (a <=? b) eqn:H; [apply Nat.leb_le in H | apply Nat.leb_gt in H]
  | |- context [?a =? ?b] =>
      let H := fresh "Heq" in
      destruct (a =? b) eqn:H; [apply Nat.eqb_eq in H | apply Nat.eqb_neq in H]
  | |- context [?a <? ?b] =>
      let H := fresh "Hlt" in
      destruct (a <? b) eqn:H; [apply Nat.ltb_lt in H | apply Nat.ltb_ge in H]
  end.

Lemma Returned_inj (a b : string) : Returned a = Returned b -> a = b.
Proof. congruence. Qed.

(** Lengths of what is returned: the three returning paths. *)
Lemma returned_length (path part1 middle part2 extension : string) :
  forall name,
    GetTruncatedFilename path part1 middle part2 extension = Returned name ->
    let total := total_length path part1 middle part2 extension in
    let r := remaining_overflow path part1 middle part2 extension in
    String.length name =
      if total <=? kMaxFilename then total else kMaxFilename + r mod 2.
Proof.
  intros name. unfold GetTruncatedFilename.
  destruct (shorten_longer part1 part2
              (total_length path part1 middle part2 extension - kMaxFilename))
    as [[one two] rest] eqn:E.
  pose proof (shorten_longer_sizes _ _ _ _ _ _ E) as HS. cbn zeta in HS.
  cbn zeta. unfold remaining_overflow, total_length, kMaxFilename in *.
  case_leb.
  - intros Hr; apply Returned_inj in Hr; subst name. repeat rewrite length_append. lia.
  - destruct (rest =? 0) eqn:Heq;
      [apply Nat.eqb_eq in Heq | apply Nat.eqb_neq in Heq].
    + intros Hr; apply Returned_inj in Hr; subst name. repeat rewrite length_append.
      replace ((String.length path + String.length part1 + String.length middle
                + String.length part2 + String.length extension - 250
                - (Nat.max (String.length part1) (String.length part2)
                   - Nat.min (String.length part1) (String.length part2))) mod 2)
        with 0 by (destruct HS as (_ & <- & _); now rewrite Heq).
      lia.
    + destruct (String.length one =? String.length two) eqn:Hsame;
        cbn [negb]; [apply Nat.eqb_eq in Hsame | discriminate].
      case_leb; [discriminate |].
      intros Hr; apply Returned_inj in Hr; subst name. repeat rewrite length_append.
      repeat rewrite length_substr0.
      destruct HS as (HS1 & HS2 & HS3 & HS4). rewrite <- HS2.
      pose proof (Nat.div_mod_eq rest 2). lia.
Qed.

(** When overflow is left after the first stage, both working copies have
    the length of the shorter fragment. *)
Lemma overflow_left_equal_lengths (part1 part2 : string) (overflow : nat) :
  forall one two rest,
    shorten_longer part1 part2 overflow = (one, two, rest) ->
    rest <> 0 ->
    String.length one = Nat.min (String.length part1) (String.length part2) /\
    String.length two = Nat.min (String.length part1) (String.length part2).
Proof.
  intros one two rest E Hrest.
  pose proof (shorten_longer_sizes _ _ _ _ _ _ E) as HS. cbn zeta in HS. lia.
Qed.

(** The three ways out of the second stage, the assertion not among them. *)
Lemma never_AssertionFailed (path part1 middle part2 extension : string) :
  GetTruncatedFilename path part1 middle part2 extension <> AssertionFailed.
Proof.
  unfold GetTruncatedFilename.
  destruct (shorten_longer part1 part2
              (total_length path part1 middle part2 extension - kMaxFilename))
    as [[one two] rest] eqn:E.
  pose proof (overflow_left_equal_lengths _ _ _ _ _ _ E) as HE.
  destruct (_ <=? kMaxFilename); [discriminate |].
  destruct (rest =? 0) eqn:H0; [discriminate | apply Nat.eqb_neq in H0].
  destruct (HE H0) as [Ho Ht]. rewrite Ho, Ht, Nat.eqb_refl. unfold negb.
  destruct (_ <=? rest / 2); discriminate.
Qed.

(** C3.  The path returned for the fragments of 300 characters each of the
    design's own example, with path [/out/], middle [_vs_] and extension
    [.BinDiff], has 251 characters: one more than the 250 the function
    promises.  The equal split removes [overflow / 2] characters from each
    fragment, which leaves one character too many when the overflow is odd
    (here 367). *)
Theorem equal_split_returns_251_characters :
  outcome_length
    (GetTruncatedFilename "/out/" (replicate 300 "A") "_vs_"
                          (replicate 300 "B") ".BinDiff")
  = Some 251.
Proof. vm_compute. reflexivity. Qed.

(** In general a returned name has at most 251 characters, and 251 only out
    of the equal split with an odd overflow left. *)
Lemma returned_length_bound (path part1 middle part2 extension : string) :
  forall name,
    GetTruncatedFilename path part1 middle part2 extension = Returned name ->
    String.length name <= kMaxFilename + 1.
Proof.
  intros name H. rewrite (returned_length _ _ _ _ _ _ H).
  set (r := remaining_overflow path part1 middle part2 extension).
  pose proof (Nat.mod_upper_bound r 2).
  destruct (_ <=? _) eqn:Hle; [apply Nat.leb_le in Hle |]; lia.
Qed.

(** C4.  When the plain concatenation is longer than 250 characters and the
    two fragments differ in length, the first stage cuts something, at the
    end of the longer fragment only: as many characters as the longer
    fragment has more than the shorter one, or as many as the overflow when
    that is less, so that what it keeps is never shorter than the shorter
    fragment; the shorter fragment is the working copy as it is, and the
    overflow goes down by the characters cut.  When the overflow is no more
    than the difference of the two lengths, the first stage consumes it all
    and the function returns the path built from the longer fragment cut by
    the overflow and the whole shorter fragment. *)
Theorem first_stage_cuts_only_the_longer
  (path part1 middle part2 extension : string) :
  kMaxFilename < total_length path part1 middle part2 extension ->
  String.length part1 <> String.length part2 ->
  let overflow := total_length path part1 middle part2 extension
                  - kMaxFilename in
  let cut :=
    Nat.min (Nat.max (String.length part1) (String.length part2)
             - Nat.min (String.length part1) (String.length part2))
            overflow in
  0 < cut /\
  (String.length part2 < String.length part1 ->
     shorten_longer part1 part2 overflow
     = (substr0 part1 (String.length part1 - cut), part2, overflow - cut) /\
     (exists dropped,
        part1 = substr0 part1 (String.length part1 - cut) ++ dropped /\
        String.length dropped = cut) /\
     String.length part2
     <= String.length (substr0 part1 (String.length part1 - cut)) /\
     (overflow <= String.length part1 - String.length part2 ->
      GetTruncatedFilename path part1 middle part2 extension
      = Returned (path ++ substr0 part1 (String.length part1 - overflow)
                  ++ middle ++ part2 ++ extension))) /\
  (String.length part1 < String.length part2 ->
     shorten_longer part1 part2 overflow
     = (part1, substr0 part2 (String.length part2 - cut), overflow - cut) /\
     (exists dropped,
        part2 = substr0 part2 (String.length part2 - cut) ++ dropped /\
        String.length dropped = cut) /\
     String.length part1
     <= String.length (substr0 part2 (String.length part2 - cut)) /\
     (overflow <= String.length part2 - String.length part1 ->
      GetTruncatedFilename path part1 middle part2 extension
      = Returned (path ++ part1 ++ middle
                  ++ substr0 part2 (String.length part2 - overflow)
                  ++ extension))).
Proof.
  intros Hlong Hdiff overflow cut.
  assert (Hover : 0 < overflow) by (subst overflow; lia).
  assert (Hdropped : forall s n,
             n <= String.length s ->
             exists dropped,
               s = substr0 s (String.length s - n) ++ dropped /\
               String.length dropped = n).
  { intros s n Hn.
    destruct (substr0_prefix s (String.length s - n)) as (dropped & Hd).
    exists dropped. split; [exact Hd |].
    apply (f_equal String.length) in Hd.
    rewrite length_append, length_substr0 in Hd. lia. }
  split; [subst cut; lia |].
  split; intros Hlt.
  - assert (Hone : Nat.max (String.length part2)
                     (if overflow <? String.length part1
                      then String.length part1 - overflow else 0)
                   = String.length part1 - cut).
    { subst cut.
      destruct (overflow <? String.length part1) eqn:Ho;
        [apply Nat.ltb_lt in Ho | apply Nat.ltb_ge in Ho]; lia. }
    assert (Hfirst : shorten_longer part1 part2 overflow
                     = (substr0 part1 (String.length part1 - cut), part2,
                        overflow - cut)).
    { unfold shorten_longer.
      replace (String.length part2 <? String.length part1) with true
        by (symmetry; now apply Nat.ltb_lt).
      cbv zeta. rewrite Hone, length_substr0.
      do 2 f_equal. subst cut. lia. }
    split; [exact Hfirst |].
    split; [apply Hdropped; subst cut; lia |].
    split; [rewrite length_substr0; subst cut; lia |].
    intros Hall.
    assert (Hcut : cut = overflow) by (subst cut; lia).
    unfold GetTruncatedFilename. fold overflow. rewrite Hfirst, Hcut.
    replace (total_length path part1 middle part2 extension <=? kMaxFilename)
      with false by (symmetry; apply Nat.leb_gt; exact Hlong).
    now rewrite Nat.sub_diag.
  - assert (Htwo : Nat.max (String.length part1)
                     (if overflow <? String.length part2
                      then String.length part2 - overflow else 0)
                   = String.length part2 - cut).
    { subst cut.
      destruct (overflow <? String.length part2) eqn:Ho;
        [apply Nat.ltb_lt in Ho | apply Nat.ltb_ge in Ho]; lia. }
    assert (Hfirst : shorten_longer part1 part2 overflow
                     = (part1, substr0 part2 (String.length part2 - cut),
                        overflow - cut)).
    { unfold shorten_longer.
      replace (String.length part2 <? String.length part1) with false
        by (symmetry; apply Nat.ltb_ge; lia).
      replace (String.length part1 <? String.length part2) with true
        by (symmetry; now apply Nat.ltb_lt).
      cbv zeta. rewrite Htwo, length_substr0.
      do 2 f_equal. subst cut. lia. }
    split; [exact Hfirst |].
    split; [apply Hdropped; subst cut; lia |].
    split; [rewrite length_substr0; subst cut; lia |].
    intros Hall.
    assert (Hcut : cut = overflow) by (subst cut; lia).
    unfold GetTruncatedFilename. fold overflow. rewrite Hfirst, Hcut.
    replace (total_length path part1 middle part2 extension <=? kMaxFilename)
      with false by (symmetry; apply Nat.leb_gt; exact Hlong).
    now rewrite Nat.sub_diag.
Qed.

Lemma first_stage_cuts_only_the_longer_witness :
  shorten_longer "short" (replicate 300 "B") 72
  = ("short", replicate 228 "B", 0) /\
  GetTruncatedFilename "/out/" "short" "_vs_" (replicate 300 "B") ".BinDiff"
  = Returned ("/out/" ++ "short" ++ "_vs_" ++ replicate 228 "B" ++ ".BinDiff").
Proof.
  assert (Hlong : kMaxFilename
                  < total_length "/out/" "short" "_vs_" (replicate 300 "B")
                                 ".BinDiff") by (vm_compute; lia).
  assert (Hdiff : String.length "short"
                  <> String.length (replicate 300 "B")) by (vm_compute; lia).
  assert (Hlt : String.length "short" < String.length (replicate 300 "B"))
    by (vm_compute; lia).
  destruct (proj2 (proj2 (first_stage_cuts_only_the_longer
                            "/out/" "short" "_vs_" (replicate 300 "B")
                            ".BinDiff" Hlong Hdiff)) Hlt)
    as (Hfirst & _ & _ & Hret).
  split.
  - exact Hfirst.
  - apply Hret. vm_compute. lia.
Defined.

(** C5.  The call throws the naming error exactly when overflow is left
    once the longer fragment is cut to the length of the shorter one and
    half of that overflow is at least the length both fragments then have;
    on every other input it returns a path. *)
Theorem throws_exactly_when_name_too_long
  (path part1 middle part2 extension : string) :
  if name_too_long path part1 middle part2 extension
  then GetTruncatedFilename path part1 middle part2 extension
       = RuntimeError (too_long_message path part1 middle part2 extension)
  else exists name,
       GetTruncatedFilename path part1 middle part2 extension = Returned name.
Proof.
  unfold name_too_long, GetTruncatedFilename.
  destruct (shorten_longer part1 part2
              (total_length path part1 middle part2 extension - kMaxFilename))
    as [[one two] rest] eqn:E.
  pose proof (shorten_longer_sizes _ _ _ _ _ _ E) as HS. cbn zeta in HS.
  pose proof (overflow_left_equal_lengths _ _ _ _ _ _ E) as HE.
  cbn zeta.
  set (r := remaining_overflow path part1 middle part2 extension).
  assert (Hr : total_length path part1 middle part2 extension <= kMaxFilename
               -> r = 0)
    by (unfold r, remaining_overflow; cbn zeta; lia).
  assert (Hrest : rest = r)
    by (unfold r, remaining_overflow; cbn zeta; lia).
  clearbody r. subst rest.
  destruct (_ <=? kMaxFilename) eqn:Hle;
    [apply Nat.leb_le in Hle | apply Nat.leb_gt in Hle].
  - rewrite (Hr Hle). cbn [Nat.ltb Nat.leb andb]. eexists; reflexivity.
  - destruct (r =? 0) eqn:H0;
      [apply Nat.eqb_eq in H0 | apply Nat.eqb_neq in H0].
    + rewrite H0. cbn [Nat.ltb Nat.leb andb]. eexists; reflexivity.
    + destruct (HE H0) as [Ho Ht].
      replace (0 <? r) with true by (symmetry; apply Nat.ltb_lt; lia).
      rewrite Ho, Ht, Nat.eqb_refl. unfold negb, andb.
      destruct (_ <=? r / 2); [reflexivity | eexists; reflexivity].
Qed.

(** C9.  Whenever the second stage is reached (the concatenation exceeds
    250 characters and overflow is left after the first stage) the two
    working copies have the same length, so no call stops at the assertion
    of that stage. *)
Theorem equal_split_assertion_never_fails
  (path part1 middle part2 extension : string) :
  (forall one two rest,
     kMaxFilename < total_length path part1 middle part2 extension ->
     shorten_longer part1 part2
       (total_length path part1 middle part2 extension - kMaxFilename)
       = (one, two, rest) ->
     rest <> 0 ->
     String.length one = String.length two) /\
  GetTruncatedFilename path part1 middle part2 extension <> AssertionFailed.
Proof.
  split.
  - intros one two rest _ E Hrest.
    destruct (overflow_left_equal_lengths _ _ _ _ _ _ E Hrest). congruence.
  - apply never_AssertionFailed.
Qed.

Lemma equal_split_assertion_never_fails_witness :
  String.length (replicate 300 "A") = String.length (replicate 300 "B") /\
  GetTruncatedFilename "/out/" (replicate 300 "A") "_vs_"
                       (replicate 300 "B") ".BinDiff" <> AssertionFailed.
Proof.
  destruct (equal_split_assertion_never_fails
              "/out/" (replicate 300 "A") "_vs_" (replicate 300 "B")
              ".BinDiff") as [Hstage Hcall].
  split; [| exact Hcall].
  apply (Hstage (replicate 300 "A") (replicate 300 "B") 367).
  - vm_compute. lia.
  - vm_compute. reflexivity.
  - discriminate.
Defined.

(** *** The four ways through the function *)

(** The outcome by the case the sizes fall in: the plain concatenation; the
    first stage alone; the error; the equal split, which leaves
    [shorter - r / 2] characters of each fragment. *)
Lemma outcome_cases (path part1 middle part2 extension : string) :
  let total := total_length path part1 middle part2 extension in
  let r := remaining_overflow path part1 middle part2 extension in
  let shorter := Nat.min (String.length part1) (String.length part2) in
  (total <= kMaxFilename /\
   GetTruncatedFilename path part1 middle part2 extension
   = Returned (path ++ part1 ++ middle ++ part2 ++ extension)) \/
  (kMaxFilename < total /\ r = 0 /\
   exists one two,
     shorten_longer part1 part2 (total - kMaxFilename) = (one, two, 0) /\
     GetTruncatedFilename path part1 middle part2 extension
     = Returned (path ++ one ++ middle ++ two ++ extension)) \/
  (kMaxFilename < total /\ 0 < r /\ shorter <= r / 2 /\
   GetTruncatedFilename path part1 middle part2 extension
   = RuntimeError (too_long_message path part1 middle part2 extension)) \/
  (kMaxFilename < total /\ 0 < r /\ r / 2 < shorter /\
   GetTruncatedFilename path part1 middle part2 extension
   = Returned (path ++ substr0 part1 (shorter - r / 2) ++ middle
               ++ substr0 part2 (shorter - r / 2) ++ extension)).
Proof.
  intros total r shorter. unfold GetTruncatedFilename. fold total.
  destruct (shorten_longer part1 part2 (total - kMaxFilename))
    as [[one two] rest] eqn:E.
  pose proof (shorten_longer_sizes _ _ _ _ _ _ E) as HS. cbn zeta in HS.
  pose proof (overflow_left_equal_lengths _ _ _ _ _ _ E) as HE.
  assert (Hrest : rest = r)
    by (unfold r, remaining_overflow; fold total; cbn zeta; lia).
  fold shorter in HE. clearbody r total shorter. subst rest.
  destruct (total <=? kMaxFilename) eqn:Hle;
    [apply Nat.leb_le in Hle | apply Nat.leb_gt in Hle].
  - left. now split.
  - right. destruct (r =? 0) eqn:H0;
      [apply Nat.eqb_eq in H0 | apply Nat.eqb_neq in H0].
    + left. subst r. repeat split; trivial. now exists one, two.
    + right. destruct (HE H0) as [Ho Ht].
      rewrite Ho, Ht, Nat.eqb_refl. unfold negb.
      destruct (shorter <=? r / 2) eqn:Hs;
        [apply Nat.leb_le in Hs | apply Nat.leb_gt in Hs].
      * left. repeat split; trivial. lia.
      * right. repeat split; trivial. lia.
Qed.

Lemma append_inj_l (a b c : string) : a ++ b = a ++ c -> b = c.
Proof. induction a as [| x a IH]; simpl; [trivial | intros [= H]; auto]. Qed.

Lemma substr0_nonempty (s : string) (n : nat) :
  0 < n -> s <> "" -> substr0 s n <> "".
Proof.
  intros Hn Hs E. apply (f_equal String.length) in E.
  rewrite length_substr0 in E. simpl in E.
  destruct s; [contradiction | simpl in E; lia].
Qed.

(** X1.  A returned name is the path, a prefix of the first fragment, the
    middle, a prefix of the second fragment and the extension: the path,
    the middle and the extension are never touched, and the fragments are
    only ever cut at their end. *)
Theorem returned_name_shape (path part1 middle part2 extension name : string) :
  GetTruncatedFilename path part1 middle part2 extension = Returned name ->
  exists keep1 cut1 keep2 cut2,
    name = path ++ keep1 ++ middle ++ keep2 ++ extension /\
    part1 = keep1 ++ cut1 /\ part2 = keep2 ++ cut2 /\
    (total_length path part1 middle part2 extension <= kMaxFilename ->
     cut1 = "" /\ cut2 = "").
Proof.
  intros H.
  destruct (outcome_cases path part1 middle part2 extension)
    as [(Hle & Ho) | [(Hlt & Hr & one & two & E & Ho)
                     | [(Hlt & Hr & _ & Ho) | (Hlt & Hr & _ & Ho)]]];
    rewrite Ho in H; try discriminate; apply Returned_inj in H; subst name.
  - exists part1, "", part2, "". rewrite !append_empty_r. auto.
  - destruct (shorten_longer_shape _ _ _ _ _ _ E)
      as (_ & _ & (cut1 & H1) & (cut2 & H2)).
    exists one, cut1, two, cut2. repeat split; trivial;
      unfold kMaxFilename in *; lia.
  - destruct (substr0_prefix part1
                (Nat.min (String.length part1) (String.length part2)
                 - remaining_overflow path part1 middle part2 extension / 2))
      as (cut1 & H1).
    destruct (substr0_prefix part2
                (Nat.min (String.length part1) (String.length part2)
                 - remaining_overflow path part1 middle part2 extension / 2))
      as (cut2 & H2).
    do 4 eexists. split; [reflexivity |].
    split; [exact H1 |]. split; [exact H2 |].
    unfold kMaxFilename in *; lia.
Qed.

Lemma returned_name_shape_witness :
  exists keep1 cut1 keep2 cut2,
    "/out/" ++ replicate 117 "A" ++ "_vs_" ++ replicate 117 "B" ++ ".BinDiff"
    = "/out/" ++ keep1 ++ "_vs_" ++ keep2 ++ ".BinDiff" /\
    replicate 300 "A" = keep1 ++ cut1 /\ replicate 300 "B" = keep2 ++ cut2.
Proof.
  destruct (returned_name_shape
              "/out/" (replicate 300 "A") "_vs_" (replicate 300 "B") ".BinDiff"
              ("/out/" ++ replicate 117 "A" ++ "_vs_" ++ replicate 117 "B"
               ++ ".BinDiff"))
    as (keep1 & cut1 & keep2 & cut2 & H1 & H2 & H3 & _).
  - vm_compute. reflexivity.
  - now exists keep1, cut1, keep2, cut2.
Defined.

(** X2.  A name returned for a concatenation that was too long uses the
    whole budget: it has 250 characters; except out of the equal split of
    an odd overflow, where it has 251. *)
Theorem truncated_name_fills_the_budget
  (path part1 middle part2 extension name : string) :
  kMaxFilename < total_length path part1 middle part2 extension ->
  GetTruncatedFilename path part1 middle part2 extension = Returned name ->
  String.length name
  = kMaxFilename
    + remaining_overflow path part1 middle part2 extension mod 2.
Proof.
  intros Hlt H. rewrite (returned_length _ _ _ _ _ _ H).
  destruct (_ <=? kMaxFilename) eqn:Hle; [apply Nat.leb_le in Hle; lia |].
  reflexivity.
Qed.

Lemma truncated_name_fills_the_budget_witness :
  String.length
    ("/out/" ++ replicate 228 "A" ++ "_vs_" ++ "short" ++ ".BinDiff") = 250.
Proof.
  refine (truncated_name_fills_the_budget
            "/out/" (replicate 300 "A") "_vs_" "short" ".BinDiff" _ _ _).
  - vm_compute. lia.
  - vm_compute. reflexivity.
Defined.

(** X3.  The call throws exactly when the path, the middle and the
    extension alone take 250 characters or more, and with twice the
    shorter fragment more than 250: then no cut of the fragments that
    leaves a character of each can fit. *)
Theorem throws_when_fixed_parts_fill_the_budget
  (path part1 middle part2 extension : string) :
  let shorter := Nat.min (String.length part1) (String.length part2) in
  (exists what,
     GetTruncatedFilename path part1 middle part2 extension
     = RuntimeError what)
  <-> kMaxFilename <= fixed_length path middle extension /\
      kMaxFilename < fixed_length path middle extension + 2 * shorter.
Proof.
  intros shorter. subst shorter.
  pose proof (outcome_cases path part1 middle part2 extension) as HC.
  cbn zeta in HC.
  unfold remaining_overflow, total_length, fixed_length, kMaxFilename in *.
  match type of HC with
  | context [?x / 2] =>
      pose proof (Nat.div_mod_eq x 2) as Hd;
      assert (Hm : x mod 2 < 2) by (apply Nat.mod_upper_bound; lia)
  end.
  destruct HC as [(Hle & Ho) | [(Hlt & Hr & one & two & E & Ho)
                               | [(Hlt & Hr & Hs & Ho) | (Hlt & Hr & Hs & Ho)]]];
    rewrite Ho; split;
    try (intros [what Hw]; discriminate Hw);
    try (intros [H1 H2]; exfalso; lia).
  - intros _. split; lia.
  - intros _. eexists. reflexivity.
Qed.

Lemma throws_when_fixed_parts_fill_the_budget_witness :
  (exists what,
     GetTruncatedFilename (replicate 250 "d") "a" "_vs_" "b" ".BinDiff"
     = RuntimeError what) /\
  GetTruncatedFilename (replicate 237 "d") "a" "_vs_" "bb" ".BinDiff"
  = Returned (replicate 237 "d" ++ "a" ++ "_vs_" ++ "b" ++ ".BinDiff").
Proof.
  split.
  - apply (proj2 (throws_when_fixed_parts_fill_the_budget
                    (replicate 250 "d") "a" "_vs_" "b" ".BinDiff")).
    vm_compute. split; lia.
  - vm_compute. reflexivity.
Defined.

(** The prefix of a concatenation that has the length of its left part. *)
Lemma substr0_left (s rest : string) :
  substr0 (s ++ rest) (String.length s) = s.
Proof.
  unfold substr0. induction s as [| c s IH]; simpl.
  - now destruct rest.
  - now rewrite IH.
Qed.

(** X4.  When both fragments are non-empty, a returned name keeps at least
    one character of each: it is the path, the first [n1] characters of
    the first fragment, the middle, the first [n2] characters of the
    second fragment and the extension, with [n1] and [n2] at least 1 and
    no more than the fragments have; and when the equal split was needed,
    [n1] and [n2] are the same. *)
Theorem fragments_are_never_cut_to_nothing
  (path part1 middle part2 extension name : string) :
  part1 <> "" -> part2 <> "" ->
  GetTruncatedFilename path part1 middle part2 extension = Returned name ->
  exists n1 n2,
    name = path ++ substr0 part1 n1 ++ middle ++ substr0 part2 n2
           ++ extension /\
    0 < n1 <= String.length part1 /\
    0 < n2 <= String.length part2 /\
    substr0 part1 n1 <> "" /\ substr0 part2 n2 <> "" /\
    (0 < remaining_overflow path part1 middle part2 extension -> n1 = n2).
Proof.
  intros Hn1 Hn2 H.
  assert (L1 : 0 < String.length part1) by (destruct part1; simpl; [easy | lia]).
  assert (L2 : 0 < String.length part2) by (destruct part2; simpl; [easy | lia]).
  destruct (outcome_cases path part1 middle part2 extension)
    as [(Hle & Ho) | [(Hlt & Hr & one & two & E & Ho)
                     | [(Hlt & Hr & _ & Ho) | (Hlt & Hr & Hs & Ho)]]];
    rewrite Ho in H; try discriminate; apply Returned_inj in H; subst name.
  - exists (String.length part1), (String.length part2).
    rewrite !substr0_whole by lia. repeat split; trivial; try lia.
    unfold remaining_overflow, kMaxFilename in *. lia.
  - pose proof (shorten_longer_sizes _ _ _ _ _ _ E) as HS. cbn zeta in HS.
    destruct (shorten_longer_shape _ _ _ _ _ _ E)
      as (_ & _ & (cut1 & H1) & (cut2 & H2)).
    exists (String.length one), (String.length two).
    assert (E1 : substr0 part1 (String.length one) = one)
      by (rewrite H1 at 1; apply substr0_left).
    assert (E2 : substr0 part2 (String.length two) = two)
      by (rewrite H2 at 1; apply substr0_left).
    rewrite E1, E2. repeat split; trivial; try lia;
      intros ->; simpl in HS; lia.
  - eexists _, _. split; [reflexivity |].
    split; [lia |]. split; [lia |].
    split; [apply substr0_nonempty; [lia | assumption] |].
    split; [apply substr0_nonempty; [lia | assumption] |].
    intros _. reflexivity.
Qed.

Lemma fragments_are_never_cut_to_nothing_witness :
  exists n1 n2,
    replicate 249 "d" ++ "A" ++ "" ++ "B" ++ ""
    = replicate 249 "d" ++ substr0 (replicate 40 "A") n1 ++ ""
      ++ substr0 (replicate 30 "B") n2 ++ "" /\
    0 < n1 <= 40 /\ 0 < n2 <= 30.
Proof.
  destruct (fragments_are_never_cut_to_nothing
              (replicate 249 "d") (replicate 40 "A") "" (replicate 30 "B") ""
              (replicate 249 "d" ++ "A" ++ "" ++ "B" ++ ""))
    as (n1 & n2 & H1 & H2 & H3 & _).
  - discriminate.
  - discriminate.
  - vm_compute. reflexivity.
  - exists n1, n2. rewrite !length_replicate in *. auto.
Defined.

End FilenameProps.

(** ** The todo list of [BatchDiff] *)

Module BatchDiffProps.
Import BatchDiff Demo.
Local Open Scope nat_scope.

Section Pairs.
Variable fs : FileSystem.
Variables full_path full_reference_file : string.
Variable binexports : list string.

Let n := List.length binexports.
Let primary := is_primary fs full_path full_reference_file binexports.

(** The inner loop for one [it]: nothing, or [it] with every other
    position. *)
Lemma inner_loop_row (c : bool) (it : nat) (l : list nat) :
  flat_map (fun jt => if it =? jt then []
                      else if c then [(it, jt)] else []) l
  = if c then map (pair it) (filter (fun jt => negb (it =? jt)) l) else [].
Proof.
  induction l as [|jt l IH]; simpl.
  - now destruct c.
  - rewrite IH. destruct (it =? jt), c; reflexivity.
Qed.

Lemma todo_positions_rows :
  todo_positions fs full_path full_reference_file binexports
  = flat_map (fun it => if primary it then map (pair it) (others n it)
                        else [])
             (seq 0 n).
Proof.
  unfold todo_positions. apply flat_map_ext. intros it.
  apply inner_loop_row.
Qed.

Lemma in_todo_positions (i j : nat) :
  In (i, j) (todo_positions fs full_path full_reference_file binexports)
  <-> i < n /\ j < n /\ i <> j /\ primary i = true.
Proof.
  rewrite todo_positions_rows, in_flat_map. split.
  - intros (it & Hit & Hin). apply in_seq in Hit.
    destruct (primary it) eqn:Hp; [| contradiction].
    apply in_map_iff in Hin. destruct Hin as (jt & [= <- <-] & Hjt).
    apply filter_In in Hjt. destruct Hjt as [Hjt Hne].
    apply in_seq in Hjt. apply negb_true_iff, Nat.eqb_neq in Hne.
    repeat split; try lia; assumption.
  - intros (Hi & Hj & Hne & Hp). exists i. split; [apply in_seq; lia |].
    rewrite Hp. apply in_map. apply filter_In. split; [apply in_seq; lia |].
    now apply negb_true_iff, Nat.eqb_neq.
Qed.

Lemma NoDup_rows (row : nat -> list nat) (l : list nat) :
  NoDup l -> (forall i, NoDup (row i)) ->
  NoDup (flat_map (fun i => map (pair i) (row i)) l).
Proof.
  intros Hl Hrow. induction Hl as [|a l Ha Hl IH]; simpl; [constructor |].
  apply NoDup_app. repeat split.
  - apply NoDup_map_NoDup_ForallPairs; [| apply Hrow].
    intros x y _ _ [= ->]. reflexivity.
  - exact IH.
  - intros [i j] Hin1 Hin2.
    apply in_map_iff in Hin1. destruct Hin1 as (j' & [= <- <-] & _).
    apply in_flat_map in Hin2. destruct Hin2 as (i' & Hi' & Hin2).
    apply in_map_iff in Hin2. destruct Hin2 as (j'' & [= -> _] & _).
    contradiction.
Qed.

Lemma NoDup_todo_positions :
  NoDup (todo_positions fs full_path full_reference_file binexports).
Proof.
  rewrite todo_positions_rows.
  rewrite (flat_map_ext _
             (fun it => map (pair it)
                          (if primary it then others n it else []))).
  - apply NoDup_rows; [apply seq_NoDup |].
    intros i. destruct (primary i); [| constructor].
    apply NoDup_filter, seq_NoDup.
  - intros it. now destruct (primary it).
Qed.

Lemma length_others_from (it a m : nat) :
  List.length (filter (fun jt => negb (it =? jt)) (seq a m))
  = m - (if (a <=? it) && (it <? a + m) then 1 else 0).
Proof.
  revert a. induction m as [|m IH]; intros a; simpl.
  - reflexivity.
  - destruct (it =? a) eqn:E;
      [apply Nat.eqb_eq in E | apply Nat.eqb_neq in E]; simpl; rewrite IH.
    + subst a.
      replace (S it <=? it) with false by (symmetry; apply Nat.leb_gt; lia).
      rewrite Nat.leb_refl.
      replace (it <? it + S m) with true by (symmetry; apply Nat.ltb_lt; lia).
      simpl. lia.
    + destruct (a <=? it) eqn:H1; destruct (S a <=? it) eqn:H2;
        destruct (it <? S a + m) eqn:H3; destruct (it <? a + S m) eqn:H4;
        simpl;
        repeat match goal with
               | H : (_ <=? _) = true |- _ => apply Nat.leb_le in H
               | H : (_ <=? _) = false |- _ => apply Nat.leb_gt in H
               | H : (_ <? _) = true |- _ => apply Nat.ltb_lt in H
               | H : (_ <? _) = false |- _ => apply Nat.ltb_ge in H
               end; lia.
Qed.

Lemma length_others (it : nat) : it < n -> List.length (others n it) = n - 1.
Proof.
  intros H. unfold others. rewrite length_others_from. simpl.
  replace (it <? n) with true by (symmetry; apply Nat.ltb_lt; lia).
  reflexivity.
Qed.

(** A loop whose body adds something at one position only. *)
Lemma flat_map_only (B : Type) (F : nat -> list B) (k : nat) (l : list nat) :
  NoDup l -> In k l -> (forall i, In i l -> i <> k -> F i = []) ->
  flat_map F l = F k.
Proof.
  intros Hl. induction Hl as [|a l Ha Hl IH]; intros Hin Hrest; [contradiction |].
  simpl. destruct (Nat.eq_dec a k) as [-> | Hne].
  - assert (flat_map F l = []) as ->.
    { clear IH Hin. induction l as [|b l IHl]; [reflexivity |]. simpl.
      rewrite (Hrest b) by (simpl; auto; intros ->; apply Ha; simpl; auto).
      apply IHl.
      - intros H. apply Ha. now right.
      - now inversion Hl.
      - intros i [-> | Hi] Hik; apply Hrest; simpl; auto. }
    apply app_nil_r.
  - rewrite (Hrest a) by (simpl; auto). simpl. apply IH.
    + destruct Hin; [contradiction | assumption].
    + intros i Hi. apply Hrest. now right.
Qed.

Lemma todo_positions_in_range (p : nat * nat) :
  In p (todo_positions fs full_path full_reference_file binexports) ->
  fst p < n /\ snd p < n /\ fst p <> snd p.
Proof.
  destruct p as [i j]. intros H. apply in_todo_positions in H. simpl. tauto.
Qed.

(** Distinct file names give distinct pairs of names. *)
Lemma NoDup_todo_list :
  NoDup binexports ->
  NoDup (todo_list fs full_path full_reference_file binexports).
Proof.
  intros Hb. unfold todo_list.
  apply NoDup_map_NoDup_ForallPairs; [| apply NoDup_todo_positions].
  intros p q Hp Hq [= H1 H2].
  apply todo_positions_in_range in Hp, Hq.
  pose proof (proj1 (NoDup_nth binexports ""%string) Hb) as Hinj.
  destruct p as [i j], q as [i' j']; simpl in *.
  f_equal; apply Hinj; tauto.
Qed.

End Pairs.

Lemma is_primary_no_reference (fs : FileSystem) (full_path : string)
  (binexports : list string) (it : nat) :
  is_primary fs full_path "" binexports it = true.
Proof. reflexivity. Qed.

(** C7.  The todo list of a batch over the exported programs [binexports]:
    without a reference file it pairs every position with every other
    position, each pair of distinct positions once, which makes N*(N-1)
    jobs, and for distinct file names these are exactly the pairs of two
    different names, none twice; with a reference file that is the program
    at one position [k] it is the N-1 pairs of that program with each other
    one; and for no exported program at all the list is empty and the line
    printed at the end says that 0 pairs were diffed. *)
Theorem batch_todo_list (fs : FileSystem) (full_path reference : string)
  (binexports : list string) :
  let n := List.length binexports in
  let positions := todo_positions fs full_path reference binexports in
  let files := todo_list fs full_path reference binexports in
  (reference = ""%string ->
     NoDup positions /\
     (forall i j, In (i, j) positions <-> i < n /\ j < n /\ i <> j) /\
     List.length files = n * (n - 1) /\
     (NoDup binexports ->
        NoDup files /\
        forall a b, In (a, b) files
                    <-> In a binexports /\ In b binexports /\ a <> b)) /\
  (forall k,
     reference <> ""%string -> k < n ->
     JoinPath fs full_path (nth k binexports ""%string) = reference ->
     (forall i, i < n ->
        JoinPath fs full_path (nth i binexports ""%string) = reference ->
        i = k) ->
     files = map (fun jt => (nth k binexports ""%string,
                             nth jt binexports ""%string)) (others n k) /\
     List.length files = n - 1 /\
     (NoDup binexports -> NoDup files)) /\
  (binexports = [] ->
     files = [] /\
     forall duration,
       pairs_diffed_message files duration
       = ("0 pairs diffed in " ++ duration)%string).
Proof.
  intros n positions files. split; [| split].
  - intros ->.
    assert (Hin : forall i j, In (i, j) positions <-> i < n /\ j < n /\ i <> j).
    { intros i j. unfold positions. rewrite in_todo_positions.
      rewrite is_primary_no_reference. fold n. tauto. }
    split; [apply NoDup_todo_positions |]. split; [exact Hin |]. split.
    + unfold files, todo_list. rewrite length_map, todo_positions_rows.
      fold n.
      rewrite (flat_map_constant_length (c := n - 1)).
      * now rewrite length_seq.
      * intros it Hit. apply in_seq in Hit.
        rewrite is_primary_no_reference, length_map.
        apply length_others. fold n. lia.
    + intros Hb. split; [now apply NoDup_todo_list |].
      pose proof (proj1 (NoDup_nth binexports ""%string) Hb) as Hinj.
      intros a b. unfold files, todo_list. rewrite in_map_iff. split.
      * intros ([i j] & [= <- <-] & Hp). apply Hin in Hp. simpl.
        destruct Hp as (Hi & Hj & Hne). fold n in Hinj.
        repeat split; try (apply nth_In; assumption).
        intros E. apply Hne. now apply Hinj.
      * intros (Ha & Hb' & Hne).
        destruct (In_nth _ _ ""%string Ha) as (i & Hi & <-).
        destruct (In_nth _ _ ""%string Hb') as (j & Hj & <-).
        exists (i, j). split; [reflexivity |]. apply Hin.
        repeat split; try assumption. intros ->. now apply Hne.
  - intros k Href Hk Hmatch Honly.
    assert (Hpos : positions = map (pair k) (others n k)).
    { unfold positions. rewrite todo_positions_rows. fold n.
      rewrite (flat_map_only _ _ k).
      - unfold is_primary. rewrite Hmatch, String.eqb_refl, orb_true_r.
        reflexivity.
      - apply seq_NoDup.
      - apply in_seq. lia.
      - intros i Hi Hne. apply in_seq in Hi.
        unfold is_primary.
        replace (reference =? "")%string with false
          by (symmetry; now apply String.eqb_neq).
        destruct (String.eqb_spec reference
                    (JoinPath fs full_path (nth i binexports ""%string)))
          as [E | E]; [| reflexivity].
        exfalso. apply Hne, Honly; [lia | now symmetry]. }
    split; [| split].
    + unfold files, todo_list. fold positions. rewrite Hpos, map_map.
      reflexivity.
    + unfold files, todo_list. fold positions.
      rewrite Hpos, !length_map. now apply length_others.
    + intros Hb. now apply NoDup_todo_list.
  - intros Hb. unfold files. rewrite Hb. split; reflexivity.
Qed.

Lemma batch_todo_list_witness :
  List.length (BatchDiff_files demo_fs "/d" "" [] demo_binexports) = 6 /\
  BatchDiff_files demo_fs "/d" "/d/b.BinExport" [] demo_binexports
  = [("b.BinExport", "a.BinExport"); ("b.BinExport", "c.BinExport")]%string /\
  pairs_diffed_message (BatchDiff_files demo_fs "/d" "" [] []) "0.01s"
  = "0 pairs diffed in 0.01s"%string.
Proof.
  split; [| split].
  - exact (proj1 (proj2 (proj2
      (proj1 (batch_todo_list demo_fs "/d" "" demo_binexports) eq_refl)))).
  - refine (proj1
      (proj1 (proj2 (batch_todo_list demo_fs "/d" "/d/b.BinExport"
                       demo_binexports)) 1 _ _ eq_refl _)).
    + discriminate.
    + simpl. lia.
    + intros i Hi. simpl in Hi.
      destruct i as [|[|[|i]]]; try lia; simpl; intros E;
        try reflexivity; discriminate E.
  - exact (proj2 (proj2 (proj2 (batch_todo_list demo_fs "/d" "" []))
                   eq_refl) "0.01s"%string).
Defined.

(** *** The export loop *)

Lemma plan_export_from (fs : FileSystem) (full_path : string)
  (idbs : list string) (plan : ExportPlan) :
  let kept := filter (has_content fs full_path) idbs in
  let skipped := filter (fun idb => negb (has_content fs full_path idb)) idbs in
  fold_left
    (fun plan idb =>
       if has_content fs full_path idb
       then {| databases := databases plan ++ [JoinPath fs full_path idb];
               exported :=
                 exported plan
                 ++ [ReplaceFileExtension fs idb kBinExportExtension];
               warnings := warnings plan |}
       else {| databases := databases plan;
               exported := exported plan;
               warnings :=
                 warnings plan ++ [skipping_message fs full_path idb] |})
    idbs plan
  = {| databases := databases plan ++ map (JoinPath fs full_path) kept;
       exported :=
         exported plan
         ++ map (fun idb => ReplaceFileExtension fs idb kBinExportExtension)
                kept;
       warnings :=
         warnings plan ++ map (skipping_message fs full_path) skipped |}.
Proof.
  revert plan. induction idbs as [| idb idbs IH]; intros plan; simpl.
  - rewrite !app_nil_r. now destruct plan.
  - rewrite IH. destruct (has_content fs full_path idb); simpl;
      now rewrite <- ?app_assoc.
Qed.

Lemma add_exported_filter (fs : FileSystem) (full_path : string)
  (idbs binexports : list string) :
  add_exported fs full_path idbs binexports
  = binexports
    ++ map (fun idb => ReplaceFileExtension fs idb kBinExportExtension)
           (filter (has_content fs full_path) idbs).
Proof.
  unfold add_exported. revert binexports.
  induction idbs as [| idb idbs IH]; intros binexports; simpl.
  - now rewrite app_nil_r.
  - rewrite IH. unfold has_content at 2.
    destruct (0 <? _)%Z; simpl; now rewrite <- ?app_assoc.
Qed.

(** X5.  The export loop sorts the databases in two, keeping their order:
    those whose file has a size above zero are handed to the exporter and
    their [.BinExport] names appended after the exported programs already
    found; the others, empty or of unknown size, are only reported.  So no
    database is both exported and reported, and none is lost. *)
Theorem export_plan_sorts_the_databases (fs : FileSystem) (full_path : string)
  (idbs binexports : list string) :
  let plan := plan_export fs full_path idbs binexports in
  let kept := filter (has_content fs full_path) idbs in
  let skipped := filter (fun idb => negb (has_content fs full_path idb)) idbs in
  databases plan = map (JoinPath fs full_path) kept /\
  exported plan
  = binexports
    ++ map (fun idb => ReplaceFileExtension fs idb kBinExportExtension) kept /\
  exported plan = add_exported fs full_path idbs binexports /\
  warnings plan = map (skipping_message fs full_path) skipped /\
  List.length (databases plan) + List.length (warnings plan)
  = List.length idbs.
Proof.
  intros plan kept skipped. unfold plan, plan_export.
  rewrite plan_export_from. simpl. fold kept skipped.
  repeat split; trivial.
  - unfold kept. now rewrite add_exported_filter.
  - rewrite !length_map. unfold kept, skipped.
    clear. induction idbs as [| idb idbs IH]; simpl; trivial.
    destruct (has_content fs full_path idb); simpl; lia.
Qed.

(** *** The size and the order of the todo list *)

Lemma length_todo_list_all (fs : FileSystem) (full_path : string)
  (binexports : list string) :
  List.length (todo_list fs full_path "" binexports)
  = List.length binexports * (List.length binexports - 1).
Proof.
  unfold todo_list. rewrite length_map, todo_positions_rows.
  rewrite (flat_map_constant_length (c := List.length binexports - 1)).
  - now rewrite length_seq.
  - intros it Hit. apply in_seq in Hit.
    rewrite is_primary_no_reference, length_map.
    apply length_others. lia.
Qed.

(** X6.  Without a reference file, [BatchDiff] seeds n * (n - 1) pairs,
    where n counts the exported programs found in the directory and the
    databases that are not empty; an empty database adds no pair. *)
Theorem batch_pairs_count (fs : FileSystem) (path : string)
  (idbs binexports : list string) :
  let n := List.length binexports
           + List.length (filter (has_content fs (GetFullPathName fs path))
                                 idbs) in
  List.length (BatchDiff_files fs path "" idbs binexports) = n * (n - 1).
Proof.
  intros n. unfold BatchDiff_files. cbn zeta.
  change (full_reference fs "") with ""%string.
  rewrite length_todo_list_all, add_exported_filter, length_app, length_map.
  reflexivity.
Qed.

Lemma flat_map_nothing (A B : Type) (F : A -> list B) (l : list A) :
  (forall x, In x l -> F x = []) -> flat_map F l = [].
Proof.
  induction l as [| a l IH]; intros H; simpl; trivial.
  rewrite (H a) by now left. apply IH. intros x Hx. apply H. now right.
Qed.

(** X7.  With a reference file that is none of the programs of the
    directory, the todo list is empty: nothing is diffed, and no error is
    raised for it here. *)
Theorem unmatched_reference_gives_no_pair (fs : FileSystem)
  (full_path reference : string) (binexports : list string) :
  reference <> ""%string ->
  (forall i, i < List.length binexports ->
     JoinPath fs full_path (nth i binexports ""%string) <> reference) ->
  todo_list fs full_path reference binexports = [] /\
  num_diffed (todo_list fs full_path reference binexports) = 0%Z.
Proof.
  intros Href Hno.
  assert (H : todo_list fs full_path reference binexports = []).
  { unfold todo_list. rewrite todo_positions_rows, flat_map_nothing; trivial.
    intros it Hit. apply in_seq in Hit. unfold is_primary.
    replace (reference =? "")%string with false
      by (symmetry; now apply String.eqb_neq).
    destruct (String.eqb_spec reference
                (JoinPath fs full_path (nth it binexports ""%string)))
      as [E | E]; [| reflexivity].
    exfalso. apply (Hno it); [lia | now symmetry]. }
  rewrite H. split; reflexivity.
Qed.

Lemma unmatched_reference_gives_no_pair_witness :
  todo_list demo_fs "/d" "/elsewhere/a.BinExport" demo_binexports = [].
Proof.
  refine (proj1 (unmatched_reference_gives_no_pair
                   demo_fs "/d" "/elsewhere/a.BinExport" demo_binexports _ _)).
  - discriminate.
  - intros i Hi. simpl in Hi.
    destruct i as [| [| [| i]]]; try lia; simpl; discriminate.
Defined.

Lemma StronglySorted_app (A : Type) (R : A -> A -> Prop) (l l' : list A) :
  StronglySorted R l -> StronglySorted R l' ->
  (forall x y, In x l -> In y l' -> R x y) ->
  StronglySorted R (l ++ l').
Proof.
  intros Hl Hl' Hc. induction Hl as [| a l Hl IH Ha]; simpl; trivial.
  constructor.
  - apply IH. intros x y Hx. apply Hc. now right.
  - apply Forall_app. split; [exact Ha |].
    apply Forall_forall. intros y Hy. apply Hc; [now left | exact Hy].
Qed.

Lemma StronglySorted_seq (a n : nat) : StronglySorted lt (seq a n).
Proof.
  revert a. induction n as [| n IH]; intros a; simpl; constructor.
  - apply IH.
  - apply Forall_forall. intros x Hx. apply in_seq in Hx. lia.
Qed.

Lemma StronglySorted_filter (A : Type) (R : A -> A -> Prop) (f : A -> bool)
  (l : list A) :
  StronglySorted R l -> StronglySorted R (filter f l).
Proof.
  induction 1 as [| a l Hl IH Ha]; simpl; [constructor |].
  destruct (f a); [| exact IH]. constructor; [exact IH |].
  rewrite Forall_forall in *. intros x Hx. apply filter_In in Hx.
  now apply Ha.
Qed.

Lemma StronglySorted_row (it : nat) (l : list nat) :
  StronglySorted lt l -> StronglySorted before_in_loops (map (pair it) l).
Proof.
  induction 1 as [| a l Hl IH Ha]; simpl; constructor; trivial.
  rewrite Forall_forall in *. intros p Hp.
  apply in_map_iff in Hp. destruct Hp as (j & <- & Hj).
  right. split; [reflexivity | now apply Ha].
Qed.

(** X8.  Whatever the reference, the pairs are queued in the order of the
    two loops, the primary first: positions only grow along the todo list,
    so all the pairs with one primary are next to each other, which is
    what lets a thread keep the primary it has loaded. *)
Theorem todo_list_is_primary_major (fs : FileSystem)
  (full_path reference : string) (binexports : list string) :
  StronglySorted before_in_loops
    (todo_positions fs full_path reference binexports).
Proof.
  rewrite todo_positions_rows.
  generalize (StronglySorted_seq 0 (List.length binexports)).
  assert (Hrow : forall it,
             StronglySorted before_in_loops
               (if is_primary fs full_path reference binexports it
                then map (pair it) (others (List.length binexports) it)
                else [])).
  { intros it. destruct (is_primary _ _ _ _ it); [| constructor].
    apply StronglySorted_row, StronglySorted_filter, StronglySorted_seq. }
  assert (Hfst : forall it p,
             In p (if is_primary fs full_path reference binexports it
                   then map (pair it) (others (List.length binexports) it)
                   else []) -> fst p = it).
  { intros it p. destruct (is_primary _ _ _ _ it); [| contradiction].
    intros Hp. apply in_map_iff in Hp. now destruct Hp as (j & <- & _). }
  generalize (seq 0 (List.length binexports)) as l.
  induction 1 as [| a l Hl IH Ha]; simpl; [constructor |].
  apply StronglySorted_app; trivial.
  intros p q Hp Hq. apply Hfst in Hp.
  apply in_flat_map in Hq. destruct Hq as (b & Hb & Hq). apply Hfst in Hq.
  left. rewrite Hp, Hq. rewrite Forall_forall in Ha. now apply Ha.
Qed.

End BatchDiffProps.

(** ** One iteration of the loop *)

Module DifferThreadProps.
Import BatchDiff DifferThread.
Local Open Scope string_scope.
Local Open Scope list_scope.

Section Traces.
Variable E : Engine.
Variable cfg : Config.

Lemma emits_ret P A (a : A) : emits P (@ret E A a).
Proof. intros s s' done c [= <- <- <-]. constructor. Qed.

Lemma emits_get P : emits P (@get E).
Proof. intros s s' done c [= <- <- <-]. constructor. Qed.

Lemma emits_modify P f : emits P (@modify E f).
Proof. intros s s' done c [= <- <- <-]. constructor. Qed.

Lemma emits_throw P A e : emits P (@throw E A e).
Proof. intros s s' done c [= <- <- <-]. constructor. Qed.

Lemma emits_abort P A : emits P (fun s : State E => (s, [], @Abort A)).
Proof. intros s s' done c [= <- <- <-]. constructor. Qed.

Lemma emits_rethrow P o : emits P (@rethrow E o).
Proof. destruct o; [apply emits_throw | apply emits_ret]. Qed.

Lemma emits_emit (P : Event -> Prop) e : P e -> emits P (@emit E e).
Proof. intros H s s' done c [= <- <- <-]. now constructor. Qed.

Lemma emits_bind P A B (m : Stmt E A) (k : A -> Stmt E B) :
  emits P m -> (forall a, emits P (k a)) -> emits P (bind m k).
Proof.
  intros Hm Hk s s' done c. unfold bind.
  destruct (m s) as [[s1 done1] [a | e |]] eqn:Em.
  - destruct (k a s1) as [[s2 done2] c2] eqn:Ek. intros [= <- <- <-].
    apply Forall_app. split; [eapply Hm | eapply Hk]; eassumption.
  - intros [= <- <- <-]. eapply Hm; eassumption.
  - intros [= <- <- <-]. eapply Hm; eassumption.
Qed.

Lemma emits_when P b m : emits P m -> emits P (@when E b m).
Proof. destruct b; [trivial | intros _; apply emits_ret]. Qed.

(** A statement that ends normally, followed by another one. *)
Lemma bind_normal A B (m : Stmt E A) (k : A -> Stmt E B) s s1 done1 a :
  m s = (s1, done1, Normal a) ->
  bind m k s =
    match k a s1 with (s2, done2, c) => (s2, done1 ++ done2, c) end.
Proof. intros H. unfold bind. now rewrite H. Qed.

(** A sequence that ends normally: so did each half. *)
Lemma bind_normal_inv A B (m : Stmt E A) (k : A -> Stmt E B) s s2 done b :
  bind m k s = (s2, done, Normal b) ->
  exists s1 done1 a done2,
    m s = (s1, done1, Normal a) /\ k a s1 = (s2, done2, Normal b) /\
    done = done1 ++ done2.
Proof.
  unfold bind. destruct (m s) as [[s1 done1] [a | e |]]; try discriminate.
  destruct (k a s1) as [[s2' done2] c2] eqn:Ek. intros [= <- <- ->].
  now exists s1, done1, a, done2.
Qed.

End Traces.

Ltac emits_step :=
  match goal with
  | |- emits _ (bind _ _) => apply emits_bind; [| intros ?]
  | |- emits _ (ret _) => apply emits_ret
  | |- emits _ get => apply emits_get
  | |- emits _ (modify _) => apply emits_modify
  | |- emits _ (throw _) => apply emits_throw
  | |- emits _ (rethrow _) => apply emits_rethrow
  | |- emits _ (when _ _) => apply emits_when
  | |- emits _ (emit _) => apply emits_emit
  | |- emits _ (fun s => (s, [], Abort)) => apply emits_abort
  | |- emits _ (match ?x with _ => _ end) => destruct x
  end.

Section Body.
Variable E : Engine.
Variable cfg : Config.

Lemma diff_and_write_events (P : Event -> Prop) file1 file2 :
  (forall m, P (PrintMessage m)) -> P DiffCalled ->
  (forall w, P (WriteCalled w)) ->
  emits P
    (bind (emit (PrintMessage ("Diffing " ++ file1 ++ " vs " ++ file2)))
       (fun _ =>
          bind (diff E)
            (fun fixed_points =>
               bind (scores E fixed_points)
                 (fun sc =>
                    bind (emit (PrintMessage "Writing results"))
                      (fun _ =>
                         bind (write_results E cfg fixed_points)
                           (fun _ =>
                              bind (emit (PrintMessage
                                            (ResultMessage E file1 file2 sc)))
                                (fun _ =>
                                   modify (set_last_files E file1 file2)))))))).
Proof.
  intros Hp Hd Hw.
  unfold diff, scores, write_results, output_name.
  repeat (emits_step; auto).
Qed.





(** The side whose file is another one is read anew. *)
Lemma prepare_other side file s :
  last_file E side s <> file ->
  prepare E cfg side file s = load E cfg side file s /\
  exists s1 c rest,
    load E cfg side file s
    = (s1, PrintMessage ("Reading " ++ file) :: FlowGraphsDeleted side
           :: ReadCalled side (JoinPath (fs cfg) (path_ cfg) file) :: rest,
       c) /\ rest = [].
Proof.
  intros H. split.
  - unfold prepare, bind, get.
    replace (last_file E side s =? file) with false
      by (symmetry; now apply String.eqb_neq).
    simpl. now destruct (load E cfg side file s) as [[? ?] ?].
  - unfold load, bind, emit, modify, get, rethrow, ret, throw. simpl.
    destruct (Read E _ _ _) as [[g c] [e |]]; simpl; eauto.
Qed.




(** An iteration that reaches the end of its [try] block has recorded its
    two files. *)
Lemma body_normal_last_files file1 file2 s s1 done :
  body E cfg file1 file2 s = (s1, done, Normal tt) ->
  last_file1 E s1 = file1 /\ last_file2 E s1 = file2.
Proof.
  intros H. unfold body, setup_and_diff in H.
  repeat (apply bind_normal_inv in H;
          destruct H as (? & ? & ? & ? & _ & H & _); cbv beta in H).
  unfold modify in H. injection H as <- _. split; reflexivity.
Qed.


(** With both sides changed the cache is emptied first, and the rest runs
    on the empty cache. *)
Lemma body_clears_cache file1 file2 s :
  last_file1 E s <> file1 -> last_file2 E s <> file2 ->
  body E cfg file1 file2 s
  = match setup_and_diff E cfg file1 file2
            (set_cache E (empty_cache E) s) with
    | (s2, rest, c) => (s2, CacheCleared :: rest, c)
    end.
Proof.
  intros H1 H2. unfold body.
  rewrite (bind_normal _ _ _ _ _ s s [] s eq_refl).
  assert ((negb (last_file1 E s =? file1) && negb (last_file2 E s =? file2))
          = true) as ->.
  { apply String.eqb_neq in H1, H2. now rewrite H1, H2. }
  rewrite (bind_normal _ _ _ _ _ s (set_cache E (empty_cache E) s)
             [CacheCleared] tt eq_refl).
  now destruct (setup_and_diff E cfg file1 file2 _) as [[? ?] ?].
Qed.

End Body.

Section Completion.
Variable E : Engine.
Variable cfg : Config.

Lemma no_abort_bind A B (m : Stmt E A) (k : A -> Stmt E B) :
  no_abort m -> (forall a, no_abort (k a)) -> no_abort (bind m k).
Proof.
  intros Hm Hk s s' done. unfold bind.
  destruct (m s) as [[s1 done1] [a | e |]] eqn:Em.
  - destruct (k a s1) as [[s2 done2] c2] eqn:Ek. intros [= -> <- ->].
    now apply (Hk a s1 s' done2).
  - discriminate.
  - now apply Hm in Em.
Qed.

Lemma no_abort_simple A (m : Stmt E A) :
  (forall s, exists s' done c, m s = (s', done, c) /\ c <> Abort) ->
  no_abort m.
Proof.
  intros H s s' done Hm. destruct (H s) as (s1 & d1 & c & Hs & Hc).
  rewrite Hs in Hm. injection Hm as _ _ ->. now apply Hc.
Qed.

Lemma no_abort_output_name extension : no_abort (output_name E cfg extension).
Proof.
  unfold output_name. apply no_abort_bind.
  - apply no_abort_simple. intros s. now exists s, [], (Normal s).
  - intros s.
    pose proof (FilenameProps.never_AssertionFailed
                  (out_path_ cfg ++ kPathSeparator cfg)
                  (GetFilename E (graphs1 E s)) "_vs_"
                  (GetFilename E (graphs2 E s)) extension) as Hn.
    destruct (Filename.GetTruncatedFilename _ _ _ _ _);
      [| | contradiction]; apply no_abort_simple; intros s0.
    + now exists s0, [], (Normal name).
    + now exists s0, [], (Throw (std_exception what)).
Qed.

End Completion.

Ltac no_abort_step :=
  match goal with
  | |- no_abort (bind _ _) => apply no_abort_bind; [| intros ?]
  | |- no_abort (output_name _ _ _) => apply no_abort_output_name
  | |- no_abort (rethrow ?o) => unfold rethrow; destruct o
  | |- no_abort (match ?x with _ => _ end) => destruct x
  | |- no_abort _ =>
      apply no_abort_simple; intros ?;
      unfold ret, get, modify, emit, throw, rethrow, when;
      do 3 eexists; split; [reflexivity | discriminate]
  end.

Section Iteration.
Variable E : Engine.
Variable cfg : Config.

Lemma body_no_abort file1 file2 : no_abort (body E cfg file1 file2).
Proof.
  unfold body, setup_and_diff, clear_cache, prepare, load, reset, diff,
    scores, write_results, when.
  repeat no_abort_step.
Qed.

(** The [try] block with its [catch] clauses, by the way the block ends. *)
Lemma iteration_cases file1 file2 s :
  (exists s1 done,
     body E cfg file1 file2 s = (s1, done, Normal tt) /\
     iteration E cfg file1 file2 s = (s1, done, Normal tt)) \/
  (exists s1 done e,
     body E cfg file1 file2 s = (s1, done, Throw e) /\
     iteration E cfg file1 file2 s
     = (set_last_files E "" "" s1,
        done ++ [PrintErrorMessage (error_message e file1 file2)],
        Normal tt)).
Proof.
  unfold iteration.
  destruct (body E cfg file1 file2 s) as [[s1 done] [[] | [| what] |]] eqn:Hb.
  - left. now exists s1, done.
  - right. now exists s1, done, bad_alloc.
  - right. now exists s1, done, (std_exception what).
  - now apply body_no_abort in Hb.
Qed.

Lemma iteration_normal file1 file2 s :
  exists s1 done, iteration E cfg file1 file2 s = (s1, done, Normal tt).
Proof.
  destruct (iteration_cases file1 file2 s)
    as [(s1 & done & _ & H) | (s1 & done & e & _ & H)]; rewrite H; eauto.
Qed.

End Iteration.

Section Reload.
Variable E : Engine.
Variable cfg : Config.

Lemma bind_not_normal A B (m : Stmt E A) (k : A -> Stmt E B) s s1 done1 c :
  m s = (s1, done1, c) -> (forall a, c <> Normal a) ->
  exists c', bind m k s = (s1, done1, c') /\ forall b, c' <> Normal b.
Proof.
  intros H Hc. unfold bind. rewrite H. destruct c as [a | e |].
  - now destruct (Hc a).
  - exists (Throw e). split; [reflexivity | discriminate].
  - exists Abort. split; [reflexivity | discriminate].
Qed.

(** What [load] does before it ends, one way or the other. *)
Lemma load_run side file s :
  exists s1 c,
    load E cfg side file s
    = (s1, [PrintMessage ("Reading " ++ file); FlowGraphsDeleted side;
            ReadCalled side (JoinPath (fs cfg) (path_ cfg) file)], c) /\
    last_file1 E s1 = last_file1 E s /\ last_file2 E s1 = last_file2 E s.
Proof.
  unfold load, bind, emit, modify, get, rethrow, ret, throw. simpl.
  destruct (Read E _ _ _) as [[g c] [e |]]; simpl;
    do 2 eexists; (split; [reflexivity |]); destruct side; simpl; auto.
Qed.

(** [setup_and_diff], by the way its two calls of [prepare] end. *)
Lemma setup_and_diff_split file1 file2 s :
  setup_and_diff E cfg file1 file2 s
  = match prepare E cfg Primary file1 s with
    | (s1, done1, Normal _) =>
        match prepare E cfg Secondary file2 s1 with
        | (s2, done2, Normal _) =>
            match diff_and_write E cfg file1 file2 s2 with
            | (s3, rest, c) => (s3, done1 ++ done2 ++ rest, c)
            end
        | (s2, done2, Throw e) => (s2, done1 ++ done2, Throw e)
        | (s2, done2, Abort) => (s2, done1 ++ done2, Abort)
        end
    | (s1, done1, Throw e) => (s1, done1, Throw e)
    | (s1, done1, Abort) => (s1, done1, Abort)
    end.
Proof.
  change (setup_and_diff E cfg file1 file2)
    with (bind (prepare E cfg Primary file1)
            (fun _ => bind (prepare E cfg Secondary file2)
                        (fun _ => diff_and_write E cfg file1 file2))).
  unfold bind.
  destruct (prepare E cfg Primary file1 s) as [[s1 done1] [[] | e |]];
    trivial.
  destruct (prepare E cfg Secondary file2 s1) as [[s2 done2] [[] | e |]];
    trivial.
  now destruct (diff_and_write E cfg file1 file2 s2) as [[s3 rest] c].
Qed.

(** [load]: the graphs of the side are deleted and handed to [Read] with
    the cache; what [Read] returns becomes the graphs of the side and the
    cache, whether it throws or not. *)
Lemma load_result side file s :
  load E cfg side file s
  = match Read E (JoinPath (fs cfg) (path_ cfg) file)
               (DeleteFlowGraphs E (graphs E side s))
               (instruction_cache E s) with
    | (g, c, thrown) =>
        (set_graphs E side g (set_cache E c s), reading cfg side file,
         match thrown with
         | None => Normal tt
         | Some e => Throw e
         end)
    end.
Proof.
  unfold load, bind, emit, modify, get, rethrow, ret, throw, reading.
  destruct side; cbn;
    destruct (Read E _ _ _) as [[g c] [e |]]; reflexivity.
Qed.


(** With neither file the one of the last iteration, the cache is cleared,
    the primary side is read anew, then (unless that read throws) the
    secondary side, and no matches are reset. *)
Lemma full_reload file1 file2 s :
  last_file1 E s <> file1 -> last_file2 E s <> file2 ->
  exists s2 rest c,
    body E cfg file1 file2 s
    = (s2, CacheCleared :: reading cfg Primary file1 ++ rest, c) /\
    Forall not_reset rest /\
    ((exists a, c = Normal a) ->
     exists rest', rest = reading cfg Secondary file2 ++ rest').
Proof.
  intros H1 H2. rewrite body_clears_cache by assumption.
  set (s0 := set_cache E (empty_cache E) s).
  unfold setup_and_diff.
  destruct (prepare_other E cfg Primary file1 s0 H1) as [Hp1 _].
  destruct (load_run Primary file1 s0) as (s1 & c1 & Hl1 & L1 & L2).
  rewrite <- Hp1 in Hl1. fold (reading cfg Primary file1) in Hl1.
  assert (Hstop1 : (forall a, c1 <> Normal a) ->
            forall B (k : unit -> Stmt E B),
            exists c', bind (prepare E cfg Primary file1) k s0
                       = (s1, reading cfg Primary file1, c') /\
                       forall b, c' <> Normal b)
    by (intros Hc B k; now apply bind_not_normal with (c := c1)).
  destruct c1 as [[] | e1 |].
  - rewrite (bind_normal _ _ _ _ _ _ _ _ _ Hl1).
    assert (H2' : last_file E Secondary s1 <> file2)
      by (simpl; rewrite L2; exact H2).
    destruct (prepare_other E cfg Secondary file2 s1 H2') as [Hp2 _].
    destruct (load_run Secondary file2 s1) as (s2 & c2 & Hl2 & _ & _).
    rewrite <- Hp2 in Hl2. fold (reading cfg Secondary file2) in Hl2.
    assert (Hstop2 : (forall a, c2 <> Normal a) ->
              forall B (k : unit -> Stmt E B),
              exists c', bind (prepare E cfg Secondary file2) k s1
                         = (s2, reading cfg Secondary file2, c') /\
                         forall b, c' <> Normal b)
      by (intros Hc B k; now apply bind_not_normal with (c := c2)).
    assert (Hsec : Forall not_reset (reading cfg Secondary file2))
      by (repeat constructor; intros side; discriminate).
    destruct c2 as [[] | e2 |].
    + rewrite (bind_normal _ _ _ _ _ _ _ _ _ Hl2).
      match goal with
      | |- context [match ?k ?x with _ => _ end] =>
          destruct (k x) as [[s3 rest3] c3] eqn:Hk
      end.
      exists s3, (reading cfg Secondary file2 ++ rest3), c3.
      split; [reflexivity |]. split; [| intros _; now exists rest3].
      apply Forall_app. split; [exact Hsec |].
      refine (diff_and_write_events E cfg not_reset file1 file2
                _ _ _ _ _ _ _ Hk); unfold not_reset; intros; discriminate.
    + edestruct Hstop2 as (c' & -> & Hc'); [discriminate |].
      exists s2, (reading cfg Secondary file2), c'.
      split; [reflexivity |]. split; [exact Hsec |].
      intros [a ->]. now destruct (Hc' a).
    + edestruct Hstop2 as (c' & -> & Hc'); [discriminate |].
      exists s2, (reading cfg Secondary file2), c'.
      split; [reflexivity |]. split; [exact Hsec |].
      intros [a ->]. now destruct (Hc' a).
  - edestruct Hstop1 as (c' & -> & Hc'); [discriminate |].
    exists s1, [], c'. rewrite app_nil_r.
    split; [reflexivity |]. split; [constructor |].
    intros [a ->]. now destruct (Hc' a).
  - edestruct Hstop1 as (c' & -> & Hc'); [discriminate |].
    exists s1, [], c'. rewrite app_nil_r.
    split; [reflexivity |]. split; [constructor |].
    intros [a ->]. now destruct (Hc' a).
Qed.

(** The same, with the locals: after a full reload they hold what the two
    calls of [Read] returned, the first given the empty cache and the
    second the cache the first one filled. *)
Lemma full_reload_result file1 file2 s :
  last_file1 E s <> file1 -> last_file2 E s <> file2 ->
  body E cfg file1 file2 s
  = match Read E (JoinPath (fs cfg) (path_ cfg) file1)
               (DeleteFlowGraphs E (graphs1 E s)) (empty_cache E) with
    | (g1, c1, Some e) =>
        (Build_State E c1 g1 (graphs2 E s) (last_file1 E s) (last_file2 E s),
         CacheCleared :: reading cfg Primary file1, Throw e)
    | (g1, c1, None) =>
        match Read E (JoinPath (fs cfg) (path_ cfg) file2)
                   (DeleteFlowGraphs E (graphs2 E s)) c1 with
        | (g2, c2, Some e) =>
            (Build_State E c2 g1 g2 (last_file1 E s) (last_file2 E s),
             CacheCleared
             :: reading cfg Primary file1 ++ reading cfg Secondary file2,
             Throw e)
        | (g2, c2, None) =>
            match diff_and_write E cfg file1 file2
                    (Build_State E c2 g1 g2 (last_file1 E s) (last_file2 E s))
            with
            | (s3, rest, c) =>
                (s3,
                 CacheCleared
                 :: reading cfg Primary file1 ++ reading cfg Secondary file2
                    ++ rest,
                 c)
            end
        end
    end.
Proof.
  intros H1 H2. rewrite body_clears_cache by assumption.
  set (s0 := set_cache E (empty_cache E) s).
  rewrite setup_and_diff_split.
  destruct (prepare_other E cfg Primary file1 s0 H1) as [-> _].
  rewrite load_result. subst s0.
  cbn [graphs graphs1 graphs2 instruction_cache set_cache].
  destruct (Read E (JoinPath (fs cfg) (path_ cfg) file1) _ _)
    as [[g1 c1] [e1 |]]; [reflexivity |].
  match goal with
  | |- context [prepare E cfg Secondary file2 ?s1] =>
      destruct (prepare_other E cfg Secondary file2 s1 H2) as [-> _]
  end.
  rewrite load_result.
  cbn [graphs graphs1 graphs2 instruction_cache set_cache set_graphs].
  destruct (Read E (JoinPath (fs cfg) (path_ cfg) file2) _ _)
    as [[g2 c2] [e2 |]]; [reflexivity |].
  cbn [set_graphs set_cache graphs1 graphs2 instruction_cache last_file1
       last_file2].
  now destruct (diff_and_write E cfg file1 file2 _) as [[s3 rest] c].
Qed.

End Reload.


(** An iteration leaves both remembered names as it found the pair, or both
    empty. *)
Lemma iteration_last_files (E : Engine) (cfg : Config) file1 file2 s s' done c :
  iteration E cfg file1 file2 s = (s', done, c) ->
  (last_file1 E s' = file1 /\ last_file2 E s' = file2) \/
  (last_file1 E s' = ""%string /\ last_file2 E s' = ""%string).
Proof.
  intros H.
  destruct (iteration_cases E cfg file1 file2 s)
    as [(s1 & d1 & Hb & Hi) | (s1 & d1 & e & Hb & Hi)];
    rewrite Hi in H; injection H as <- _ _.
  - left. eapply body_normal_last_files; eassumption.
  - right. split; reflexivity.
Qed.


(** *** The chain of writers *)

(** The block that fills the chain and writes, by the two names. *)
Lemma write_results_cases (E : Engine) (cfg : Config)
  (fixed_points : FixedPoints E) (s : State E) :
  (exists names,
     List.length names = List.length (chain_kinds cfg) /\
     Forall2 (fun kind name => name_for cfg s kind = Filename.Returned name)
             (chain_kinds cfg) names /\
     write_results E cfg fixed_points s
     = (s, [WriteCalled (combine (chain_kinds cfg) names)],
        match Write E (combine (chain_kinds cfg) names)
                    (graphs1 E s) (graphs2 E s) fixed_points with
        | Some e => Throw e
        | None => Normal tt
        end)) \/
  (exists kind what,
     In kind (chain_kinds cfg) /\
     name_for cfg s kind = Filename.RuntimeError what /\
     write_results E cfg fixed_points s = (s, [], Throw (std_exception what))).
Proof.
  pose proof (FilenameProps.never_AssertionFailed
                (out_path_ cfg ++ kPathSeparator cfg)
                (GetFilename E (graphs1 E s)) "_vs_"
                (GetFilename E (graphs2 E s)) ".results") as Hlog.
  pose proof (FilenameProps.never_AssertionFailed
                (out_path_ cfg ++ kPathSeparator cfg)
                (GetFilename E (graphs1 E s)) "_vs_"
                (GetFilename E (graphs2 E s)) ".BinDiff") as Hbin.
  unfold write_results, output_name, chain_kinds, name_for, bind, get, ret,
    emit, throw, rethrow.
  destruct (g_output_log cfg), (g_output_binary cfg); simpl;
    repeat match goal with
      | |- context [Filename.GetTruncatedFilename ?a ?b ?c ?d ?e] =>
          destruct (Filename.GetTruncatedFilename a b c d e) eqn:?;
            try contradiction; simpl
      end;
    try (left; eexists [_; _]; split; [reflexivity |];
         split; [repeat constructor; eassumption |];
         simpl; now destruct (Write E _ _ _ _));
    try (left; eexists [_]; split; [reflexivity |];
         split; [repeat constructor; eassumption |];
         simpl; now destruct (Write E _ _ _ _));
    try (right; exists ResultsLogWriter; eexists;
         split; [simpl; tauto |]; split; [eassumption | reflexivity]);
    try (right; exists DatabaseWriter; eexists;
         split; [simpl; tauto |]; split; [eassumption | reflexivity]).
Qed.

(** X9.  Whenever the results are written, the chain of writers is the one
    the two flags ask for and is never empty: without either flag it holds
    the database writer alone; and every writer has the name
    [GetTruncatedFilename] returned for its extension, so a name of 251
    characters at most. *)
Theorem written_chain_follows_the_flags (E : Engine) (cfg : Config)
  (fixed_points : FixedPoints E) (s s' : State E) (done : list Event)
  (c : Completion unit) (writers : list (WriterKind * string)) :
  write_results E cfg fixed_points s = (s', done, c) ->
  In (WriteCalled writers) done ->
  map fst writers = chain_kinds cfg /\
  writers <> [] /\
  (g_output_log cfg = false -> map fst writers = [DatabaseWriter]) /\
  Forall (fun w => name_for cfg s (fst w) = Filename.Returned (snd w) /\
                   String.length (snd w) <= Filename.kMaxFilename + 1)
         writers.
Proof.
  intros H Hin.
  destruct (write_results_cases E cfg fixed_points s)
    as [(names & Hlen & Hnames & Hw) | (kind & what & _ & _ & Hw)];
    rewrite Hw in H; injection H as <- <- <-; [| contradiction].
  destruct Hin as [[= <-] | []].
  assert (Hk : map fst (combine (chain_kinds cfg) names) = chain_kinds cfg).
  { clear Hw. revert Hlen. generalize (chain_kinds cfg) as ks.
    clear. intros ks. revert names.
    induction ks as [| k ks IH]; intros [| n names]; simpl; try easy.
    intros [= H]. now rewrite IH. }
  split; [exact Hk |]. split; [| split].
  - intros E0. rewrite E0 in Hk. simpl in Hk. unfold chain_kinds in Hk.
    destruct (g_output_log cfg), (g_output_binary cfg); discriminate.
  - intros Hlog. rewrite Hk. unfold chain_kinds. rewrite Hlog.
    now destruct (g_output_binary cfg).
  - clear Hw Hk Hlen. induction Hnames as [| k n ks ns Hn _ IH]; simpl;
      constructor; trivial.
    simpl. split; [exact Hn |].
    eapply FilenameProps.returned_length_bound. exact Hn.
Qed.

Lemma written_chain_follows_the_flags_witness :
  map fst [(DatabaseWriter, "/out/a_vs_b.BinDiff"%string)] = [DatabaseWriter].
Proof.
  refine (proj1 (proj2 (proj2
    (written_chain_follows_the_flags
       Demo.demo_engine Demo.demo_cfg tt (Demo.demo_loaded "a" "b")
       _ _ _ [(DatabaseWriter, "/out/a_vs_b.BinDiff"%string)] eq_refl _))) _).
  - now left.
  - reflexivity.
Defined.

(** X10.  When the name of one of the writers cannot be built, nothing is
    written by any writer: the block throws the naming error before the
    chain is used, and the locals stay as they were. *)
Theorem no_write_without_all_names (E : Engine) (cfg : Config)
  (fixed_points : FixedPoints E) (s : State E) (kind : WriterKind)
  (what : string) :
  In kind (chain_kinds cfg) ->
  name_for cfg s kind = Filename.RuntimeError what ->
  exists what',
    write_results E cfg fixed_points s = (s, [], Throw (std_exception what')).
Proof.
  intros Hin Hname.
  destruct (write_results_cases E cfg fixed_points s)
    as [(names & Hlen & Hnames & _) | (kind' & what' & _ & _ & Hw)];
    [| now exists what'].
  exfalso. clear Hlen. revert Hin.
  induction Hnames as [| k n ks ns Hn _ IH]; simpl; [easy |].
  intros [-> | Hin]; [congruence | auto].
Qed.

Lemma no_write_without_all_names_witness :
  exists what',
    write_results Demo.demo_engine Demo.demo_deep_cfg tt
                  (Demo.demo_loaded "a" "b")
    = (Demo.demo_loaded "a" "b", [], Throw (std_exception what')).
Proof.
  refine (no_write_without_all_names
            Demo.demo_engine Demo.demo_deep_cfg tt (Demo.demo_loaded "a" "b")
            DatabaseWriter _ _ _).
  - simpl. now left.
  - vm_compute. reflexivity.
Defined.

End DifferThreadProps.

(** ** The threads, the queue and the signal handler *)

Module PoolProps.
Import BatchDiff DifferThread Pool DifferThreadProps.
Local Open Scope list_scope.

Section Moves.
Variable E : Engine.
Variable cfg : Config.

Lemma thread_action_move i t queue quit eff :
  thread_action E cfg i t queue quit = Some eff -> move E cfg i t queue quit eff.
Proof.
  unfold thread_action.
  destruct (location E t) as [| file1 file2 | |] eqn:Hl.
  - destruct queue as [| [file1 file2] rest]; intros [= <-].
    + now apply move_break.
    + now apply move_pop.
  - destruct (iteration_normal E cfg file1 file2 (locals E t))
      as (s & done & Hi).
    rewrite Hi. intros [= <-]. now apply move_work.
  - destruct quit; intros [= <-]; [now apply move_leave | now apply move_again].
  - discriminate.
Qed.

Lemma move_thread_action i t queue quit eff :
  move E cfg i t queue quit eff -> thread_action E cfg i t queue quit = Some eff.
Proof.
  intros H. unfold thread_action.
  destruct H as [f1 f2 rest Hl -> | Hl -> | f1 f2 s done Hl Hi | Hl -> | Hl ->];
    rewrite Hl; try reflexivity.
  now rewrite Hi.
Qed.

(** A step is a move of one thread or one delivery of a signal. *)
Lemma step_cases (p q : Process E) :
  step E cfg p q ->
  status E p = Running /\
  ((exists before t after eff,
      threads E p = before ++ t :: after /\
      move E cfg (List.length before) t (file_queue E p) (g_wants_to_quit E p) eff /\
      q = apply_effect E p before after eff) \/
   (exists code, q = SignalHandler E code p)).
Proof.
  intros [p0 before after t eff Hs Ht Ha | p0 code Hs]; split; trivial.
  - left. exists before, t, after, eff.
    split; [assumption |]. split; [now apply thread_action_move | reflexivity].
  - right. now exists code.
Qed.

(** *** Reading the history *)

Lemma popped_app (l l' : list Entry) :
  popped (l ++ l') = popped l ++ popped l'.
Proof.
  induction l as [| e l IH]; [reflexivity |].
  destruct e; simpl; now rewrite IH.
Qed.

Lemma completed_app (l l' : list Entry) :
  completed (l ++ l') = completed l ++ completed l'.
Proof.
  induction l as [| e l IH]; [reflexivity |].
  destruct e; simpl; now rewrite IH.
Qed.

Lemma popped_did i (done : list Event) : popped (map (Did i) done) = [].
Proof. induction done; simpl; trivial. Qed.

Lemma completed_did i (done : list Event) : completed (map (Did i) done) = [].
Proof. induction done; simpl; trivial. Qed.

Lemma held_from_app k (l l' : list (Thread E)) :
  held_from E k (l ++ l') = held_from E k l ++ held_from E (k + List.length l) l'.
Proof.
  revert k. induction l as [| t l IH]; intros k; simpl.
  - now rewrite Nat.add_0_r.
  - rewrite IH, Nat.add_succ_r. simpl. now destruct (location E t).
Qed.

(** What a move adds to the pairs popped, completed and held. *)
Lemma move_popped i t queue quit eff :
  move E cfg i t queue quit eff ->
  map snd (popped (entries E eff)) ++ queue_after E eff = queue.
Proof.
  intros [f1 f2 rest Hl -> | Hl -> | f1 f2 s done Hl Hi | Hl -> | Hl ->];
    simpl; trivial.
  now rewrite popped_app, popped_did.
Qed.

Lemma signal_log (code : Signal) (p : Process E) :
  popped (log E (SignalHandler E code p)) = popped (log E p) /\
  completed (log E (SignalHandler E code p)) = completed (log E p) /\
  threads E (SignalHandler E code p) = threads E p /\
  file_queue E (SignalHandler E code p) = file_queue E p /\
  (g_wants_to_quit E p = true ->
   g_wants_to_quit E (SignalHandler E code p) = true).
Proof.
  unfold SignalHandler.
  destruct code; try destruct (_ <? 3)%Z; simpl;
    rewrite ?popped_app, ?completed_app, ?app_nil_r; simpl;
    rewrite ?app_nil_r; auto.
Qed.

(** *** The queue is consumed from the front, each pair once *)

Lemma step_fifo (p q : Process E) :
  step E cfg p q ->
  map snd (popped (log E q)) ++ file_queue E q
  = map snd (popped (log E p)) ++ file_queue E p.
Proof.
  intros H. apply step_cases in H.
  destruct H as (_ & [(before & t & after & eff & Ht & Hm & ->) | (code & ->)]).
  - unfold apply_effect; simpl.
    rewrite popped_app, map_app, <- app_assoc.
    now rewrite (move_popped _ _ _ _ _ Hm).
  - destruct (signal_log code p) as (-> & _ & _ & -> & _). reflexivity.
Qed.

Lemma reaches_fifo (p q : Process E) :
  reaches E cfg p q ->
  map snd (popped (log E q)) ++ file_queue E q
  = map snd (popped (log E p)) ++ file_queue E p.
Proof.
  induction 1 as [| q r _ IH Hs]; [reflexivity |].
  now rewrite (step_fifo _ _ Hs).
Qed.

(** *** Every pair popped is completed or held *)

Lemma held_from_cons k (t : Thread E) (l : list (Thread E)) :
  held_from E k (t :: l) = held_one E k t ++ held_from E (S k) l.
Proof. unfold held_one. simpl. now destruct (location E t). Qed.

Lemma held_from_middle (before after : list (Thread E)) (t : Thread E) :
  held_from E 0 (before ++ t :: after)
  = held_from E 0 before ++ held_one E (List.length before) t
    ++ held_from E (S (List.length before)) after.
Proof. now rewrite held_from_app, held_from_cons. Qed.

Lemma step_accounted (p q : Process E) :
  step E cfg p q -> accounted E p -> accounted E q.
Proof.
  intros H. apply step_cases in H. unfold accounted.
  destruct H as (_ & [(before & t & after & eff & Ht & Hm & ->) | (code & ->)]).
  - unfold apply_effect; simpl. rewrite Ht, !held_from_middle.
    set (B := held_from E 0 before).
    set (A := held_from E (S (List.length before)) after).
    unfold held_one.
    destruct Hm as [f1 f2 rest Hl _ | Hl _ | f1 f2 s done Hl Hi | Hl _ | Hl _];
      simpl; rewrite Hl; simpl;
      rewrite ?popped_app, ?completed_app, ?popped_did, ?completed_did;
      simpl; rewrite ?app_nil_r; trivial.
    + intros HP.
      rewrite <- Permutation_cons_append, app_assoc, <- Permutation_middle.
      apply perm_skip. now rewrite <- app_assoc.
    + intros HP. rewrite HP, <- !app_assoc.
      apply Permutation_app_head. simpl.
      rewrite (Permutation_middle B A). reflexivity.
  - destruct (signal_log code p) as (-> & -> & -> & _). trivial.
Qed.

(** *** A thread returns only from an empty queue or on the flag *)

Lemma Exists_middle (P : Thread E -> Prop) before t t' after :
  Exists P (before ++ t' :: after) -> ~ P t' ->
  Exists P (before ++ t :: after).
Proof.
  rewrite !Exists_app, !Exists_cons. tauto.
Qed.

Lemma step_settled (p q : Process E) :
  step E cfg p q -> settled E p -> settled E q.
Proof.
  intros H. apply step_cases in H. unfold settled, some_returned.
  destruct H as (_ & [(before & t & after & eff & Ht & Hm & ->) | (code & ->)]).
  - unfold apply_effect; simpl. rewrite Ht.
    destruct Hm as [f1 f2 rest Hl Hq | Hl Hq | f1 f2 s done Hl Hi | Hl Hq | Hl Hq];
      simpl; intros Hp Hex; auto.
    + assert (Hex' : Exists (fun t => location E t = Returned)
                            (before ++ t :: after))
        by (eapply Exists_middle; [exact Hex | discriminate]).
      destruct (Hp Hex') as [Hp' | Hp']; [| now right].
      rewrite Hq in Hp'. discriminate.
    + apply Hp. eapply Exists_middle; [exact Hex | discriminate].
    + apply Hp. eapply Exists_middle; [exact Hex | discriminate].
  - destruct (signal_log code p) as (_ & _ & -> & -> & Hq).
    intros Hp Hex. destruct (Hp Hex); auto.
Qed.

Lemma step_threads_length (p q : Process E) :
  step E cfg p q -> List.length (threads E q) = List.length (threads E p).
Proof.
  intros H. apply step_cases in H.
  destruct H as (_ & [(before & t & after & eff & Ht & Hm & ->) | (code & ->)]).
  - unfold apply_effect; simpl. rewrite Ht, !length_app. reflexivity.
  - now destruct (signal_log code p) as (_ & _ & -> & _).
Qed.

Lemma held_from_none k (l : list (Thread E)) :
  Forall (fun t => forall f1 f2, location E t <> Holding f1 f2) l ->
  held_from E k l = [].
Proof.
  intros H. revert k. induction H as [| t l Ht _ IH]; intros k; simpl; trivial.
  destruct (location E t) eqn:Hl; trivial. now destruct (Ht file1 file2).
Qed.

(** From the start of the threads on. *)
Lemma reaches_invariants files num_threads quit count (p : Process E) :
  reaches E cfg (start E files num_threads quit count) p ->
  accounted E p /\ settled E p /\ List.length (threads E p) = num_threads.
Proof.
  induction 1 as [| q r _ (IH1 & IH2 & IH3) Hs].
  - unfold accounted, settled, some_returned, start; simpl.
    rewrite repeat_length. repeat split.
    + rewrite held_from_none; [constructor |].
      apply Forall_forall. intros t Ht. apply repeat_spec in Ht. now subst t.
    + intros Hex. apply Exists_exists in Hex. destruct Hex as (t & Ht & Hl).
      apply repeat_spec in Ht. now subst t.
  - repeat split.
    + eapply step_accounted; eassumption.
    + eapply step_settled; eassumption.
    + now rewrite (step_threads_length _ _ Hs).
Qed.

(** *** Schedules are executions *)

Lemma skipn_next (A : Type) (i : nat) (l rest : list A) (a : A) :
  skipn i l = a :: rest -> skipn (S i) l = rest.
Proof.
  revert l. induction i as [| i IH]; intros [| b l]; simpl; try discriminate.
  - now intros [= _ ->].
  - intros H. now apply IH in H.
Qed.

Lemma run_thread_step i (p q : Process E) :
  run_thread E cfg i p = Some q -> step E cfg p q.
Proof.
  unfold run_thread.
  destruct (status E p) eqn:Hs; try discriminate.
  destruct (nth_error (threads E p) i) as [t |] eqn:Ht; try discriminate.
  destruct (thread_action E cfg i t _ _) as [eff |] eqn:Ha; try discriminate.
  intros [= <-].
  assert (Hi : i < List.length (threads E p))
    by (apply nth_error_Some; congruence).
  assert (Hlen : List.length (firstn i (threads E p)) = i)
    by (rewrite length_firstn; lia).
  apply step_thread with (t := t); trivial.
  - rewrite <- (firstn_skipn i (threads E p)) at 1. f_equal.
    rewrite <- (firstn_skipn i (threads E p)) in Ht.
    rewrite nth_error_app2 in Ht by lia.
    rewrite Hlen, Nat.sub_diag in Ht.
    destruct (skipn i (threads E p)) as [| t0 rest] eqn:Hsk; [discriminate |].
    injection Ht as ->. f_equal. symmetry. now apply skipn_next with (a := t).
  - now rewrite Hlen.
Qed.

Lemma run_reaches schedule (p q : Process E) :
  run E cfg schedule p = Some q -> reaches E cfg p q.
Proof.
  assert (G : forall p0, reaches E cfg p0 p ->
                         run E cfg schedule p = Some q -> reaches E cfg p0 q).
  { revert p. induction schedule as [| turn schedule IH]; intros p p0 Hp; simpl.
    - now intros [= <-].
    - destruct turn as [i | code].
      + destruct (run_thread E cfg i p) as [r |] eqn:Hr; [| discriminate].
        apply IH. eapply reaches_step; [exact Hp | eapply run_thread_step; eassumption].
      + unfold deliver. destruct (status E p) eqn:Hs; try discriminate.
        apply IH. eapply reaches_step; [exact Hp | now apply step_signal]. }
  apply G. constructor.
Qed.

(** *** One thread through the steps of the process *)

Lemma by_thread_app i (l l' : list (nat * (string * string))) :
  by_thread i (l ++ l') = by_thread i l ++ by_thread i l'.
Proof. unfold by_thread. now rewrite filter_app, map_app. Qed.

Lemma nth_error_middle (before after : list (Thread E)) (t : Thread E) :
  nth_error (before ++ t :: after) (List.length before) = Some t.
Proof. rewrite nth_error_app2, Nat.sub_diag by lia. reflexivity. Qed.

Lemma nth_error_beside (before after : list (Thread E)) (t t' : Thread E) i :
  i <> List.length before ->
  nth_error (before ++ t' :: after) i = nth_error (before ++ t :: after) i.
Proof.
  intros Hne. destruct (Nat.lt_ge_cases i (List.length before)) as [Hlt | Hge].
  - now rewrite !nth_error_app1 by assumption.
  - rewrite !nth_error_app2 by assumption.
    destruct (i - List.length before) as [| k] eqn:Hk; [lia | reflexivity].
Qed.

(** The pairs a move of thread [j] adds to those popped by thread [i]. *)
Lemma move_pops_by i j t queue quit eff :
  move E cfg j t queue quit eff ->
  by_thread i (popped (entries E eff))
  = if (j =? i)%nat
    then match location E t, queue with
         | AtPop, job :: _ => [job]
         | _, _ => []
         end
    else [].
Proof.
  intros [f1 f2 rest Hl -> | Hl -> | f1 f2 s done Hl Hi | Hl -> | Hl ->];
    rewrite Hl; simpl; rewrite ?popped_app, ?popped_did; simpl;
    unfold by_thread; simpl; destruct (j =? i)%nat; reflexivity.
Qed.

(** What a step of the process means for thread [i]: the thread is left
    alone, with its pops, or it makes its own move. *)
Lemma step_of_thread i t (p q : Process E) :
  step E cfg p q -> nth_error (threads E p) i = Some t ->
  (g_wants_to_quit E p = true -> g_wants_to_quit E q = true) /\
  ((nth_error (threads E q) i = Some t /\ pops_by E i q = pops_by E i p) \/
   (exists eff,
      move E cfg i t (file_queue E p) (g_wants_to_quit E p) eff /\
      nth_error (threads E q) i = Some (thread_after E eff) /\
      pops_by E i q = pops_by E i p ++ by_thread i (popped (entries E eff)))).
Proof.
  intros H Hi. apply step_cases in H. unfold pops_by.
  destruct H as (_ & [(before & t0 & after & eff & Ht & Hm & ->) | (code & ->)]).
  - unfold apply_effect; simpl. split; [trivial |].
    rewrite popped_app, by_thread_app.
    destruct (Nat.eq_dec i (List.length before)) as [-> | Hne].
    + right. exists eff. rewrite Ht, nth_error_middle in Hi.
      injection Hi as <-. rewrite nth_error_middle. auto.
    + left. rewrite (nth_error_beside _ _ t0) by assumption.
      rewrite <- Ht. split; [assumption |].
      rewrite (move_pops_by i _ _ _ _ _ Hm).
      replace (List.length before =? i)%nat with false
        by (symmetry; apply Nat.eqb_neq; congruence).
      apply app_nil_r.
  - destruct (signal_log code p) as (-> & _ & -> & _ & Hq). auto.
Qed.

(** Once the flag is set, a thread that is past its pop never pops again. *)
Lemma no_pop_after_flag i t (p q : Process E) :
  reaches E cfg p q ->
  g_wants_to_quit E p = true ->
  nth_error (threads E p) i = Some t -> location E t <> AtPop ->
  g_wants_to_quit E q = true /\
  (exists t', nth_error (threads E q) i = Some t' /\ location E t' <> AtPop) /\
  pops_by E i q = pops_by E i p.
Proof.
  intros Hr Hq Hi Hl.
  induction Hr as [| q r _ (IHq & (t' & IHt & IHl) & IHp) Hs].
  - repeat split; trivial. now exists t.
  - destruct (step_of_thread i t' q r Hs IHt)
      as (Hflag & [(Ht & Hp) | (eff & Hm & Ht & Hp)]).
    + repeat split; [auto | now exists t' | congruence].
    + split; [auto |].
      destruct Hm as [f1 f2 rest Ha _ | Ha _ | f1 f2 s done Ha Hit | Ha Hf | Ha _];
        try contradiction; try congruence; simpl in *.
      * split; [eexists; split; [exact Ht | discriminate] |].
        rewrite Hp, popped_app, popped_did, <- IHp. apply app_nil_r.
      * split; [eexists; split; [exact Ht | discriminate] |].
        rewrite Hp, <- IHp. apply app_nil_r.
Qed.

(** Once the flag is set, a thread pops at most one more pair. *)
Lemma one_pop_after_flag i t (p q : Process E) :
  reaches E cfg p q ->
  g_wants_to_quit E p = true ->
  nth_error (threads E p) i = Some t ->
  exists extra,
    pops_by E i q = pops_by E i p ++ extra /\ List.length extra <= 1.
Proof.
  intros Hr Hq Hi.
  assert (G : g_wants_to_quit E q = true /\
              exists t' extra,
                nth_error (threads E q) i = Some t' /\
                pops_by E i q = pops_by E i p ++ extra /\
                List.length extra <= 1 /\
                (location E t' = AtPop -> extra = [])).
  { induction Hr as [| q r _ (IHq & t' & extra & IHt & IHp & IHn & IHl) Hs].
    - split; [assumption |]. exists t, []. rewrite app_nil_r. auto.
    - destruct (step_of_thread i t' q r Hs IHt)
        as (Hflag & [(Ht & Hp) | (eff & Hm & Ht & Hp)]).
      + split; [auto |]. exists t', extra. repeat split; trivial. congruence.
      + split; [auto |].
        rewrite (move_pops_by i _ _ _ _ _ Hm), Nat.eqb_refl in Hp.
        destruct Hm as [f1 f2 rest Ha Hqu | Ha Hqu | f1 f2 s done Ha Hit
                        | Ha Hf | Ha _];
          rewrite Ha in Hp; try rewrite Hqu in Hp; try congruence.
        * exists (thread_after E
                    {| thread_after := {| location := Holding f1 f2;
                                          locals := locals E t' |};
                       queue_after := rest;
                       entries := [Popped i f1 f2];
                       status_after := Running |}), [(f1, f2)].
          rewrite (IHl Ha), app_nil_r in IHp.
          repeat split; simpl; trivial; [congruence | discriminate].
        * eexists _, extra. rewrite app_nil_r in Hp.
          repeat split; [exact Ht | congruence | trivial | discriminate].
        * eexists _, extra. rewrite app_nil_r in Hp.
          repeat split; [exact Ht | congruence | trivial | discriminate].
        * eexists _, extra. rewrite app_nil_r in Hp.
          repeat split; [exact Ht | congruence | trivial | discriminate]. }
  destruct G as (_ & t' & extra & _ & Hp & Hn & _). now exists extra.
Qed.

(** A move of the thread between [before] and [after], as a turn of the
    schedule. *)
Lemma run_thread_middle (p : Process E) before t after eff :
  status E p = Running ->
  threads E p = before ++ t :: after ->
  thread_action E cfg (List.length before) t (file_queue E p)
                (g_wants_to_quit E p) = Some eff ->
  run_thread E cfg (List.length before) p
  = Some (apply_effect E p before after eff).
Proof.
  intros Hs Ht Ha. unfold run_thread.
  rewrite Hs, Ht, nth_error_middle, <- Ht, Ha, Ht.
  rewrite firstn_app, Nat.sub_diag, firstn_all, app_nil_r. simpl firstn.
  replace (skipn (S (List.length before)) (before ++ t :: after)) with after.
  - reflexivity.
  - symmetry. apply skipn_next with (a := t).
    rewrite skipn_app, Nat.sub_diag, skipn_all. reflexivity.
Qed.

(** *** The threads come to an end *)

Lemma move_decreases i t queue quit eff :
  move E cfg i t queue quit eff ->
  status_after E eff = Running /\
  3 * List.length (queue_after E eff)
  + moves_left_at (location E (thread_after E eff))
  < 3 * List.length queue + moves_left_at (location E t).
Proof.
  intros [f1 f2 rest Hl -> | Hl -> | f1 f2 s done Hl Hi | Hl -> | Hl ->];
    rewrite Hl; simpl; split; trivial; lia.
Qed.

Lemma moves_left_middle queue (before after : list (Thread E)) t :
  moves_left E queue (before ++ t :: after)
  = 3 * List.length queue + moves_left_at (location E t)
    + moves_left E [] (before ++ after).
Proof.
  unfold moves_left. rewrite !map_app, !list_sum_app. simpl. lia.
Qed.

(** Some thread has not returned, unless all have. *)
Lemma first_not_returned (ts : list (Thread E)) :
  Forall (fun t => location E t = Returned) ts \/
  exists before t after,
    ts = before ++ t :: after /\ location E t <> Returned.
Proof.
  induction ts as [| t ts [IH | (before & t' & after & -> & Hl)]].
  - left. constructor.
  - destruct (location E t) eqn:Hl;
      try (right; exists [], t, ts; split; [reflexivity | congruence]).
    left. now constructor.
  - right. now exists (t :: before), t', after.
Qed.

(** A thread that has not returned can move. *)
Lemma can_move i (t : Thread E) queue quit :
  location E t <> Returned ->
  exists eff, thread_action E cfg i t queue quit = Some eff.
Proof.
  intros Hl. unfold thread_action.
  destruct (location E t) as [| file1 file2 | |]; try contradiction.
  - destruct queue as [| [file1 file2] rest]; eauto.
  - destruct (iteration_normal E cfg file1 file2 (locals E t))
      as (s & done & ->). eauto.
  - destruct quit; eauto.
Qed.

(** Left to themselves the threads all return. *)
Lemma threads_return (n : nat) :
  forall p : Process E,
    moves_left E (file_queue E p) (threads E p) <= n ->
    status E p = Running ->
    exists schedule q,
      run E cfg schedule p = Some q /\ all_returned E q /\
      g_wants_to_quit E q = g_wants_to_quit E p.
Proof.
  induction n as [| n IH]; intros p Hn Hs;
    (destruct (first_not_returned (threads E p))
       as [Hall | (before & t & after & Ht & Hl)];
     [now exists [], p |]).
  - exfalso. rewrite Ht, moves_left_middle in Hn.
    destruct (location E t); simpl in Hn; try lia. contradiction.
  - destruct (can_move (List.length before) t (file_queue E p)
                (g_wants_to_quit E p) Hl) as (eff & Ha).
    pose proof (run_thread_middle p before t after eff Hs Ht Ha) as Hrun.
    destruct (move_decreases _ _ _ _ _ (thread_action_move _ _ _ _ _ Ha))
      as (Hst & Hlt).
    destruct (IH (apply_effect E p before after eff)) as (schedule & q & Hq).
    + simpl. rewrite Ht, moves_left_middle in Hn.
      rewrite moves_left_middle. lia.
    + exact Hst.
    + exists (inl (List.length before) :: schedule), q.
      simpl run. rewrite Hrun. exact Hq.
Qed.

End Moves.

(** C8.  From the start of [num_threads >= 1] threads on a queue [files],
    in every state the process can reach: the pairs popped so far, in the
    order of the pops, followed by the queue, are [files], so the k-th pair
    of [files] is either still queued or was popped once, by the one thread
    of the k-th pop; every pair popped is completed or in the hands of its
    thread; once all threads have returned, the pairs completed and the
    pairs left in the queue are together the pairs of [files], the queue
    being empty unless the quit flag is set; and the threads, left to
    themselves, do all return. *)
Theorem every_pair_popped_once (E : Engine) (cfg : Config)
  (files : DiffPairList) (num_threads : nat) (quit : bool) (count : Z)
  (p : Process E) :
  1 <= num_threads ->
  reaches E cfg (start E files num_threads quit count) p ->
  map snd (popped (log E p)) ++ file_queue E p = files /\
  (forall k job,
     nth_error files k = Some job ->
     if k <? List.length (popped (log E p))
     then exists i, nth_error (popped (log E p)) k = Some (i, job)
     else nth_error (file_queue E p) (k - List.length (popped (log E p)))
          = Some job) /\
  Permutation (popped (log E p))
              (completed (log E p) ++ held_from E 0 (threads E p)) /\
  (all_returned E p ->
     Permutation (map snd (completed (log E p)) ++ file_queue E p) files /\
     (g_wants_to_quit E p = false -> file_queue E p = [])) /\
  (exists schedule q,
     run E cfg schedule (start E files num_threads quit count) = Some q /\
     all_returned E q /\ g_wants_to_quit E q = quit).
Proof.
  intros Hn Hr.
  pose proof (reaches_fifo E cfg _ _ Hr) as Hfifo. simpl in Hfifo.
  destruct (reaches_invariants E cfg _ _ _ _ _ Hr) as (Hacc & Hset & Hlen).
  split; [exact Hfifo |]. split; [| split; [exact Hacc |]].
  2: split;
       [| exact (threads_return E cfg _ (start E files num_threads quit count)
                   (le_n _) eq_refl)].
  - intros k job Hk. rewrite <- Hfifo in Hk.
    destruct (k <? List.length (popped (log E p))) eqn:Hlt;
      [apply Nat.ltb_lt in Hlt | apply Nat.ltb_ge in Hlt].
    + rewrite nth_error_app1 in Hk by now rewrite length_map.
      rewrite nth_error_map in Hk.
      destruct (nth_error (popped (log E p)) k) as [[i job'] |];
        [| discriminate].
      injection Hk as ->. now exists i.
    + rewrite nth_error_app2 in Hk by now rewrite length_map.
      now rewrite length_map in Hk.
  - intros Hall. split.
    + unfold accounted in Hacc. rewrite held_from_none, app_nil_r in Hacc.
      * rewrite <- Hfifo. apply Permutation_app_tail, Permutation_map.
        now symmetry.
      * eapply Forall_impl; [| exact Hall]. intros t Ht f1 f2.
        simpl in Ht. congruence.
    + intros Hq. destruct Hset as [He | Ht]; [| assumption | congruence].
      unfold some_returned. unfold all_returned in Hall.
      destruct (threads E p) as [| t ts]; [simpl in Hlen; lia |].
      inversion Hall; subst. now apply Exists_cons_hd.
Qed.

(** The thread between [before] and [after] finishes the pair it holds and,
    with the flag set, returns at the [while] condition. *)
Lemma finish_and_return (E : Engine) (cfg : Config) (p : Process E)
  before t after file1 file2 :
  status E p = Running ->
  threads E p = before ++ t :: after ->
  location E t = Holding file1 file2 ->
  g_wants_to_quit E p = true ->
  exists q t',
    run E cfg [inl (List.length before); inl (List.length before)] p = Some q /\
    status E q = Running /\
    threads E q = before ++ t' :: after /\ location E t' = Returned /\
    file_queue E q = file_queue E p /\
    popped (log E q) = popped (log E p) /\
    completed (log E q)
    = completed (log E p) ++ [(List.length before, (file1, file2))].
Proof.
  intros Hs Ht Hl Hq.
  destruct (iteration_normal E cfg file1 file2 (locals E t)) as (s & done & Hi).
  set (i := List.length before).
  set (eff1 := {| thread_after := {| location := AtWhile; locals := s |};
                  queue_after := file_queue E p;
                  entries := map (Did i) done ++ [Completed i file1 file2];
                  status_after := Running |}).
  set (p1 := apply_effect E p before after eff1).
  assert (H1 : run_thread E cfg i p = Some p1).
  { apply run_thread_middle with (t := t); trivial. unfold thread_action.
    now rewrite Hl, Hi. }
  set (eff2 := {| thread_after := {| location := Returned; locals := s |};
                  queue_after := file_queue E p1;
                  entries := [Left i];
                  status_after := Running |}).
  assert (H2 : run_thread E cfg i p1 = Some (apply_effect E p1 before after eff2)).
  { apply run_thread_middle with (t := thread_after E eff1); trivial.
    simpl. now rewrite Hq. }
  exists (apply_effect E p1 before after eff2), (thread_after E eff2).
  simpl run. rewrite H1, H2. simpl.
  rewrite !popped_app, !completed_app, popped_did, completed_did. simpl.
  rewrite !app_nil_r. repeat split.
Qed.

(** C6.  In a running process: the first and the second interrupt set the
    quit flag and print the shutdown notice, and change nothing else, so no
    thread loses the pair it holds; with the flag set, a thread that holds a
    pair completes it and returns, the queue as it was, and pops nothing
    more whatever else happens; the third interrupt prints and exits with
    status 1, after which no thread moves and no pair is completed. *)
Theorem staged_shutdown (E : Engine) (cfg : Config) (p : Process E) :
  status E p = Running ->
  (forall code,
     code <> OtherSignal -> (signal_count E p = 0 \/ signal_count E p = 1)%Z ->
     SignalHandler E code p
     = {| file_queue := file_queue E p;
          g_wants_to_quit := true;
          signal_count := (signal_count E p + 1)%Z;
          threads := threads E p;
          log := log E p ++ [Handled (PrintErrorMessage shutting_down_message)];
          status := Running |}) /\
  (forall before t after file1 file2,
     threads E p = before ++ t :: after ->
     location E t = Holding file1 file2 ->
     g_wants_to_quit E p = true ->
     (exists q t',
        run E cfg [inl (List.length before); inl (List.length before)] p
        = Some q /\
        threads E q = before ++ t' :: after /\ location E t' = Returned /\
        file_queue E q = file_queue E p /\
        popped (log E q) = popped (log E p) /\
        completed (log E q)
        = completed (log E p) ++ [(List.length before, (file1, file2))]) /\
     (forall q, reaches E cfg p q ->
                pops_by E (List.length before) q
                = pops_by E (List.length before) p)) /\
  (forall code,
     code <> OtherSignal -> signal_count E p = 2%Z ->
     SignalHandler E code p
     = {| file_queue := file_queue E p;
          g_wants_to_quit := g_wants_to_quit E p;
          signal_count := 3%Z;
          threads := threads E p;
          log := log E p ++ [Handled (PrintErrorMessage terminating_message)];
          status := Exited 1 |} /\
     forall q, reaches E cfg (SignalHandler E code p) q ->
               q = SignalHandler E code p).
Proof.
  intros Hs. split; [| split].
  - intros code Hc Hn. unfold SignalHandler.
    destruct code; try contradiction;
      (replace (signal_count E p + 1 <? 3)%Z with true
         by (symmetry; apply Z.ltb_lt; lia)); now rewrite Hs.
  - intros before t after file1 file2 Ht Hl Hq. split.
    + destruct (finish_and_return E cfg p before t after file1 file2
                  Hs Ht Hl Hq) as (q & t' & H & _ & H').
      now exists q, t'.
    + intros q Hr.
      refine (proj2 (proj2 (no_pop_after_flag E cfg (List.length before) t p q
                              Hr Hq _ _))).
      * rewrite Ht. apply nth_error_middle.
      * congruence.
  - intros code Hc Hn.
    assert (Hq : SignalHandler E code p
                 = {| file_queue := file_queue E p;
                      g_wants_to_quit := g_wants_to_quit E p;
                      signal_count := 3%Z;
                      threads := threads E p;
                      log := log E p
                             ++ [Handled (PrintErrorMessage terminating_message)];
                      status := Exited 1 |}).
    { unfold SignalHandler. rewrite Hn.
      destruct code; try contradiction; reflexivity. }
    split; [exact Hq |].
    intros q Hr. induction Hr as [| q r _ IH Hstep]; [reflexivity |].
    subst q. apply step_cases in Hstep. destruct Hstep as [Hrun _].
    rewrite Hq in Hrun. discriminate.
Qed.

(** C10.  A thread at the top of its loop while the quit flag is already
    set: the pop does not look at the flag; with a pair at the front of the
    queue, three moves of the thread pop that pair, complete it and return,
    the rest of the queue left; and whatever else happens, the thread pops
    no second pair. *)
Theorem flag_read_only_after_the_iteration (E : Engine) (cfg : Config)
  (p : Process E) before t after file1 file2 rest :
  status E p = Running ->
  threads E p = before ++ t :: after ->
  location E t = AtPop ->
  file_queue E p = (file1, file2) :: rest ->
  g_wants_to_quit E p = true ->
  (forall i queue quit,
     thread_action E cfg i t queue quit = thread_action E cfg i t queue false) /\
  (exists q t',
     run E cfg [inl (List.length before); inl (List.length before);
                inl (List.length before)] p = Some q /\
     threads E q = before ++ t' :: after /\ location E t' = Returned /\
     file_queue E q = rest /\
     popped (log E q)
     = popped (log E p) ++ [(List.length before, (file1, file2))] /\
     completed (log E q)
     = completed (log E p) ++ [(List.length before, (file1, file2))]) /\
  (forall q, reaches E cfg p q ->
     exists extra,
       pops_by E (List.length before) q
       = pops_by E (List.length before) p ++ extra /\
       List.length extra <= 1).
Proof.
  intros Hs Ht Hl Hqueue Hq. split; [| split].
  - intros i queue quit. unfold thread_action. now rewrite Hl.
  - set (i := List.length before).
    set (eff := {| thread_after := {| location := Holding file1 file2;
                                      locals := locals E t |};
                   queue_after := rest;
                   entries := [Popped i file1 file2];
                   status_after := Running |}).
    set (p1 := apply_effect E p before after eff).
    assert (H1 : run_thread E cfg i p = Some p1).
    { apply run_thread_middle with (t := t); trivial. unfold thread_action.
      now rewrite Hl, Hqueue. }
    destruct (finish_and_return E cfg p1 before (thread_after E eff) after
                file1 file2 eq_refl eq_refl eq_refl Hq)
      as (q & t' & Hrun & _ & Hth & Hloc & Hfq & Hpop & Hcomp).
    exists q, t'. split.
    + change (run E cfg (inl i :: [inl i; inl i]) p = Some q).
      simpl run at 1. rewrite H1. exact Hrun.
    + repeat split; trivial.
      * rewrite Hpop. simpl. now rewrite popped_app.
      * rewrite Hcomp. simpl. rewrite completed_app. simpl.
        now rewrite app_nil_r.
  - intros q Hr.
    apply (one_pop_after_flag E cfg (List.length before) t p q Hr Hq).
    rewrite Ht. apply nth_error_middle.
Qed.

(** C2.  A thread in its [try] block with the pair [(file1, file2)], by
    the way the block ends.  When it throws: the thread prints an error
    that names both files, clears both remembered file names, leaves the
    queue as it is (the pair is not put back) and goes on to the [while]
    condition; for the next pair it takes, if its names are not empty, the
    cache is cleared and both sides are read anew, no matches reset: the
    graphs of each side are deleted and given to [Read], the primary side
    with the empty cache and the secondary side with the cache that read
    has filled, and what the two reads return is what is diffed.  When it
    ends normally: the two file names are remembered.  In both cases the
    thread then, the quit flag not set, is back at the pop and takes the
    pair at the front of the queue. *)
Theorem failed_iteration_is_isolated (E : Engine) (cfg : Config) (i : nat)
  (s : State E) (file1 file2 : string) (queue : DiffPairList) (quit : bool) :
  match body E cfg file1 file2 s with
  | (s1, done, Throw e) =>
      thread_action E cfg i {| location := Holding file1 file2; locals := s |}
                    queue quit
      = Some {| thread_after :=
                  {| location := AtWhile;
                     locals := set_last_files E "" "" s1 |};
                queue_after := queue;
                entries :=
                  map (Did i)
                      (done ++ [PrintErrorMessage
                                  (error_message e file1 file2)])
                  ++ [Completed i file1 file2];
                status_after := Running |} /\
      (exists pre post,
         error_message e file1 file2
         = (pre ++ file1 ++ " vs " ++ file2 ++ post)%string) /\
      (forall next1 next2,
         next1 <> ""%string -> next2 <> ""%string ->
         body E cfg next1 next2 (set_last_files E "" "" s1)
         = match Read E (JoinPath (fs cfg) (path_ cfg) next1)
                      (DeleteFlowGraphs E (graphs1 E s1)) (empty_cache E) with
           | (g1, c1, Some e1) =>
               (Build_State E c1 g1 (graphs2 E s1) ""%string ""%string,
                CacheCleared :: reading cfg Primary next1, Throw e1)
           | (g1, c1, None) =>
               match Read E (JoinPath (fs cfg) (path_ cfg) next2)
                          (DeleteFlowGraphs E (graphs2 E s1)) c1 with
               | (g2, c2, Some e2) =>
                   (Build_State E c2 g1 g2 ""%string ""%string,
                    CacheCleared
                    :: reading cfg Primary next1
                       ++ reading cfg Secondary next2,
                    Throw e2)
               | (g2, c2, None) =>
                   match diff_and_write E cfg next1 next2
                           (Build_State E c2 g1 g2 ""%string ""%string) with
                   | (s3, rest, c) =>
                       (s3,
                        CacheCleared
                        :: reading cfg Primary next1
                           ++ reading cfg Secondary next2 ++ rest,
                        c)
                   end
               end
           end /\
         exists s2 rest c,
           body E cfg next1 next2 (set_last_files E "" "" s1)
           = (s2, CacheCleared :: reading cfg Primary next1 ++ rest, c) /\
           Forall not_reset rest /\
           ((exists a, c = Normal a) ->
            exists rest', rest = reading cfg Secondary next2 ++ rest'))
  | (s1, done, Normal _) =>
      thread_action E cfg i {| location := Holding file1 file2; locals := s |}
                    queue quit
      = Some {| thread_after := {| location := AtWhile; locals := s1 |};
                queue_after := queue;
                entries := map (Did i) done ++ [Completed i file1 file2];
                status_after := Running |} /\
      last_file1 E s1 = file1 /\ last_file2 E s1 = file2
  | (_, _, Abort) => False
  end /\
  (forall s',
     thread_action E cfg i {| location := AtWhile; locals := s' |} queue false
     = Some {| thread_after := {| location := AtPop; locals := s' |};
               queue_after := queue;
               entries := [];
               status_after := Running |}) /\
  (forall s' next1 next2 rest,
     thread_action E cfg i {| location := AtPop; locals := s' |}
                   ((next1, next2) :: rest) quit
     = Some {| thread_after := {| location := Holding next1 next2;
                                  locals := s' |};
               queue_after := rest;
               entries := [Popped i next1 next2];
               status_after := Running |}).
Proof.
  split; [| split; reflexivity].
  destruct (iteration_cases E cfg file1 file2 s)
    as [(s1 & done & Hb & Hi) | (s1 & done & e & Hb & Hi)]; rewrite Hb.
  - split.
    + unfold thread_action; simpl. now rewrite Hi.
    + eapply body_normal_last_files; eassumption.
  - split; [| split].
    + unfold thread_action; simpl. now rewrite Hi.
    + destruct e as [| what]; simpl.
      * exists "out of memory diffing "%string, ""%string.
        unfold out_of_memory_message. now rewrite StrFacts.append_empty_r.
      * now exists "while diffing "%string, (": " ++ what)%string.
    + intros next1 next2 H1 H2. split.
      * apply (full_reload_result E cfg next1 next2
                 (set_last_files E "" "" s1)); simpl; congruence.
      * apply full_reload; simpl; congruence.
Qed.

Lemma failed_iteration_is_isolated_witness :
  (exists pre post,
     error_message (std_exception "cannot read") "!x" "c"
     = (pre ++ "!x" ++ " vs " ++ "c" ++ post)%string) /\
  exists s2 rest c,
    body Demo.demo_engine Demo.demo_cfg "a" "b"
         (set_last_files Demo.demo_engine "" "" (fst (fst Demo.demo_failed)))
    = (s2, CacheCleared :: reading Demo.demo_cfg Primary "a" ++ rest, c).
Proof.
  pose proof (failed_iteration_is_isolated
                Demo.demo_engine Demo.demo_cfg 0
                (initial Demo.demo_engine) "!x" "c" [] false) as [H _].
  change (body Demo.demo_engine Demo.demo_cfg "!x" "c"
               (initial Demo.demo_engine))
    with (fst (fst Demo.demo_failed), snd (fst Demo.demo_failed),
          @Throw unit (std_exception "cannot read")) in H.
  cbv beta iota in H. destruct H as (_ & Hmsg & Hnext).
  split; [exact Hmsg |].
  destruct (Hnext "a"%string "b"%string)
    as (_ & s2 & rest & c & Hb & _);
    [discriminate | discriminate |].
  now exists s2, rest, c.
Defined.

Lemma every_pair_popped_once_witness :
  run Demo.demo_engine Demo.demo_cfg Demo.demo_schedule Demo.demo_start
  = Some Demo.demo_end /\
  Permutation (map snd (completed (log _ Demo.demo_end))
               ++ file_queue _ Demo.demo_end) Demo.demo_files /\
  file_queue _ Demo.demo_end = [].
Proof.
  assert (Hrun : run Demo.demo_engine Demo.demo_cfg Demo.demo_schedule
                     Demo.demo_start = Some Demo.demo_end)
    by (vm_compute; reflexivity).
  split; [exact Hrun |].
  destruct (every_pair_popped_once Demo.demo_engine Demo.demo_cfg
              Demo.demo_files 2 false 0 Demo.demo_end) as (_ & _ & _ & H & _).
  - lia.
  - exact (run_reaches _ _ _ _ _ Hrun).
  - destruct H as [H1 H2].
    + unfold all_returned. simpl. repeat constructor.
    + split; [exact H1 | exact (H2 eq_refl)].
Defined.

Lemma staged_shutdown_witness :
  g_wants_to_quit _ (SignalHandler Demo.demo_engine SIGINT Demo.demo_interrupted)
  = true /\
  (exists q,
     run Demo.demo_engine Demo.demo_cfg [inl 0; inl 0] Demo.demo_interrupted
     = Some q /\
     completed (log _ q) = [(0, ("a", "b"))]%string /\
     file_queue _ q = file_queue _ Demo.demo_interrupted) /\
  status _ (SignalHandler Demo.demo_engine SIGINT Demo.demo_interrupted_twice)
  = Exited 1.
Proof.
  destruct (staged_shutdown Demo.demo_engine Demo.demo_cfg
              Demo.demo_interrupted eq_refl) as (H1 & H2 & _).
  destruct (staged_shutdown Demo.demo_engine Demo.demo_cfg
              Demo.demo_interrupted_twice eq_refl) as (_ & _ & H3).
  split; [| split].
  - rewrite (H1 SIGINT); [reflexivity | discriminate | now right].
  - destruct (H2 [] {| location := Holding "a" "b";
                       locals := initial Demo.demo_engine |}
                 [ {| location := AtPop; locals := initial Demo.demo_engine |} ]
                 "a"%string "b"%string eq_refl eq_refl eq_refl)
      as ((q & t' & Hrun & _ & _ & Hq & _ & Hc) & _).
    exists q. repeat split; assumption.
  - destruct (H3 SIGINT) as [H _]; [discriminate | reflexivity |].
    now rewrite H.
Defined.

Lemma flag_read_only_after_the_iteration_witness :
  exists q,
    run Demo.demo_engine Demo.demo_cfg [inl 0; inl 0; inl 0]
        Demo.demo_late_start = Some q /\
    file_queue _ q = [("!x", "c"); ("a", "c")]%string /\
    popped (log _ q) = [(0, ("a", "b"))]%string.
Proof.
  destruct (flag_read_only_after_the_iteration
              Demo.demo_engine Demo.demo_cfg Demo.demo_late_start
              [] {| location := AtPop; locals := initial Demo.demo_engine |} []
              "a"%string "b"%string [("!x", "c"); ("a", "c")]%string
              eq_refl eq_refl eq_refl eq_refl eq_refl)
    as (_ & (q & t' & Hrun & _ & _ & Hq & Hp & _) & _).
  exists q. repeat split; assumption.
Defined.

(** *** What no execution does *)

Section Executions.
Variable E : Engine.
Variable cfg : Config.

Lemma move_locals i (t : Thread E) queue quit eff :
  move E cfg i t queue quit eff ->
  locals E (thread_after E eff) = locals E t \/
  exists file1 file2 done,
    location E t = Holding file1 file2 /\
    location E (thread_after E eff) = AtWhile /\
    iteration E cfg file1 file2 (locals E t)
    = (locals E (thread_after E eff), done, Normal tt).
Proof.
  intros [f1 f2 rest Hl -> | Hl -> | f1 f2 s done Hl Hi | Hl -> | Hl ->];
    simpl; auto.
  right. now exists f1, f2, done.
Qed.

Lemma step_growth (p q : Process E) :
  step E cfg p q ->
  (g_wants_to_quit E p = true -> g_wants_to_quit E q = true) /\
  (signal_count E p <= signal_count E q)%Z /\
  List.length (threads E q) = List.length (threads E p) /\
  (exists taken, file_queue E p = taken ++ file_queue E q) /\
  (exists added, log E q = log E p ++ added).
Proof.
  intros H. pose proof (step_threads_length E cfg _ _ H) as Hlen.
  apply step_cases in H.
  destruct H as (_ & [(before & t & after & eff & Ht & Hm & ->) | (code & ->)]).
  - simpl. repeat split; trivial; try lia.
    + destruct Hm as [f1 f2 rest Hl Hq | Hl Hq | f1 f2 s done Hl Hi
                      | Hl Hq | Hl Hq]; simpl;
        try (now exists []).
      exists [(f1, f2)]. now rewrite Hq.
    + now exists (entries E eff).
  - unfold SignalHandler.
    destruct code; try destruct (_ <? 3)%Z; simpl;
      repeat split; trivial; try lia;
      try (now exists []); try (eexists; reflexivity);
      exists []; now rewrite app_nil_r.
Qed.

Lemma step_status (p q : Process E) :
  step E cfg p q ->
  status E q = Running \/ (status E q = Exited 1 /\ (3 <= signal_count E q)%Z).
Proof.
  intros H. apply step_cases in H.
  destruct H as (Hs & [(before & t & after & eff & Ht & Hm & ->) | (code & ->)]).
  - left. simpl. now destruct (move_decreases E cfg _ _ _ _ _ Hm).
  - unfold SignalHandler.
    destruct code; try (now left);
      destruct (_ <? 3)%Z eqn:Hc; simpl; auto;
      right; apply Z.ltb_ge in Hc; split; trivial.
Qed.

Lemma step_keeps_files (files : DiffPairList) (p q : Process E) :
  step E cfg p q ->
  incl (file_queue E p) files ->
  Forall (remembers_from E files) (threads E p) ->
  Forall (holds_from E files) (threads E p) ->
  incl (file_queue E q) files /\
  Forall (remembers_from E files) (threads E q) /\
  Forall (holds_from E files) (threads E q).
Proof.
  intros H Hq Hr Hh. apply step_cases in H.
  destruct H as (_ & [(before & t & after & eff & Ht & Hm & ->) | (code & ->)]).
  - simpl. rewrite Ht in Hr, Hh.
    apply Forall_app in Hr. destruct Hr as [Hr1 Hr2].
    apply Forall_app in Hh. destruct Hh as [Hh1 Hh2].
    inversion Hr2 as [| ? ? Hrt Hr3]; subst.
    inversion Hh2 as [| ? ? Hht Hh3]; subst.
    assert (G : incl (queue_after E eff) files /\
                remembers_from E files (thread_after E eff) /\
                holds_from E files (thread_after E eff)).
    { destruct Hm as [f1 f2 rest Hl Hqu | Hl Hqu | f1 f2 s done Hl Hi
                      | Hl Hqu | Hl Hqu]; simpl;
        unfold remembers_from, holds_from in *; simpl;
        repeat split; trivial; try discriminate.
      - rewrite Hqu in Hq. intros x Hx. apply Hq. now right.
      - intros g1 g2 [= <- <-]. apply Hq. rewrite Hqu. now left.
      - destruct (iteration_last_files E cfg _ _ _ _ _ _ Hi) as [[-> ->] | H0];
          [right; now apply Hht | now left]. }
    destruct G as (G1 & G2 & G3). split; [exact G1 |].
    split; apply Forall_app; split; trivial; now constructor.
  - destruct (signal_log E code p) as (_ & _ & -> & -> & _). auto.
Qed.

Lemma run_thread_inv i (p q : Process E) :
  run_thread E cfg i p = Some q ->
  exists before t after eff,
    threads E p = before ++ t :: after /\ List.length before = i /\
    move E cfg i t (file_queue E p) (g_wants_to_quit E p) eff /\
    q = apply_effect E p before after eff.
Proof.
  unfold run_thread.
  destruct (status E p) eqn:Hs; try discriminate.
  destruct (nth_error (threads E p) i) as [t |] eqn:Ht; try discriminate.
  destruct (thread_action E cfg i t _ _) as [eff |] eqn:Ha; try discriminate.
  intros [= <-].
  assert (Hi : i < List.length (threads E p))
    by (apply nth_error_Some; congruence).
  assert (Hlen : List.length (firstn i (threads E p)) = i)
    by (rewrite length_firstn; lia).
  exists (firstn i (threads E p)), t, (skipn (S i) (threads E p)), eff.
  repeat split; trivial; [| now apply thread_action_move].
  rewrite <- (firstn_skipn i (threads E p)) at 1. f_equal.
  rewrite <- (firstn_skipn i (threads E p)) in Ht.
  rewrite nth_error_app2 in Ht by lia.
  rewrite Hlen, Nat.sub_diag in Ht.
  destruct (skipn i (threads E p)) as [| t0 rest] eqn:Hsk; [discriminate |].
  injection Ht as ->. f_equal. symmetry. now apply skipn_next with (a := t).
Qed.

Lemma run_thread_decreases i (p q : Process E) :
  run_thread E cfg i p = Some q ->
  moves_left E (file_queue E q) (threads E q)
  < moves_left E (file_queue E p) (threads E p).
Proof.
  intros H. apply run_thread_inv in H.
  destruct H as (before & t & after & eff & Ht & _ & Hm & ->).
  simpl. rewrite Ht, !moves_left_middle.
  destruct (move_decreases E cfg _ _ _ _ _ Hm) as [_ Hlt]. lia.
Qed.

Lemma moves_left_start (files : DiffPairList) (n : nat) (quit : bool)
  (count : Z) :
  moves_left E (file_queue E (start E files n quit count))
             (threads E (start E files n quit count))
  = 3 * List.length files + n.
Proof.
  unfold moves_left, start; simpl. f_equal.
  induction n as [| n IH]; simpl; [reflexivity | now rewrite IH].
Qed.

End Executions.

(** X11.  Along every execution the quit flag, once set, stays set; the
    count of signals and the number of threads never go down; the queue
    only loses pairs at its front, none is added or moved; and the history
    only grows. *)
Theorem executions_only_consume (E : Engine) (cfg : Config) (p q : Process E) :
  reaches E cfg p q ->
  (g_wants_to_quit E p = true -> g_wants_to_quit E q = true) /\
  (signal_count E p <= signal_count E q)%Z /\
  List.length (threads E q) = List.length (threads E p) /\
  (exists taken, file_queue E p = taken ++ file_queue E q) /\
  (exists added, log E q = log E p ++ added).
Proof.
  induction 1 as [| q r _ (IH1 & IH2 & IH3 & (taken & IH4) & (added & IH5)) Hs].
  - repeat split; trivial; try lia; exists []; trivial.
    now rewrite app_nil_r.
  - destruct (step_growth E cfg _ _ Hs)
      as (H1 & H2 & H3 & (taken' & H4) & (added' & H5)).
    repeat split; auto; try lia.
    + exists (taken ++ taken'). now rewrite IH4, H4, app_assoc.
    + exists (added ++ added'). now rewrite H5, IH5, app_assoc.
Qed.

Lemma executions_only_consume_witness :
  exists taken,
    file_queue _ Demo.demo_start = taken ++ file_queue _ Demo.demo_interrupted.
Proof.
  refine (proj1 (proj2 (proj2 (proj2
    (executions_only_consume Demo.demo_engine Demo.demo_cfg
       Demo.demo_start Demo.demo_interrupted _))))).
  apply run_reaches with (schedule := [inl 0; inr SIGINT]).
  vm_compute. reflexivity.
Defined.

(** X12.  A running process never stops at the assertion of the name
    builder, and never exits by itself: in every state it reaches it is
    still running, or it has exited with status 1 on a third interrupt. *)
Theorem process_ends_only_by_the_third_signal (E : Engine) (cfg : Config)
  (p q : Process E) :
  status E p = Running ->
  reaches E cfg p q ->
  status E q = Running \/
  (status E q = Exited 1 /\ (3 <= signal_count E q)%Z).
Proof.
  intros Hp Hr. destruct Hr as [| q r _ Hs]; [now left |].
  eapply step_status. exact Hs.
Qed.

Lemma process_ends_only_by_the_third_signal_witness :
  status _ Demo.demo_end = Running \/
  (status _ Demo.demo_end = Exited 1 /\ (3 <= signal_count _ Demo.demo_end)%Z).
Proof.
  refine (process_ends_only_by_the_third_signal
            Demo.demo_engine Demo.demo_cfg Demo.demo_start Demo.demo_end
            eq_refl _).
  apply run_reaches with (schedule := Demo.demo_schedule).
  vm_compute. reflexivity.
Defined.

(** X13.  From the start of the threads on, what a thread remembers of its
    last iteration is always consistent: both names are empty, or they are
    the two names of one pair of the todo list; and a thread never holds a
    pair that is not of the list. *)
Theorem remembered_names_are_a_pair_of_the_list (E : Engine) (cfg : Config)
  (files : DiffPairList) (num_threads : nat) (quit : bool) (count : Z)
  (q : Process E) :
  reaches E cfg (start E files num_threads quit count) q ->
  Forall (remembers_from E files) (threads E q) /\
  Forall (holds_from E files) (threads E q) /\
  incl (file_queue E q) files.
Proof.
  intros Hr.
  assert (G : incl (file_queue E q) files /\
              Forall (remembers_from E files) (threads E q) /\
              Forall (holds_from E files) (threads E q)).
  { remember (start E files num_threads quit count) as p eqn:Hp.
    induction Hr as [| q r _ IH Hs].
    - subst p. simpl. split; [apply incl_refl |].
      split; apply Forall_forall; intros t Ht; apply repeat_spec in Ht;
        subst t.
      + left. split; reflexivity.
      + intros f1 f2. discriminate.
    - destruct IH as (I1 & I2 & I3).
      eapply step_keeps_files; eassumption. }
  tauto.
Qed.

Lemma remembered_names_are_a_pair_of_the_list_witness :
  Forall (remembers_from Demo.demo_engine Demo.demo_files)
         (threads _ Demo.demo_end).
Proof.
  refine (proj1 (remembered_names_are_a_pair_of_the_list
                   Demo.demo_engine Demo.demo_cfg Demo.demo_files 2 false 0
                   Demo.demo_end _)).
  apply run_reaches with (schedule := Demo.demo_schedule).
  vm_compute. reflexivity.
Defined.

(** X14.  The threads cannot go on for ever: every move of a thread uses
    up one of the moves left, three for each queued pair and at most three
    for a thread, and a signal gives none back.  From the start of n
    threads on K pairs no schedule has more than 3 K + n moves of
    threads. *)
Theorem thread_moves_are_bounded (E : Engine) (cfg : Config)
  (schedule : list (nat + Signal)) (p q : Process E) :
  run E cfg schedule p = Some q ->
  thread_turns schedule + moves_left E (file_queue E q) (threads E q)
  <= moves_left E (file_queue E p) (threads E p) /\
  (forall files n quit count,
     p = start E files n quit count ->
     thread_turns schedule <= 3 * List.length files + n).
Proof.
  intros H.
  assert (G : thread_turns schedule
              + moves_left E (file_queue E q) (threads E q)
              <= moves_left E (file_queue E p) (threads E p)).
  { revert p H. induction schedule as [| turn schedule IH]; intros p; simpl.
    - intros [= <-]. unfold thread_turns. simpl. lia.
    - destruct turn as [i | code].
      + destruct (run_thread E cfg i p) as [r |] eqn:Hr; [| discriminate].
        intros H. apply IH in H. apply run_thread_decreases in Hr.
        unfold thread_turns in *. simpl. lia.
      + unfold deliver. destruct (status E p); try discriminate.
        intros H. apply IH in H.
        destruct (signal_log E code p) as (_ & _ & Ht & Hq & _).
        rewrite Ht, Hq in H. unfold thread_turns in *. simpl. exact H. }
  split; [exact G |].
  intros files n quit count ->. rewrite moves_left_start in G. lia.
Qed.

Lemma thread_moves_are_bounded_witness :
  thread_turns Demo.demo_schedule <= 3 * 3 + 2.
Proof.
  refine (proj2 (thread_moves_are_bounded
                   Demo.demo_engine Demo.demo_cfg Demo.demo_schedule
                   Demo.demo_start Demo.demo_end _)
                Demo.demo_files 2 false 0%Z eq_refl).
  vm_compute. reflexivity.
Defined.

Lemma after_pairs_app (E : Engine) (cfg : Config)
  (pairs pairs' : DiffPairList) (s : State E) :
  after_pairs E cfg (pairs ++ pairs') s
  = after_pairs E cfg pairs' (after_pairs E cfg pairs s).
Proof.
  revert s. induction pairs as [| [f1 f2] pairs IH]; intros s; simpl; auto.
Qed.

Lemma done_on_app (E : Engine) (cfg : Config)
  (pairs pairs' : DiffPairList) (s : State E) :
  done_on E cfg (pairs ++ pairs') s
  = done_on E cfg pairs s ++ done_on E cfg pairs' (after_pairs E cfg pairs s).
Proof.
  revert s. induction pairs as [| [f1 f2] pairs IH]; intros s; simpl; auto.
  now rewrite IH, app_assoc.
Qed.

Lemma did_by_app (i : nat) (l l' : list Entry) :
  did_by i (l ++ l') = did_by i l ++ did_by i l'.
Proof.
  induction l as [| e l IH]; [reflexivity |].
  destruct e as [| j ev | | |]; simpl; auto.
  destruct (j =? i); simpl; now rewrite IH.
Qed.

Lemma did_by_same (i : nat) (done : list Event) :
  did_by i (map (Did i) done) = done.
Proof.
  induction done as [| e done IH]; simpl; trivial.
  now rewrite Nat.eqb_refl, IH.
Qed.

Lemma did_by_other (i j : nat) (done : list Event) :
  j <> i -> did_by i (map (Did j) done) = [].
Proof.
  intros Hne. induction done as [| e done IH]; simpl; trivial.
  now replace (j =? i) with false by (symmetry; now apply Nat.eqb_neq).
Qed.

(** What a move of thread [j] adds to the history of thread [i]. *)
Lemma move_history (E : Engine) (cfg : Config) (i j : nat) (t : Thread E)
  (queue : DiffPairList) (quit : bool) (eff : Effect E) :
  move E cfg j t queue quit eff ->
  (j <> i ->
   by_thread i (completed (entries E eff)) = [] /\
   did_by i (entries E eff) = []) /\
  (j = i ->
   (locals E (thread_after E eff) = locals E t /\
    by_thread i (completed (entries E eff)) = [] /\
    did_by i (entries E eff) = []) \/
   (exists file1 file2,
      locals E (thread_after E eff)
      = fst (fst (iteration E cfg file1 file2 (locals E t))) /\
      by_thread i (completed (entries E eff)) = [(file1, file2)] /\
      did_by i (entries E eff)
      = snd (fst (iteration E cfg file1 file2 (locals E t))))).
Proof.
  intros [f1 f2 rest Hl -> | Hl -> | f1 f2 s done Hl Hi | Hl -> | Hl ->];
    (split; [intros Hne | intros ->]); simpl; auto.
  - rewrite completed_app, completed_did, did_by_app, did_by_other by assumption.
    unfold by_thread. simpl.
    now replace (j =? i) with false by (symmetry; now apply Nat.eqb_neq).
  - right. exists f1, f2. rewrite Hi. simpl.
    rewrite completed_app, completed_did, did_by_app, did_by_same.
    unfold by_thread. simpl. rewrite Nat.eqb_refl. simpl.
    now rewrite app_nil_r.
Qed.

(** X15.  What a thread has in its locals and what it has done depend on
    the pairs it has completed and on nothing else: from the start of the
    threads on, whatever the other threads did in between and whatever
    signals came, the locals of a thread are those of one thread that runs
    alone the iterations on the pairs this thread completed, in the same
    order, from fresh locals; and what the thread did is what those
    iterations do. *)
Theorem threads_do_not_touch_each_other (E : Engine) (cfg : Config)
  (files : DiffPairList) (num_threads : nat) (quit : bool) (count : Z)
  (q : Process E) (i : nat) (t : Thread E) :
  reaches E cfg (start E files num_threads quit count) q ->
  nth_error (threads E q) i = Some t ->
  let mine := by_thread i (completed (log E q)) in
  locals E t = after_pairs E cfg mine (initial E) /\
  did_by i (log E q) = done_on E cfg mine (initial E).
Proof.
  intros Hr. revert t.
  induction Hr as [| q r _ IH Hs]; intros t Ht.
  - simpl in *. apply nth_error_In, repeat_spec in Ht. subst t. auto.
  - apply step_cases in Hs.
    destruct Hs as (_ & [(before & t0 & after & eff & Hq & Hm & ->)
                        | (code & ->)]).
    + unfold apply_effect in *. cbn [threads log] in *.
      rewrite completed_app, by_thread_app, did_by_app.
      destruct (move_history E cfg i _ _ _ _ _ Hm) as [Hother Hsame].
      destruct (Nat.eq_dec (List.length before) i) as [Heq | Hne].
      * rewrite <- Heq, nth_error_middle in Ht. injection Ht as <-.
        assert (Ht0 : nth_error (threads E q) i = Some t0)
          by (rewrite Hq, <- Heq; apply nth_error_middle).
        destruct (IH t0 Ht0) as [IHl IHd]. cbv zeta in IHl, IHd.
        destruct (Hsame Heq)
          as [(Hl & -> & ->) | (f1 & f2 & Hl & -> & ->)];
          cbv zeta; rewrite Hl.
        -- now rewrite !app_nil_r.
        -- rewrite after_pairs_app, done_on_app, IHd, <- IHl. simpl.
           now rewrite app_nil_r.
      * destruct (Hother Hne) as [-> ->]. rewrite !app_nil_r.
        apply IH. rewrite Hq.
        rewrite <- Ht. symmetry. apply nth_error_beside. congruence.
    + destruct (signal_log E code q) as (_ & Hc & Hth & _).
      rewrite Hth in Ht. cbv zeta. rewrite Hc.
      destruct (IH t Ht) as [IHl IHd]. split; [exact IHl |].
      rewrite <- IHd. unfold SignalHandler.
      destruct code; try destruct (_ <? 3)%Z; simpl;
        rewrite ?did_by_app; simpl; now rewrite ?app_nil_r.
Qed.

Lemma threads_do_not_touch_each_other_witness :
  nth_error (threads _ Demo.demo_end) 1
  = Some {| location := Returned;
            locals := after_pairs Demo.demo_engine Demo.demo_cfg
                        [("!x", "c"); ("a", "c")]%string
                        (initial Demo.demo_engine) |} /\
  did_by 1 (log _ Demo.demo_end)
  = done_on Demo.demo_engine Demo.demo_cfg
            [("!x", "c"); ("a", "c")]%string (initial Demo.demo_engine).
Proof.
  split; [vm_compute; reflexivity |].
  refine (proj2 (threads_do_not_touch_each_other
                   Demo.demo_engine Demo.demo_cfg Demo.demo_files 2 false 0%Z
                   Demo.demo_end 1
                   {| location := Returned;
                      locals := after_pairs Demo.demo_engine Demo.demo_cfg
                                  [("!x", "c"); ("a", "c")]%string
                                  (initial Demo.demo_engine) |}
                   _ _)).
  - apply run_reaches with (schedule := Demo.demo_schedule).
    vm_compute. reflexivity.
  - vm_compute. reflexivity.
Defined.

(** X16.  Started with no thread at all, the process never pops a pair:
    in every state it reaches the queue is the whole todo list and nothing
    is completed. *)
Theorem no_thread_no_pop (E : Engine) (cfg : Config) (files : DiffPairList)
  (quit : bool) (count : Z) (q : Process E) :
  reaches E cfg (start E files 0 quit count) q ->
  threads E q = [] /\ file_queue E q = files /\
  popped (log E q) = [] /\ completed (log E q) = [].
Proof.
  induction 1 as [| q r _ (I1 & I2 & I3 & I4) Hs]; [now repeat split |].
  apply step_cases in Hs.
  destruct Hs as (_ & [(before & t & after & eff & Ht & _) | (code & ->)]).
  - rewrite I1 in Ht. now destruct before.
  - destruct (signal_log E code q) as (-> & -> & -> & -> & _). auto.
Qed.

Lemma no_thread_no_pop_witness :
  file_queue _ (SignalHandler Demo.demo_engine SIGINT
                  (start Demo.demo_engine Demo.demo_files 0 false 0))
  = Demo.demo_files.
Proof.
  refine (proj1 (proj2 (no_thread_no_pop
                          Demo.demo_engine Demo.demo_cfg Demo.demo_files
                          false 0%Z _ _))).
  eapply reaches_step; [apply reaches_refl | now apply step_signal].
Defined.

Lemma to_int_small (z : Z) : (0 <= z < 2 ^ 31)%Z -> to_int z = z.
Proof.
  intros H. unfold to_int. rewrite Z.mod_small; lia.
Qed.

(** X17.  The number in the line "pairs diffed" is the size of the todo
    list taken before the threads start: once all threads have returned it
    is the number of pairs completed, failed ones included, plus the
    number of pairs left in the queue after a request to quit. *)
Theorem reported_pairs_count_abandoned_ones (E : Engine) (cfg : Config)
  (files : DiffPairList) (num_threads : nat) (quit : bool) (count : Z)
  (q : Process E) :
  (Z.of_nat (List.length files) < 2 ^ 31)%Z ->
  reaches E cfg (start E files num_threads quit count) q ->
  all_returned E q ->
  num_diffed files
  = Z.of_nat (List.length (completed (log E q))
              + List.length (file_queue E q)).
Proof.
  intros Hsmall Hr Hall.
  pose proof (reaches_fifo E cfg _ _ Hr) as Hfifo. simpl in Hfifo.
  destruct (reaches_invariants E cfg _ _ _ _ _ Hr) as (Hacc & _ & _).
  unfold accounted in Hacc. rewrite held_from_none, app_nil_r in Hacc.
  - unfold num_diffed. rewrite to_int_small by lia. f_equal.
    rewrite <- Hfifo, length_app, length_map.
    now rewrite (Permutation_length Hacc).
  - eapply Forall_impl; [| exact Hall]. intros t Ht f1 f2.
    simpl in Ht. congruence.
Qed.

Lemma reported_pairs_count_abandoned_ones_witness :
  num_diffed Demo.demo_files
  = Z.of_nat (List.length (completed (log _ Demo.demo_end))
              + List.length (file_queue _ Demo.demo_end)).
Proof.
  refine (reported_pairs_count_abandoned_ones
            Demo.demo_engine Demo.demo_cfg Demo.demo_files 2 false 0%Z
            Demo.demo_end _ _ _).
  - vm_compute. reflexivity.
  - apply run_reaches with (schedule := Demo.demo_schedule).
    vm_compute. reflexivity.
  - unfold all_returned. simpl. repeat constructor.
Defined.

End PoolProps.

(** ** The command line *)

Module MainProps.
Import DifferThread Main.
Local Open Scope list_scope.

(** *** The output formats *)

Lemma binary_is_not_log (entry : string) :
  is_binary_format entry = true -> is_log_format entry = false.
Proof.
  unfold is_binary_format, is_log_format. intros H.
  apply orb_true_iff in H.
  destruct H as [H | H]; apply String.eqb_eq in H; now rewrite H.
Qed.

Lemma is_format_cases (entry : string) :
  (is_binary_format entry = true /\ is_log_format entry = false /\
   is_format entry = true) \/
  (is_binary_format entry = false /\ is_log_format entry = true /\
   is_format entry = true) \/
  (is_binary_format entry = false /\ is_log_format entry = false /\
   is_format entry = false).
Proof.
  unfold is_format.
  pose proof (binary_is_not_log entry) as H.
  destruct (is_binary_format entry), (is_log_format entry); simpl; auto.
Qed.

(** The loop, flag by flag, up to the first entry that is no format. *)
Lemma parse_output_format_spec (entries : list string) :
  forall output_binary output_log,
    match find (fun entry => negb (is_format entry)) entries with
    | None =>
        parse_output_format entries output_binary output_log
        = (output_binary || existsb is_binary_format entries,
           output_log || existsb is_log_format entries, OkStatus)
    | Some bad =>
        exists before after,
          entries = before ++ bad :: after /\
          forallb is_format before = true /\
          parse_output_format entries output_binary output_log
          = (output_binary || existsb is_binary_format before,
             output_log || existsb is_log_format before,
             Error kInvalidArgument ("Invalid output format: " ++ bad))
    end.
Proof.
  induction entries as [| entry entries IH]; intros b l; simpl.
  - now rewrite !orb_false_r.
  - fold (is_binary_format entry). fold (is_log_format entry).
    destruct (is_format_cases entry)
      as [(Hb & Hl & Hf) | [(Hb & Hl & Hf) | (Hb & Hl & Hf)]];
      rewrite Hf, Hb; try rewrite Hl; simpl.
    + specialize (IH true l).
      destruct (find _ entries) as [bad |].
      * destruct IH as (before & after & -> & Hall & ->).
        exists (entry :: before), after. simpl. rewrite Hf, Hb, Hl, Hall.
        rewrite !orb_true_r. simpl. auto.
      * rewrite IH. now rewrite !orb_true_r.
    + specialize (IH b true).
      destruct (find _ entries) as [bad |].
      * destruct IH as (before & after & -> & Hall & ->).
        exists (entry :: before), after. simpl. rewrite Hf, Hb, Hl, Hall.
        rewrite !orb_true_r. simpl. auto.
      * rewrite IH. now rewrite !orb_true_r.
    + exists [], entries. simpl. now rewrite !orb_false_r.
Qed.

(** X18.  The formats are taken in order up to the first entry that is
    neither [bin], [binary] nor [log] in whatever letter case.  Without
    such an entry the call goes on, the binary flag set if it was or if a
    binary entry is in the list, and the same for the log flag; otherwise
    the error names that entry, and the flags stand as the entries before
    it left them: a flag is never cleared. *)
Theorem output_formats_are_read_in_order (entries : list string)
  (output_binary output_log : bool) :
  match find (fun entry => negb (is_format entry)) entries with
  | None =>
      parse_output_format entries output_binary output_log
      = (output_binary || existsb is_binary_format entries,
         output_log || existsb is_log_format entries, OkStatus)
  | Some bad =>
      exists before after,
        entries = before ++ bad :: after /\
        forallb is_format before = true /\
        parse_output_format entries output_binary output_log
        = (output_binary || existsb is_binary_format before,
           output_log || existsb is_log_format before,
           Error kInvalidArgument ("Invalid output format: " ++ bad))
  end.
Proof. apply parse_output_format_spec. Qed.

Lemma existsb_same_elements (A : Type) (f : A -> bool) (l l' : list A) :
  (forall x, In x l <-> In x l') -> existsb f l = existsb f l'.
Proof.
  intros H.
  destruct (existsb f l) eqn:E1; destruct (existsb f l') eqn:E2; trivial.
  - apply existsb_exists in E1. destruct E1 as (x & Hx & Hf).
    rewrite <- E2. symmetry. apply existsb_exists. exists x.
    split; [now apply H | trivial].
  - apply existsb_exists in E2. destruct E2 as (x & Hx & Hf).
    rewrite <- E1. apply existsb_exists. exists x.
    split; [now apply H | trivial].
Qed.

Lemma existsb_upper (g : string -> bool) (l : list string) :
  existsb (fun entry => g (AsciiStrToUpper entry)) l
  = existsb g (map AsciiStrToUpper l).
Proof. induction l as [| a l IH]; simpl; congruence. Qed.

Lemma find_none_existsb (A : Type) (f : A -> bool) (l : list A) :
  find f l = None <-> existsb f l = false.
Proof.
  induction l as [| a l IH]; simpl; [tauto |].
  destruct (f a); simpl; [split; discriminate | exact IH].
Qed.

(** Two lists with the same entries up to letter case. *)
Lemma existsb_same_formats (g : string -> bool) (l l' : list string) :
  (forall format, In format (map AsciiStrToUpper l) <->
                  In format (map AsciiStrToUpper l')) ->
  existsb (fun entry => g (AsciiStrToUpper entry)) l
  = existsb (fun entry => g (AsciiStrToUpper entry)) l'.
Proof.
  intros H. rewrite !existsb_upper. now apply existsb_same_elements.
Qed.

(** X19.  Two lists of formats with the same entries up to letter case, in
    whatever order and however often repeated, are read alike: both are
    accepted or both refused, and when accepted they set the same flags. *)
Theorem output_formats_order_is_irrelevant (entries entries' : list string)
  (output_binary output_log : bool) :
  (forall format, In format (map AsciiStrToUpper entries) <->
                  In format (map AsciiStrToUpper entries')) ->
  let r := parse_output_format entries output_binary output_log in
  let r' := parse_output_format entries' output_binary output_log in
  (snd r = OkStatus <-> snd r' = OkStatus) /\
  (snd r = OkStatus -> r = r').
Proof.
  intros Hsame r r'. subst r r'.
  pose proof (parse_output_format_spec entries output_binary output_log) as H.
  pose proof (parse_output_format_spec entries' output_binary output_log) as H'.
  assert (Hnone : find (fun e => negb (is_format e)) entries = None <->
                  find (fun e => negb (is_format e)) entries' = None).
  { rewrite !find_none_existsb.
    pose proof (existsb_same_formats
                  (fun u => negb (((u =? "BIN") || (u =? "BINARY"))
                                  || (u =? "LOG")))%string
                  entries entries' Hsame) as G.
    cbv beta in G.
    change (existsb (fun e => negb (is_format e)) entries
            = existsb (fun e => negb (is_format e)) entries') in G.
    now rewrite G. }
  destruct (find _ entries) as [bad |] eqn:Hf;
    destruct (find _ entries') as [bad' |] eqn:Hf'.
  - destruct H as (? & ? & _ & _ & ->), H' as (? & ? & _ & _ & ->).
    simpl. split; [split |]; discriminate.
  - destruct Hnone as [_ Hn]. now specialize (Hn eq_refl).
  - destruct Hnone as [Hn _]. now specialize (Hn eq_refl).
  - rewrite H, H'. simpl. split; [tauto |]. intros _.
    pose proof (existsb_same_formats
                  (fun u => (u =? "BIN") || (u =? "BINARY"))%string
                  entries entries' Hsame) as G1.
    pose proof (existsb_same_formats
                  (fun u => u =? "LOG")%string
                  entries entries' Hsame) as G2.
    cbv beta in G1, G2.
    change (existsb is_binary_format entries
            = existsb is_binary_format entries') in G1.
    change (existsb is_log_format entries
            = existsb is_log_format entries') in G2.
    now rewrite G1, G2.
Qed.

Lemma output_formats_order_is_irrelevant_witness :
  parse_output_format ["log"; "Bin"; "LOG"]%string false false
  = parse_output_format ["BIN"; "Log"]%string false false.
Proof.
  refine (proj2 (output_formats_order_is_irrelevant
                   ["log"; "Bin"; "LOG"]%string ["BIN"; "Log"]%string
                   false false _) _).
  - intros format. vm_compute. tauto.
  - vm_compute. reflexivity.
Defined.

(** *** The two inputs *)

(** X20.  More positional arguments than inputs left unnamed are refused
    as extra arguments.  Otherwise an input given by name keeps its value;
    an unnamed primary is the first positional argument, an unnamed
    secondary the next one not taken, or empty; and the call is refused
    exactly when the primary so found is empty. *)
Theorem inputs_by_name_then_by_position (primary secondary : string)
  (positional : list string) :
  let primary' :=
    if (primary =? "")%string then nth 0 positional ""%string else primary in
  let secondary' :=
    if (secondary =? "")%string
    then nth (if (primary =? "")%string then 1 else 0) positional ""%string
    else secondary in
  resolve_inputs primary secondary positional
  = if unnamed_inputs primary secondary <? List.length positional
    then inl (Error kInvalidArgument "Extra arguments on command line")
    else if (primary' =? "")%string
         then inl (Error kInvalidArgument "Need primary input (--primary)")
         else inr (primary', secondary').
Proof.
  unfold resolve_inputs, unnamed_inputs.
  destruct (String.eqb_spec primary "") as [-> | Hp];
    destruct (String.eqb_spec secondary "") as [-> | Hs];
    destruct positional as [| a [| b [| c rest]]]; simpl;
    try reflexivity;
    repeat match goal with
      | |- context [(?x =? "")%string] =>
          destruct (String.eqb_spec x "") as [-> | ?]; simpl
      end;
    try reflexivity; try contradiction.
Qed.

(** *** [BinDiffMain] *)

Section Program.
Variable E : DifferThread.Engine.
Variable H : Host E.

Ltac run_main :=
  unfold main, BinDiffMain, BinDiffMain_body, catching, try_block, batch,
    bind, ask, call, call_status,
    when, emit, ret, finish, read, logo, boot; cbn [fst snd].

(** X21.  Called as [bindiff_ui] or with [--ui], the program loads the
    configuration and starts the UI with the positional arguments, and
    returns what that returned: no output format and no input is looked at,
    and nothing is read. *)
Theorem ui_mode_starts_only_the_ui (binary_name : string) (flags : Flags)
  (positional : list string) (m : Machine H) :
  ui_mode binary_name flags = true ->
  BinDiffMain E H binary_name flags positional m
  = match LoadConfig H (FLAGS_config flags) (fst m) with
    | (w1, Error code message) =>
        ((w1, snd m), logo H flags ++ [ConfigLoaded (FLAGS_config flags)],
         Some (Error code message))
    | (w1, OkStatus) =>
        match StartUiWithOptions H positional w1 with
        | (w2, status) =>
            ((w2, snd m),
             logo H flags ++ [ConfigLoaded (FLAGS_config flags);
                              UiStarted positional],
             Some status)
        end
    end.
Proof.
  unfold ui_mode. intros Hui. run_main.
  destruct (FLAGS_nologo flags); cbn [negb fst snd app];
    destruct (LoadConfig H (FLAGS_config flags) (fst m)) as [w1 [| code msg]];
    cbn [fst snd app]; trivial;
    rewrite Hui; cbn [fst snd];
    destruct (StartUiWithOptions H positional w1) as [w2 [| c2 m2]];
    reflexivity.
Qed.

(** X22.  Outside the UI, with a configuration that loads and has matching
    steps, a wrong output format is reported first, then extra arguments,
    then a missing primary; and whichever it is, the program returns with
    nothing done but the logo and the configuration. *)
Theorem arguments_are_checked_before_any_work (binary_name : string)
  (flags : Flags) (positional : list string) (m : Machine H)
  (w1 : World H) (status : Status) :
  ui_mode binary_name flags = false ->
  LoadConfig H (FLAGS_config flags) (fst m) = (w1, OkStatus) ->
  have_matching_steps H w1 = true ->
  (snd (parse_output_format (FLAGS_output_format flags) false false) = status
   /\ status <> OkStatus) \/
  (snd (parse_output_format (FLAGS_output_format flags) false false) = OkStatus
   /\ resolve_inputs (FLAGS_primary flags) (FLAGS_secondary flags) positional
      = inl status) ->
  BinDiffMain E H binary_name flags positional m
  = ((w1, snd m), logo H flags ++ [ConfigLoaded (FLAGS_config flags)],
     Some status).
Proof.
  unfold ui_mode. intros Hui Hcfg Hsteps Hargs. run_main.
  destruct (FLAGS_nologo flags); cbn [negb fst snd app];
    rewrite Hcfg; cbn [fst snd app]; rewrite Hui; cbn [fst snd];
    rewrite Hsteps; cbn [negb];
    destruct (parse_output_format (FLAGS_output_format flags) false false)
      as [[ob ol] [| code msg]]; cbn [snd] in Hargs;
    destruct Hargs as [[<- Hne] | [Hok Hin]];
    try congruence; try reflexivity;
    rewrite Hin; reflexivity.
Qed.

Lemma resolve_inputs_error (primary secondary : string)
  (positional : list string) (status : Status) :
  resolve_inputs primary secondary positional = inl status ->
  status <> OkStatus.
Proof.
  unfold resolve_inputs.
  destruct positional as [| a [| b rest]];
    destruct (primary =? "")%string eqn:Hp;
    destruct (secondary =? "")%string eqn:Hs;
    cbn; rewrite ?Hp, ?Hs;
    repeat match goal with
      | |- context [(?x =? "")%string] => destruct (x =? "")%string
      | |- context [match ?l with [] => _ | _ :: _ => _ end] => destruct l
      end;
    intros [= <-]; discriminate.
Qed.

(** [BinDiffMain] outside the UI, return by return. *)
Lemma BinDiffMain_startup (binary_name : string) (flags : Flags)
  (positional : list string) (m : Machine H) :
  ui_mode binary_name flags = false ->
  BinDiffMain E H binary_name flags positional m
  = let loaded := logo H flags ++ [ConfigLoaded (FLAGS_config flags)] in
    match LoadConfig H (FLAGS_config flags) (fst m) with
    | (w1, Error code message) =>
        ((w1, snd m), loaded, Some (Error code message))
    | (w1, OkStatus) =>
        if have_matching_steps H w1 then
          match parse_output_format (FLAGS_output_format flags) false false
          with
          | (_, _, Error code message) =>
              ((w1, snd m), loaded, Some (Error code message))
          | (output_binary, output_log, OkStatus) =>
              match resolve_inputs (FLAGS_primary flags)
                                   (FLAGS_secondary flags) positional with
              | inl status => ((w1, snd m), loaded, Some status)
              | inr (primary, secondary) =>
                  match try_block E H flags (GetCurrentDirectory H (fst m))
                          match FLAGS_output_dir flags with
                          | Some dir => dir
                          | None => GetCurrentDirectory H (fst m)
                          end
                          primary secondary output_binary output_log
                          (w1, snd m) with
                  | (m1, done, Next _) => (m1, loaded ++ done, Some OkStatus)
                  | (m1, done, Return status) =>
                      (m1, loaded ++ done, Some status)
                  | (m1, done, Raise e) =>
                      (m1, loaded ++ done, Some (Error kUnknown (what_of H e)))
                  | (m1, done, Trap) => (m1, loaded ++ done, None)
                  end
              end
          end
        else ((w1, snd m), loaded,
              Some (Error kFailedPrecondition "Config file invalid"))
    end.
Proof.
  unfold ui_mode. intros Hui.
  unfold BinDiffMain, BinDiffMain_body, catching, bind, ask, call_status,
    when, emit, ret, finish, logo.
  cbn [fst snd].
  destruct (FLAGS_nologo flags); cbn [negb fst snd app];
    destruct (LoadConfig H (FLAGS_config flags) (fst m))
      as [w1 [| code msg]]; cbn [fst snd app]; trivial;
    rewrite Hui; cbn [fst snd];
    destruct (have_matching_steps H w1); cbn [negb]; trivial;
    destruct (parse_output_format (FLAGS_output_format flags) false false)
      as [[ob ol] [| code msg]]; trivial;
    destruct (resolve_inputs (FLAGS_primary flags) (FLAGS_secondary flags)
                             positional) as [rst | [primary secondary]];
    trivial;
    destruct (try_block _ _ _ _ _ _ _ _ _ _) as [[m1 done] [[] | st | e |]];
    cbn [app]; rewrite ?app_nil_r; reflexivity.
Qed.

(** Past the arguments: the [try] block decides. *)
Lemma BinDiffMain_try (binary_name : string) (flags : Flags)
  (positional : list string) (m : Machine H) (w1 : World H)
  (output_binary output_log : bool) (primary secondary : string) :
  ui_mode binary_name flags = false ->
  LoadConfig H (FLAGS_config flags) (fst m) = (w1, OkStatus) ->
  have_matching_steps H w1 = true ->
  parse_output_format (FLAGS_output_format flags) false false
  = (output_binary, output_log, OkStatus) ->
  resolve_inputs (FLAGS_primary flags) (FLAGS_secondary flags) positional
  = inr (primary, secondary) ->
  BinDiffMain E H binary_name flags positional m
  = match try_block E H flags (GetCurrentDirectory H (fst m))
            match FLAGS_output_dir flags with
            | Some dir => dir
            | None => GetCurrentDirectory H (fst m)
            end
            primary secondary output_binary output_log (w1, snd m) with
    | (m1, done, Next _) =>
        (m1, logo H flags ++ ConfigLoaded (FLAGS_config flags) :: done,
         Some OkStatus)
    | (m1, done, Return status) =>
        (m1, logo H flags ++ ConfigLoaded (FLAGS_config flags) :: done,
         Some status)
    | (m1, done, Raise e) =>
        (m1, logo H flags ++ ConfigLoaded (FLAGS_config flags) :: done,
         Some (Error kUnknown (what_of H e)))
    | (m1, done, Trap) =>
        (m1, logo H flags ++ ConfigLoaded (FLAGS_config flags) :: done, None)
    end.
Proof.
  unfold ui_mode. intros Hui Hcfg Hsteps Hfmt Hin.
  unfold BinDiffMain, BinDiffMain_body, catching, bind, ask, call_status,
    when, emit, ret, finish, logo.
  cbn [fst snd].
  destruct (FLAGS_nologo flags); cbn [negb fst snd app];
    rewrite Hcfg; cbn [fst snd app]; rewrite Hui; cbn [fst snd];
    rewrite Hsteps; cbn [negb]; rewrite Hfmt, Hin;
    destruct (try_block _ _ _ _ _ _ _ _ _ _) as [[m1 done] [[] | st | e |]];
    cbn [app]; rewrite ?app_nil_r; reflexivity.
Qed.

Ltac run_try :=
  unfold try_block, batch, invalid_inputs, bind, ask, call, when, emit, ret,
    finish, read;
  cbn [fst snd graphs].

Ltac settle := cbn [fst snd app andb orb negb graphs].

(** X23.  A directory as primary is diffed as a batch before the secondary
    is looked at: when the secondary then names neither a file nor a
    directory, the run ends in the error on invalid inputs after the batch
    is done.  The batch writes to the primary directory when no output
    directory is given, or the current directory is given. *)
Theorem batch_runs_before_the_secondary_is_checked (binary_name : string)
  (flags : Flags) (positional : list string) (m : Machine H)
  (w1 w2 : World H) (output_binary output_log : bool)
  (primary secondary : string) :
  let current_path := GetCurrentDirectory H (fst m) in
  let output_dir :=
    match FLAGS_output_dir flags with
    | Some dir => if (dir =? current_path)%string then primary else dir
    | None => primary
    end in
  ui_mode binary_name flags = false ->
  LoadConfig H (FLAGS_config flags) (fst m) = (w1, OkStatus) ->
  have_matching_steps H w1 = true ->
  parse_output_format (FLAGS_output_format flags) false false
  = (output_binary, output_log, OkStatus) ->
  resolve_inputs (FLAGS_primary flags) (FLAGS_secondary flags) positional
  = inr (primary, secondary) ->
  IsDirectory H w1 primary = true ->
  FileExists H w1 primary = false ->
  IsDirectory H w1 output_dir = true ->
  FLAGS_ls flags = false ->
  FLAGS_md_index flags = false ->
  BatchDiff H primary secondary output_dir w1 = (w2, None) ->
  secondary <> ""%string ->
  FileExists H w2 secondary = false ->
  IsDirectory H w2 secondary = false ->
  BinDiffMain E H binary_name flags positional m
  = ((w2, snd m),
     logo H flags ++ [ConfigLoaded (FLAGS_config flags);
                      BatchDiffCalled primary secondary output_dir],
     Some (Error kFailedPrecondition invalid_inputs_message)).
Proof.
  intros current_path output_dir Hui Hcfg Hsteps Hfmt Hin Hdir Hfile Hout
    Hls Hmd Hbatch Hsec Hfile2 Hdir2.
  rewrite (BinDiffMain_try _ _ _ _ _ _ _ _ _ Hui Hcfg Hsteps Hfmt Hin).
  fold current_path.
  assert (Hdef : (if (match FLAGS_output_dir flags with
                      | Some dir => dir
                      | None => current_path
                      end =? current_path)%string && IsDirectory H w1 primary
                  then primary
                  else match FLAGS_output_dir flags with
                       | Some dir => dir
                       | None => current_path
                       end) = output_dir).
  { rewrite Hdir, andb_true_r. subst output_dir.
    destruct (FLAGS_output_dir flags) as [dir |]; trivial.
    now rewrite String.eqb_refl. }
  run_try. rewrite Hdef, Hout. settle.
  apply String.eqb_neq in Hsec.
  repeat (progress (rewrite ?Hfile, ?Hdir, ?Hls, ?Hmd, ?Hbatch, ?Hsec,
                      ?Hfile2, ?Hdir2; settle)).
  reflexivity.
Qed.

(** X24.  In a batch with a reference file, the reference is read once
    more when the batch is done, and nothing is diffed with it: the run
    ends well with the graphs of the reference as the secondary side. *)
Theorem reference_is_read_after_the_batch (binary_name : string)
  (flags : Flags) (positional : list string) (m : Machine H)
  (w1 w2 : World H) (output_binary output_log : bool)
  (primary secondary : string) (g : Program E) (c : Cache E) :
  let current_path := GetCurrentDirectory H (fst m) in
  let output_dir :=
    match FLAGS_output_dir flags with
    | Some dir => if (dir =? current_path)%string then primary else dir
    | None => primary
    end in
  ui_mode binary_name flags = false ->
  LoadConfig H (FLAGS_config flags) (fst m) = (w1, OkStatus) ->
  have_matching_steps H w1 = true ->
  parse_output_format (FLAGS_output_format flags) false false
  = (output_binary, output_log, OkStatus) ->
  resolve_inputs (FLAGS_primary flags) (FLAGS_secondary flags) positional
  = inr (primary, secondary) ->
  IsDirectory H w1 primary = true ->
  FileExists H w1 primary = false ->
  IsDirectory H w1 output_dir = true ->
  FLAGS_ls flags = false ->
  FLAGS_md_index flags = false ->
  BatchDiff H primary secondary output_dir w1 = (w2, None) ->
  secondary <> ""%string ->
  FileExists H w2 secondary = true ->
  Read E secondary (graphs2 E (snd m)) (instruction_cache E (snd m))
  = (g, c, None) ->
  BinDiffMain E H binary_name flags positional m
  = ((w2, set_graphs E Secondary g (set_cache E c (snd m))),
     logo H flags ++ [ConfigLoaded (FLAGS_config flags);
                      BatchDiffCalled primary secondary output_dir;
                      Did (ReadCalled Secondary secondary)],
     Some OkStatus).
Proof.
  intros current_path output_dir Hui Hcfg Hsteps Hfmt Hin Hdir Hfile Hout
    Hls Hmd Hbatch Hsec Hfile2 Hread.
  rewrite (BinDiffMain_try _ _ _ _ _ _ _ _ _ Hui Hcfg Hsteps Hfmt Hin).
  fold current_path.
  assert (Hdef : (if (match FLAGS_output_dir flags with
                      | Some dir => dir
                      | None => current_path
                      end =? current_path)%string && IsDirectory H w1 primary
                  then primary
                  else match FLAGS_output_dir flags with
                       | Some dir => dir
                       | None => current_path
                       end) = output_dir).
  { rewrite Hdir, andb_true_r. subst output_dir.
    destruct (FLAGS_output_dir flags) as [dir |]; trivial.
    now rewrite String.eqb_refl. }
  run_try. rewrite Hdef, Hout. settle.
  apply String.eqb_neq in Hsec.
  repeat (progress (rewrite ?Hfile, ?Hdir, ?Hls, ?Hmd, ?Hbatch, ?Hsec,
                      ?Hfile2, ?Hread; settle)).
  reflexivity.
Qed.

(** X25.  A primary file that cannot be read ends the run: the exception
    of the loader becomes the status, [main] prints its text after
    [Error: ] and exits with [EXIT_FAILURE]; no batch is run and the
    secondary is not looked at. *)
Theorem unreadable_primary_fails_the_run (binary_name : string)
  (flags : Flags) (positional : list string) (m : Machine H)
  (w1 : World H) (output_binary output_log : bool)
  (primary secondary : string) (g : Program E) (c : Cache E)
  (e : DifferThread.Exception) :
  let current_path := GetCurrentDirectory H (fst m) in
  let given :=
    match FLAGS_output_dir flags with
    | Some dir => dir
    | None => current_path
    end in
  let output_dir :=
    if (given =? current_path)%string && IsDirectory H w1 primary
    then primary else given in
  ui_mode binary_name flags = false ->
  LoadConfig H (FLAGS_config flags) (fst m) = (w1, OkStatus) ->
  have_matching_steps H w1 = true ->
  parse_output_format (FLAGS_output_format flags) false false
  = (output_binary, output_log, OkStatus) ->
  resolve_inputs (FLAGS_primary flags) (FLAGS_secondary flags) positional
  = inr (primary, secondary) ->
  IsDirectory H w1 output_dir = true ->
  FileExists H w1 primary = true ->
  Read E primary (graphs1 E (snd m)) (instruction_cache E (snd m))
  = (g, c, Some e) ->
  main E H binary_name flags positional m
  = ((w1, set_graphs E Primary g (set_cache E c (snd m))),
     logo H flags ++ [ConfigLoaded (FLAGS_config flags);
                      Did (ReadCalled Primary primary);
                      Did (PrintErrorMessage ("Error: " ++ what_of H e))],
     Some EXIT_FAILURE).
Proof.
  intros current_path given output_dir Hui Hcfg Hsteps Hfmt Hin Hout Hfile
    Hread.
  unfold main.
  rewrite (BinDiffMain_try _ _ _ _ _ _ _ _ _ Hui Hcfg Hsteps Hfmt Hin).
  fold current_path. fold given.
  run_try. fold output_dir. rewrite Hout. settle.
  repeat (progress (rewrite ?Hfile, ?Hread; settle)).
  rewrite <- app_assoc. reflexivity.
Qed.

(** X26.  A primary file alone, without a secondary, is read and nothing
    more: the help text is printed, or with [--md_index] the MD indices of
    the file, and the run ends well. *)
Theorem lone_file_prints_help (binary_name : string)
  (flags : Flags) (positional : list string) (m : Machine H)
  (w1 : World H) (output_binary output_log : bool)
  (primary : string) (g : Program E) (c : Cache E) :
  let output_dir :=
    match FLAGS_output_dir flags with
    | Some dir => dir
    | None => GetCurrentDirectory H (fst m)
    end in
  ui_mode binary_name flags = false ->
  LoadConfig H (FLAGS_config flags) (fst m) = (w1, OkStatus) ->
  have_matching_steps H w1 = true ->
  parse_output_format (FLAGS_output_format flags) false false
  = (output_binary, output_log, OkStatus) ->
  resolve_inputs (FLAGS_primary flags) (FLAGS_secondary flags) positional
  = inr (primary, ""%string) ->
  IsDirectory H w1 output_dir = true ->
  FileExists H w1 primary = true ->
  IsDirectory H w1 primary = false ->
  Read E primary (graphs1 E (snd m)) (instruction_cache E (snd m))
  = (g, c, None) ->
  BinDiffMain E H binary_name flags positional m
  = ((w1, set_graphs E Primary g (set_cache E c (snd m))),
     logo H flags ++ [ConfigLoaded (FLAGS_config flags);
                      Did (ReadCalled Primary primary);
                      if FLAGS_md_index flags then DumpMdIndicesCalled
                      else HelpPrinted],
     Some OkStatus).
Proof.
  intros output_dir Hui Hcfg Hsteps Hfmt Hin Hout Hfile Hdir Hread.
  rewrite (BinDiffMain_try _ _ _ _ _ _ _ _ _ Hui Hcfg Hsteps Hfmt Hin).
  fold output_dir.
  run_try. rewrite Hdir, andb_false_r, Hout. settle.
  destruct (FLAGS_md_index flags);
    repeat (progress (rewrite ?Hfile, ?Hread, ?Hdir; cbn [String.eqb];
                      settle));
    reflexivity.
Qed.

(** [Diff] is called once, and the scores are computed silently. *)
Lemma diff_done (s s1 : State E) (d1 : list Event)
  (c1 : Completion (FixedPoints E)) :
  diff E s = (s1, d1, c1) -> d1 = [DiffCalled].
Proof.
  unfold diff, DifferThread.bind, DifferThread.emit, DifferThread.get,
    DifferThread.modify, DifferThread.throw, DifferThread.ret.
  destruct (Diff E (graphs1 E s) (graphs2 E s)) as [[g1 g2] [e | fp]];
    cbn; now intros [= _ <- _].
Qed.

Lemma scores_done (fp : FixedPoints E) (s s1 : State E) (d1 : list Event)
  (c1 : Completion (Scores E)) :
  scores E fp s = (s1, d1, c1) -> d1 = [] /\ s1 = s.
Proof.
  unfold scores, DifferThread.bind, DifferThread.get, DifferThread.throw,
    DifferThread.ret.
  cbn. destruct (GetScores E (graphs1 E s) (graphs2 E s) fp) as [e | sc];
    cbn; now intros [= <- <- _].
Qed.

Lemma existsb_prints (f : Action -> bool) (lines : list string) :
  (forall line, f (Did (PrintMessage line)) = false) ->
  existsb f (map (fun line => Did (PrintMessage line)) lines) = false.
Proof.
  intros Hf. induction lines as [| line lines IH]; simpl; trivial.
  now rewrite Hf, IH.
Qed.

(** The block that diffs two files, when it runs to its end. *)
Lemma diff_files_done (output_dir : string)
  (output_binary output_log : bool) (m m' : Machine H)
  (done : list Action) :
  diff_files E H output_dir output_binary output_log m = (m', done, Next tt) ->
  exists before writers,
    done = before ++ [Did (WriteCalled writers);
                      Did (PrintMessage (writing_report H))] /\
    In (Did DiffCalled) before /\
    writers <> [] /\
    map fst writers
    = (if output_log then [ResultsLogWriter] else [])
      ++ (if output_binary || negb output_log then [DatabaseWriter] else []) /\
    forall kind name,
      In (kind, name) writers ->
      Filename.GetTruncatedFilename
        (output_dir ++ path_separator H)
        (GetFilename E (graphs1 E (snd m'))) "_vs_"
        (GetFilename E (graphs2 E (snd m'))) (extension_of kind)
      = Filename.Returned name.
Proof.
  unfold diff_files, bind, locals, print_all, lift, truncated_name, when,
    emit, ret. cbn [fst snd].
  intros Hrun.
  destruct (diff E (snd m)) as [[s1 d1] c1] eqn:Hdiff.
  pose proof (diff_done _ _ _ _ Hdiff) as ->.
  destruct c1 as [fp | e |]; cbn [fst snd] in Hrun; try discriminate.
  destruct (scores E fp s1) as [[s2 d2] c2] eqn:Hsc.
  destruct (scores_done _ _ _ _ _ Hsc) as [-> ->].
  destruct c2 as [sc | e |]; cbn [fst snd] in Hrun; try discriminate.
  destruct output_log, output_binary;
    cbn [fst snd IsEmpty orb negb app] in Hrun;
    repeat match type of Hrun with
      | context [Filename.GetTruncatedFilename ?a ?b ?c ?d ?e] =>
          let N := fresh "Hname" in
          destruct (Filename.GetTruncatedFilename a b c d e) eqn:N;
          cbn [fst snd IsEmpty orb negb app] in Hrun; try discriminate
      end;
    match type of Hrun with
    | context [Write E ?w ?a ?b ?c] =>
        destruct (Write E w a b c);
        cbn [fst snd IsEmpty orb negb app map] in Hrun; try discriminate
    end;
    injection Hrun as <- <-;
    exists (map (fun line => Did (PrintMessage line))
                (setup_report H (graphs1 E (snd m)) (graphs2 E (snd m)))
            ++ Did DiffCalled
               :: map (fun line => Did (PrintMessage line))
                    (matching_report H (graphs1 E s1) (graphs2 E s1) fp sc));
    eexists;
    (split; [rewrite <- app_assoc; reflexivity |]);
    (split; [apply in_or_app; right; now left |]);
    (split; [discriminate |]);
    (split; [reflexivity |]);
    cbn [snd]; intros kind name' Hin; cbn [In] in Hin;
    repeat match goal with
      | G : _ \/ _ |- _ => destruct G as [G | G]
      | G : (_, _) = (_, _) |- _ => injection G as <- <-
      | G : False |- _ => destruct G
      end;
    assumption.
Qed.


(** The block that diffs two files has no [return]. *)
Lemma diff_files_no_return (output_dir : string)
  (output_binary output_log : bool) (m m' : Machine H)
  (done : list Action) (status : Status) :
  diff_files E H output_dir output_binary output_log m
  <> (m', done, Return status).
Proof.
  unfold diff_files, bind, locals, print_all, lift, truncated_name, when,
    emit, ret. cbn [fst snd].
  intros Hrun.
  destruct (diff E (snd m)) as [[s1 d1] [fp | e |]];
    cbn [fst snd] in Hrun; try discriminate.
  destruct (scores E fp s1) as [[s2 d2] [sc | e |]];
    cbn [fst snd] in Hrun; try discriminate.
  destruct output_log, output_binary;
    cbn [fst snd IsEmpty orb negb app] in Hrun;
    repeat match type of Hrun with
      | context [Filename.GetTruncatedFilename ?a ?b ?c ?d ?e] =>
          destruct (Filename.GetTruncatedFilename a b c d e);
          cbn [fst snd IsEmpty orb negb app] in Hrun; try discriminate
      end;
    match type of Hrun with
    | context [Write E ?w ?a ?b ?c] =>
        destruct (Write E w a b c);
        cbn [fst snd IsEmpty orb negb app map] in Hrun; discriminate
    end.
Qed.

Lemma diff_files_job (output_dir : string)
  (output_binary output_log : bool) (m m' : Machine H)
  (done : list Action) :
  diff_files E H output_dir output_binary output_log m = (m', done, Next tt) ->
  existsb is_job done = true.
Proof.
  intros Hrun.
  destruct (diff_files_done _ _ _ _ _ _ Hrun)
    as (before & writers & -> & Hin & _).
  apply existsb_exists. exists (Did DiffCalled).
  split; [apply in_or_app; now left | reflexivity].
Qed.

(** The block that diffs two files prints no help. *)
Lemma diff_files_no_help (output_dir : string)
  (output_binary output_log : bool) (m m' : Machine H)
  (done : list Action) (f : Flow unit) :
  diff_files E H output_dir output_binary output_log m = (m', done, f) ->
  existsb is_help done = false.
Proof.
  unfold diff_files, bind, locals, print_all, lift, truncated_name, when,
    emit, ret. cbn [fst snd].
  intros Hrun.
  assert (Hprints : forall lines,
             existsb is_help
               (map (fun line => Did (PrintMessage line)) lines) = false).
  { intros lines. now apply existsb_prints. }
  destruct (diff E (snd m)) as [[s1 d1] c1] eqn:Hdiff.
  pose proof (diff_done _ _ _ _ Hdiff) as ->.
  destruct c1 as [fp | e |]; cbn [fst snd] in Hrun;
    [| injection Hrun as _ <- _; rewrite !existsb_app, Hprints; reflexivity ..].
  destruct (scores E fp s1) as [[s2 d2] c2] eqn:Hsc.
  destruct (scores_done _ _ _ _ _ Hsc) as [-> ->].
  destruct c2 as [sc | e |]; cbn [fst snd] in Hrun;
    [| injection Hrun as _ <- _; rewrite !existsb_app, Hprints; reflexivity ..].
  destruct output_log, output_binary;
    cbn [fst snd IsEmpty orb negb app] in Hrun;
    repeat match type of Hrun with
      | context [Filename.GetTruncatedFilename ?a ?b ?c ?d ?e] =>
          destruct (Filename.GetTruncatedFilename a b c d e);
          cbn [fst snd IsEmpty orb negb app] in Hrun
      end;
    try match type of Hrun with
      | context [Write E ?w ?a ?b ?c] =>
          destruct (Write E w a b c);
          cbn [fst snd IsEmpty orb negb app map] in Hrun
      end;
    injection Hrun as _ <- _;
    rewrite ?existsb_app, ?Hprints; cbn [existsb is_help orb];
    rewrite ?existsb_app, ?Hprints; reflexivity.
Qed.

(** The [try] block, when it runs to its end. *)
Lemma try_block_help (flags : Flags)
  (current_path output_dir primary secondary : string)
  (output_binary output_log : bool) (m m' : Machine H)
  (done : list Action) :
  try_block E H flags current_path output_dir primary secondary
            output_binary output_log m = (m', done, Next tt) ->
  existsb is_help done = negb (existsb is_job done).
Proof.
  unfold try_block, batch, bind, ask, call, when, emit, ret, finish, read.
  cbn [fst snd]. intros Hrun.
  repeat match type of Hrun with
    | context [IsDirectory H ?w ?p] =>
        destruct (IsDirectory H w p) eqn:?;
        cbn [fst snd app andb orb negb] in Hrun; try discriminate
    | context [FileExists H ?w ?p] =>
        destruct (FileExists H w p) eqn:?;
        cbn [fst snd app andb orb negb] in Hrun; try discriminate
    | context [(?a =? ?b)%string] =>
        destruct (a =? b)%string eqn:?;
        cbn [fst snd app andb orb negb] in Hrun; try discriminate
    | context [FLAGS_ls flags] =>
        destruct (FLAGS_ls flags) eqn:?;
        cbn [fst snd app andb orb negb] in Hrun; try discriminate
    | context [FLAGS_md_index flags] =>
        destruct (FLAGS_md_index flags) eqn:?;
        cbn [fst snd app andb orb negb] in Hrun; try discriminate
    | context [Read E ?f ?g ?c] =>
        destruct (Read E f g c) as [[? ?] [? |]] eqn:?;
        cbn [fst snd app andb orb negb] in Hrun; try discriminate
    | context [ListFiles H ?p ?w] =>
        destruct (ListFiles H p w) as [? [? |]] eqn:?;
        cbn [fst snd app andb orb negb] in Hrun; try discriminate
    | context [BatchDumpMdIndices H ?p ?w] =>
        destruct (BatchDumpMdIndices H p w) as [? [? |]] eqn:?;
        cbn [fst snd app andb orb negb] in Hrun; try discriminate
    | context [BatchDiff H ?p ?r ?o ?w] =>
        destruct (BatchDiff H p r o w) as [? [? |]] eqn:?;
        cbn [fst snd app andb orb negb] in Hrun; try discriminate
    | context [invalid_inputs E H ?d ?p ?r ?w] =>
        destruct (invalid_inputs E H d p r w) eqn:?;
        cbn [fst snd app andb orb negb] in Hrun; try discriminate
    | context [diff_files E H ?o ?a ?b ?w] =>
        let D := fresh "Hdiff" in
        destruct (diff_files E H o a b w) as [[? ?] [[] | ? | ? |]] eqn:D;
        cbn [fst snd app andb orb negb] in Hrun; try discriminate;
        pose proof (diff_files_no_help _ _ _ _ _ _ _ D) as Hh;
        pose proof (diff_files_job _ _ _ _ _ _ D) as Hj
    end;
    injection Hrun as _ <-; simpl;
    rewrite ?existsb_app, ?Hh, ?Hj; simpl; reflexivity.
Qed.

(** The [try] block returns early with an error only. *)
Lemma try_block_return (flags : Flags)
  (current_path output_dir primary secondary : string)
  (output_binary output_log : bool) (m m' : Machine H)
  (done : list Action) (status : Status) :
  try_block E H flags current_path output_dir primary secondary
            output_binary output_log m = (m', done, Return status) ->
  status <> OkStatus.
Proof.
  unfold try_block, batch, bind, ask, call, when, emit, ret, finish, read.
  cbn [fst snd]. intros Hrun.
  repeat match type of Hrun with
    | context [IsDirectory H ?w ?p] =>
        destruct (IsDirectory H w p) eqn:?;
        cbn [fst snd app andb orb negb] in Hrun; try discriminate
    | context [FileExists H ?w ?p] =>
        destruct (FileExists H w p) eqn:?;
        cbn [fst snd app andb orb negb] in Hrun; try discriminate
    | context [(?a =? ?b)%string] =>
        destruct (a =? b)%string eqn:?;
        cbn [fst snd app andb orb negb] in Hrun; try discriminate
    | context [FLAGS_ls flags] =>
        destruct (FLAGS_ls flags) eqn:?;
        cbn [fst snd app andb orb negb] in Hrun; try discriminate
    | context [FLAGS_md_index flags] =>
        destruct (FLAGS_md_index flags) eqn:?;
        cbn [fst snd app andb orb negb] in Hrun; try discriminate
    | context [Read E ?f ?g ?c] =>
        destruct (Read E f g c) as [[? ?] [? |]] eqn:?;
        cbn [fst snd app andb orb negb] in Hrun; try discriminate
    | context [ListFiles H ?p ?w] =>
        destruct (ListFiles H p w) as [? [? |]] eqn:?;
        cbn [fst snd app andb orb negb] in Hrun; try discriminate
    | context [BatchDumpMdIndices H ?p ?w] =>
        destruct (BatchDumpMdIndices H p w) as [? [? |]] eqn:?;
        cbn [fst snd app andb orb negb] in Hrun; try discriminate
    | context [BatchDiff H ?p ?r ?o ?w] =>
        destruct (BatchDiff H p r o w) as [? [? |]] eqn:?;
        cbn [fst snd app andb orb negb] in Hrun; try discriminate
    | context [invalid_inputs E H ?d ?p ?r ?w] =>
        destruct (invalid_inputs E H d p r w) eqn:?;
        cbn [fst snd app andb orb negb] in Hrun; try discriminate
    | context [diff_files E H ?o ?a ?b ?w] =>
        let D := fresh "Hdiff" in
        destruct (diff_files E H o a b w) as [[? ?] [[] | ? | ? |]] eqn:D;
        cbn [fst snd app andb orb negb] in Hrun; try discriminate;
        try (exfalso; exact (diff_files_no_return _ _ _ _ _ _ _ D))
    end;
    injection Hrun as _ _ <-; discriminate.
Qed.

(** X28.  Outside the UI, a run that ends well has printed the help text
    exactly when it did none of its jobs: no listing, no batch, no dump of
    MD indices and no diff of two files. *)
Theorem help_only_when_nothing_was_done (binary_name : string)
  (flags : Flags) (positional : list string) (m m' : Machine H)
  (done : list Action) :
  ui_mode binary_name flags = false ->
  BinDiffMain E H binary_name flags positional m = (m', done, Some OkStatus) ->
  existsb is_help done = negb (existsb is_job done).
Proof.
  intros Hui Hrun.
  rewrite (BinDiffMain_startup _ _ _ _ Hui) in Hrun.
  destruct (LoadConfig H (FLAGS_config flags) (fst m)) as [w1 [| code msg]];
    [| discriminate].
  destruct (have_matching_steps H w1); [| discriminate].
  destruct (parse_output_format (FLAGS_output_format flags) false false)
    as [[ob ol] [| code msg]]; [| discriminate].
  destruct (resolve_inputs (FLAGS_primary flags) (FLAGS_secondary flags)
                           positional) as [rst | [primary secondary]] eqn:Hin.
  - injection Hrun as _ _ ->. now apply resolve_inputs_error in Hin.
  - destruct (try_block _ _ _ _ _ _ _ _ _ _)
      as [[m1 d1] [[] | st | e |]] eqn:Htry; try discriminate.
    + injection Hrun as _ <-.
      apply try_block_help in Htry.
      unfold logo. destruct (FLAGS_nologo flags); simpl; exact Htry.
    + injection Hrun as _ _ ->. now apply try_block_return in Htry.
Qed.

End Program.

Lemma help_only_when_nothing_was_done_witness :
  existsb is_help (snd (fst Demo.demo_run)) = false /\
  existsb is_job (snd (fst Demo.demo_run)) = true.
Proof.
  split; [| reflexivity].
  exact (help_only_when_nothing_was_done Demo.demo_engine Demo.demo_host
           "bindiff" Demo.demo_flags ["a.BinExport"; "b.BinExport"]%string
           Demo.demo_boot (fst (fst Demo.demo_run)) (snd (fst Demo.demo_run))
           eq_refl eq_refl).
Defined.


Lemma batch_runs_before_the_secondary_is_checked_witness :
  BinDiffMain Demo.demo_engine Demo.demo_host "bindiff" Demo.demo_flags
              ["/in"; "missing"]%string Demo.demo_boot
  = (Demo.demo_boot,
     [Did (DifferThread.PrintMessage "BinDiff"); ConfigLoaded "";
      BatchDiffCalled "/in" "missing" "/in"],
     Some (Error kFailedPrecondition invalid_inputs_message)).
Proof.
  refine (batch_runs_before_the_secondary_is_checked Demo.demo_engine
            Demo.demo_host "bindiff" Demo.demo_flags
            ["/in"; "missing"]%string Demo.demo_boot tt tt true false
            "/in" "missing" eq_refl eq_refl eq_refl eq_refl eq_refl eq_refl
            eq_refl eq_refl eq_refl eq_refl eq_refl _ eq_refl eq_refl).
  discriminate.
Defined.

Lemma reference_is_read_after_the_batch_witness :
  BinDiffMain Demo.demo_engine Demo.demo_host "bindiff" Demo.demo_flags
              ["/in"; "a.BinExport"]%string Demo.demo_boot
  = ((tt, DifferThread.Build_State Demo.demo_engine
            ["a.BinExport"]%string ""%string "a.BinExport"%string
            ""%string ""%string),
     [Did (DifferThread.PrintMessage "BinDiff"); ConfigLoaded "";
      BatchDiffCalled "/in" "a.BinExport" "/in";
      Did (DifferThread.ReadCalled DifferThread.Secondary "a.BinExport")],
     Some OkStatus).
Proof.
  refine (reference_is_read_after_the_batch Demo.demo_engine
            Demo.demo_host "bindiff" Demo.demo_flags
            ["/in"; "a.BinExport"]%string Demo.demo_boot tt tt true false
            "/in" "a.BinExport" "a.BinExport"%string ["a.BinExport"]%string
            eq_refl eq_refl eq_refl eq_refl eq_refl eq_refl
            eq_refl eq_refl eq_refl eq_refl eq_refl _ eq_refl eq_refl).
  discriminate.
Defined.

Lemma unreadable_primary_fails_the_run_witness :
  main Demo.demo_engine Demo.demo_host "bindiff" Demo.demo_flags
       ["/in/!x"; "b.BinExport"]%string Demo.demo_boot
  = (Demo.demo_boot,
     [Did (DifferThread.PrintMessage "BinDiff"); ConfigLoaded "";
      Did (DifferThread.ReadCalled DifferThread.Primary "/in/!x");
      Did (DifferThread.PrintErrorMessage "Error: cannot read")],
     Some EXIT_FAILURE).
Proof.
  exact (unreadable_primary_fails_the_run Demo.demo_engine
           Demo.demo_host "bindiff" Demo.demo_flags
           ["/in/!x"; "b.BinExport"]%string Demo.demo_boot tt true false
           "/in/!x" "b.BinExport" ""%string []
           (DifferThread.std_exception "cannot read")
           eq_refl eq_refl eq_refl eq_refl eq_refl eq_refl eq_refl eq_refl).
Defined.

Lemma lone_file_prints_help_witness :
  BinDiffMain Demo.demo_engine Demo.demo_host "bindiff" Demo.demo_flags
              ["a.BinExport"]%string Demo.demo_boot
  = ((tt, DifferThread.Build_State Demo.demo_engine
            ["a.BinExport"]%string "a.BinExport"%string ""%string
            ""%string ""%string),
     [Did (DifferThread.PrintMessage "BinDiff"); ConfigLoaded "";
      Did (DifferThread.ReadCalled DifferThread.Primary "a.BinExport");
      HelpPrinted],
     Some OkStatus).
Proof.
  exact (lone_file_prints_help Demo.demo_engine
           Demo.demo_host "bindiff" Demo.demo_flags
           ["a.BinExport"]%string Demo.demo_boot tt true false
           "a.BinExport" "a.BinExport"%string ["a.BinExport"]%string
           eq_refl eq_refl eq_refl eq_refl eq_refl eq_refl eq_refl eq_refl
           eq_refl).
Defined.

Lemma ui_mode_starts_only_the_ui_witness :
  BinDiffMain Demo.demo_engine Demo.demo_host "bindiff" Demo.demo_ui_flags
              ["x"; "y"; "z"]%string Demo.demo_boot
  = (Demo.demo_boot, [ConfigLoaded ""; UiStarted ["x"; "y"; "z"]%string],
     Some OkStatus).
Proof.
  exact (ui_mode_starts_only_the_ui Demo.demo_engine Demo.demo_host
           "bindiff" Demo.demo_ui_flags ["x"; "y"; "z"]%string
           Demo.demo_boot eq_refl).
Defined.

Lemma arguments_are_checked_before_any_work_witness :
  BinDiffMain Demo.demo_engine Demo.demo_host "bindiff" Demo.demo_flags
              ["a.BinExport"; "b.BinExport"; "c.BinExport"]%string
              Demo.demo_boot
  = (Demo.demo_boot, [Did (DifferThread.PrintMessage "BinDiff");
                      ConfigLoaded ""],
     Some (Error kInvalidArgument "Extra arguments on command line")).
Proof.
  refine (arguments_are_checked_before_any_work Demo.demo_engine
            Demo.demo_host "bindiff" Demo.demo_flags
            ["a.BinExport"; "b.BinExport"; "c.BinExport"]%string
            Demo.demo_boot tt _ eq_refl eq_refl eq_refl _).
  right. split; reflexivity.
Defined.

End MainProps.

(** ** The two walks over a directory *)

Module ListingProps.
Import BatchDiff DifferThread Main Listing.
Local Open Scope list_scope.

Section Walks.
Variable E : Engine.
Variable d : Folder.
Variable path : string.

(** Entries that are no call graph are passed over. *)
Lemma dump_entries_skip (entry : string) (rest : list string) :
  has_extension d (JoinPath (files d) path entry) ".CALL_GRAPH" = false ->
  dump_entries E d path (entry :: rest) = dump_entries E d path rest.
Proof.
  unfold has_extension. cbn [dump_entries]. intros Hskip.
  destruct (IsDirectoryPath d _); trivial.
  cbn [negb andb] in Hskip. now rewrite Hskip.
Qed.

(** X29.  [BatchDumpMdIndices] stops at the first call graph that cannot be
    read: the exception of the loader leaves the loop, the MD indices of
    the files before it were dumped, and no entry after it is looked at. *)
Theorem batch_dump_stops_at_the_first_unreadable_file
  (before after : list string) (bad : string) (e : Exception)
  (g : Program E) (c : Cache E) :
  has_extension d (JoinPath (files d) path bad) ".CALL_GRAPH" = true ->
  Read E (JoinPath (files d) path bad) (no_program E) (empty_cache E)
  = (g, c, Some e) ->
  snd (dump_entries E d path before) = None ->
  dump_entries E d path (before ++ bad :: after)
  = (fst (dump_entries E d path before)
     ++ [Did (ReadCalled Primary (JoinPath (files d) path bad))],
     Some e).
Proof.
  unfold has_extension. intros Hbad Hread.
  apply andb_true_iff in Hbad. destruct Hbad as [Hfile Hext].
  apply negb_true_iff in Hfile.
  induction before as [| entry before IH]; intros Hbefore.
  - cbn [app dump_entries fst]. now rewrite Hfile, Hext, Hread.
  - cbn [app dump_entries] in *.
    destruct (IsDirectoryPath d (JoinPath (files d) path entry)); auto.
    destruct (negb _); auto.
    destruct (Read E (JoinPath (files d) path entry) (no_program E)
                   (empty_cache E)) as [[g1 c1] [e1 |]];
      [discriminate |].
    destruct (dump_entries E d path before) as [done thrown].
    cbn [snd] in Hbefore. rewrite (IH Hbefore). reflexivity.
Qed.

(** X30.  The two walks never take the same file.  In a directory whose
    regular files all have the extension of an exported program, in
    whatever letter case, [BatchDumpMdIndices] reads no file and dumps
    nothing; and in a directory whose regular files are all call graphs,
    [ListFiles] prints nothing. *)
Theorem the_two_walks_take_different_files (entries : list string) :
  GetDirectoryEntries d path = (OkStatus, entries) ->
  ((forall entry,
      In entry entries ->
      IsDirectoryPath d (JoinPath (files d) path entry) = true \/
      has_extension d (JoinPath (files d) path entry) ".BINEXPORT" = true) ->
   BatchDumpMdIndices E d path = ([], None)) /\
  ((forall entry,
      In entry entries ->
      IsDirectoryPath d (JoinPath (files d) path entry) = true \/
      has_extension d (JoinPath (files d) path entry) ".CALL_GRAPH" = true) ->
   ListFiles d path = []).
Proof.
  unfold BatchDumpMdIndices, ListFiles. intros ->. split; intros Hall.
  - induction entries as [| entry entries IH]; trivial.
    rewrite dump_entries_skip.
    + apply IH. intros x Hx. apply Hall. now right.
    + unfold has_extension in *.
      destruct (Hall entry (or_introl eq_refl)) as [-> | Hexp]; trivial.
      apply andb_true_iff in Hexp. destruct Hexp as [-> Hext].
      apply String.eqb_eq in Hext. now rewrite Hext.
  - induction entries as [| entry entries IH]; trivial.
    cbn [flat_map]. rewrite IH by (intros x Hx; apply Hall; now right).
    unfold has_extension in Hall.
    destruct (Hall entry (or_introl eq_refl)) as [-> | Hcg]; trivial.
    apply andb_true_iff in Hcg. destruct Hcg as [Hfile Hext].
    apply negb_true_iff in Hfile. rewrite Hfile.
    apply String.eqb_eq in Hext. now rewrite Hext.
Qed.

End Walks.

Lemma batch_dump_stops_at_the_first_unreadable_file_witness :
  BatchDumpMdIndices Demo.demo_engine Demo.demo_folder "/in"
  = ([Did (ReadCalled Primary "/in/!x.call_graph")],
     Some (std_exception "cannot read")).
Proof.
  exact (batch_dump_stops_at_the_first_unreadable_file
           Demo.demo_engine Demo.demo_folder "/in"
           ["sub"; "a.BinExport"]%string ["b.binexport"; "y.call_graph"]%string
           "!x.call_graph" (std_exception "cannot read") ""%string []
           eq_refl eq_refl eq_refl).
Defined.

Lemma the_two_walks_take_different_files_witness :
  BatchDumpMdIndices Demo.demo_engine Demo.demo_folder "/exported" = ([], None)
  /\ ListFiles Demo.demo_folder "/legacy" = [].
Proof.
  split.
  - refine (proj1 (the_two_walks_take_different_files
                     Demo.demo_engine Demo.demo_folder "/exported"
                     ["sub"; "a.BinExport"; "b.binexport"]%string eq_refl) _).
    intros entry [<- | [<- | [<- | []]]];
      [left | right | right]; reflexivity.
  - refine (proj2 (the_two_walks_take_different_files
                     Demo.demo_engine Demo.demo_folder "/legacy"
                     ["sub"; "y.call_graph"]%string eq_refl) _).
    intros entry [<- | [<- | []]]; [left | right]; reflexivity.
Defined.

End ListingProps.
